(** * Advanced file location: template tokens and anchored text edits

    A shallow embedding of the two engines of the plugin:
    - [Vault.ts]: [applyFileChanges], [processWithRetry], [removeFolderSafe];
    - the substitutions module: the token regular expression, the formatter
      registry, [fillTemplate], [validateFilename], [validatePath].

    JavaScript strings are modelled as lists of code units; the development
    covers the code units below 256 ([ascii]).  Offsets are JavaScript
    numbers holding integers, modelled as [Z]. *)

From Stdlib Require Import List ZArith NArith PArith Bool Ascii String Lia.
From Stdlib Require Import Sorted Permutation.
Import ListNotations.

Open Scope Z_scope.

(** ** JavaScript strings *)

Definition jsstring := list ascii.

(** A string literal of the source. *)
Definition js (s : string) : jsstring := list_ascii_of_string s.

Definition jslen (s : jsstring) : Z := Z.of_nat (List.length s).

(** [ToIntegerOrInfinity] followed by the clamping of a relative index, as
    [String.prototype.slice] does for both of its arguments. *)
Definition clamp_index (len i : Z) : Z :=
  if i <? 0 then Z.max (len + i) 0 else Z.min i len.

(** [s.slice(start, end)] *)
Definition slice (s : jsstring) (start stop : Z) : jsstring :=
  let len := jslen s in
  let from := clamp_index len start in
  let to := clamp_index len stop in
  firstn (Z.to_nat (to - from)) (skipn (Z.to_nat from) s).

(** [s.slice(start)]: the end defaults to the length. *)
Definition slice_from (s : jsstring) (start : Z) : jsstring :=
  slice s start (jslen s).

Definition jsstring_eqb (a b : jsstring) : bool :=
  if list_eq_dec ascii_dec a b then true else false.

(** ** Vault.ts: FileChange *)

Record FileChange := mkFileChange {
  startIndex : Z;
  endIndex : Z;
  oldContent : jsstring;
  newContent : jsstring
}.

(** [deepEqual] on two [FileChange] objects: the four fields agree. *)
Definition deepEqual (a b : FileChange) : bool :=
  (startIndex a =? startIndex b) && (endIndex a =? endIndex b)
  && jsstring_eqb (oldContent a) (oldContent b)
  && jsstring_eqb (newContent a) (newContent b).

(** What [console.warn] receives in [Vault.ts]. *)
Inductive Warning :=
| ContentMismatch (start stop : Z) (expected actual : jsstring)
| OverlappingChanges (previousChange change : FileChange)
| ContentChangedSinceRead.

(** *** The callback of [applyFileChanges], step by step *)

(** Lines 91-97: the first change whose expected text is not the text of
    the snapshot at its range. *)
Fixpoint find_mismatch (content : jsstring) (changes : list FileChange)
  : option Warning :=
  match changes with
  | [] => None
  | change :: rest =>
      let actualContent := slice content (startIndex change) (endIndex change) in
      if jsstring_eqb actualContent (oldContent change)
      then find_mismatch content rest
      else Some (ContentMismatch (startIndex change) (endIndex change)
                   (oldContent change) actualContent)
  end.

(** Line 99: [changes.sort((a, b) => a.startIndex - b.startIndex)].
    [Array.prototype.sort] is stable: entries with the same [startIndex]
    keep their order. *)
Fixpoint insert_change (a : FileChange) (sorted : list FileChange)
  : list FileChange :=
  match sorted with
  | [] => [a]
  | b :: rest =>
      if startIndex a - startIndex b <=? 0 then a :: sorted
      else b :: insert_change a rest
  end.

Fixpoint sort_changes (changes : list FileChange) : list FileChange :=
  match changes with
  | [] => []
  | a :: rest => insert_change a (sort_changes rest)
  end.

(** [array.filter((element, index) => ...)] *)
Fixpoint filter_indexed {A} (p : A -> nat -> bool) (index : nat) (l : list A)
  : list A :=
  match l with
  | [] => []
  | x :: rest =>
      if p x index then x :: filter_indexed p (S index) rest
      else filter_indexed p (S index) rest
  end.

(** Lines 102-107: an entry is dropped when it is deeply equal to the entry
    just before it in the sorted array. *)
Definition drop_repeated (changes : list FileChange) : list FileChange :=
  filter_indexed
    (fun change index =>
       match index with
       | O => true
       | S before =>
           match nth_error changes before with
           | Some previousChange => negb (deepEqual change previousChange)
           | None => true
           end
       end)
    O changes.

(** Lines 109-116: the loop [for (let i = 1; i < changes.length; i++)],
    leaving at the first overlapping pair. *)
Fixpoint find_overlap_loop (changes : list FileChange) (i steps : nat)
  : option Warning :=
  match steps with
  | O => None
  | S steps' =>
      match nth_error changes i, nth_error changes (i - 1) with
      | Some change, Some previousChange =>
          if endIndex previousChange >? startIndex change
          then Some (OverlappingChanges previousChange change)
          else find_overlap_loop changes (S i) steps'
      | _, _ => None
      end
  end.

Definition find_overlap (changes : list FileChange) : option Warning :=
  find_overlap_loop changes 1%nat (List.length changes - 1)%nat.

(** Lines 118-128: the merge loop with its two variables [newContent] and
    [lastIndex]. *)
Definition merge_step (content : jsstring) (acc : jsstring * Z)
  (change : FileChange) : jsstring * Z :=
  let '(newContent_acc, lastIndex) := acc in
  (newContent_acc ++ slice content lastIndex (startIndex change)
     ++ newContent change,
   endIndex change).

Definition merge_changes (content : jsstring) (changes : list FileChange)
  : jsstring :=
  let '(newContent_acc, lastIndex) :=
    fold_left (merge_step content) changes ([], 0) in
  newContent_acc ++ slice_from content lastIndex.

(** The same filter and the same loop read along the array, every entry
    being compared with the entry before it. *)
Fixpoint drop_after (previousChange : FileChange) (changes : list FileChange)
  : list FileChange :=
  match changes with
  | [] => []
  | change :: rest =>
      if deepEqual change previousChange then drop_after change rest
      else change :: drop_after change rest
  end.

Fixpoint overlap_after (previousChange : FileChange)
  (changes : list FileChange) : option Warning :=
  match changes with
  | [] => None
  | change :: rest =>
      if endIndex previousChange >? startIndex change
      then Some (OverlappingChanges previousChange change)
      else overlap_after change rest
  end.

(** The order of the sort, and two changes that do not overlap. *)
Definition starts_in_order (a b : FileChange) : Prop :=
  startIndex a <= startIndex b.

Definition ends_before (a b : FileChange) : Prop :=
  endIndex a <= startIndex b.

(** The change list that reaches the merge step, or the warning of the
    conflict that stops the attempt. *)
Definition validate_changes (content : jsstring) (changes : list FileChange)
  : Warning + list FileChange :=
  match find_mismatch content changes with
  | Some w => inl w
  | None =>
      let changes := drop_repeated (sort_changes changes) in
      match find_overlap changes with
      | Some w => inl w
      | None => inr changes
      end
  end.

(** The whole callback handed to [processWithRetry]: the warnings it logs
    and the new content, [None] standing for [null]. *)
Definition applyFileChanges_callback (content : jsstring)
  (changes : list FileChange) : list Warning * option jsstring :=
  match validate_changes content changes with
  | inl w => ([w], None)
  | inr changes => ([], Some (merge_changes content changes))
  end.

(** The merge as section 4.4 words it: the text before the first change,
    then each replacement followed by the snapshot text up to the next
    change, the last one followed by the remainder. *)
Fixpoint merge_after (content : jsstring) (previous : FileChange)
  (rest : list FileChange) : jsstring :=
  match rest with
  | [] => slice_from content (endIndex previous)
  | next :: rest' =>
      slice content (endIndex previous) (startIndex next)
        ++ newContent next ++ merge_after content next rest'
  end.

Definition merge_described (content : jsstring) (changes : list FileChange)
  : jsstring :=
  match changes with
  | [] => slice_from content 0
  | first :: rest =>
      slice content 0 (startIndex first)
        ++ newContent first ++ merge_after content first rest
  end.

(** *** processWithRetry *)

(** [Partial<RetryOptions>]: the one option the source sets. *)
Record RetryOptions := mkRetryOptions {
  timeoutInMilliseconds : option N
}.

Definition DEFAULT_RETRY_OPTIONS : RetryOptions :=
  {| timeoutInMilliseconds := Some 60000%N |}.

(** [{ ...a, ...b }]: a key of [b] that is present wins. *)
Definition spread (a b : RetryOptions) : RetryOptions :=
  {| timeoutInMilliseconds :=
       match timeoutInMilliseconds b with
       | Some t => Some t
       | None => timeoutInMilliseconds a
       end |}.

(** What the attempt does to the document store. *)
Inductive StoreEvent :=
| AdapterRead (content : jsstring)
| VaultProcess (before after : jsstring).

Record World := mkWorld {
  document : jsstring;
  console : list Warning;
  events : list StoreEvent;
  clock : N
}.

(** What the surroundings do during one attempt: another writer may store
    new content after the read and before [vault.process] runs, and the
    attempt (with the pause that follows it) takes some time. *)
Record AttemptEnv := mkAttemptEnv {
  concurrent_edit : option jsstring;
  elapsed : positive
}.

Definition ProcessFn := nat -> jsstring -> list Warning * option jsstring.

(** Lines 64-82: the callback handed to [retryWithTimeout], for the
    attempt number [i]. *)
Definition attempt (processFn : ProcessFn) (env : nat -> AttemptEnv)
  (i : nat) (w : World) : bool * World :=
  let oldContent := document w in
  let '(warnings, newContent) := processFn i oldContent in
  let now := (clock w + Npos (elapsed (env i)))%N in
  let read := events w ++ [AdapterRead oldContent] in
  match newContent with
  | None =>
      (false,
       {| document := document w; console := console w ++ warnings;
          events := read; clock := now |})
  | Some newContent =>
      let content :=
        match concurrent_edit (env i) with
        | Some edited => edited
        | None => document w
        end in
      if negb (jsstring_eqb content oldContent)
      then (false,
            {| document := content;
               console := console w ++ warnings ++ [ContentChangedSinceRead];
               events := read ++ [VaultProcess content content];
               clock := now |})
      else (true,
            {| document := newContent; console := console w ++ warnings;
               events := read ++ [VaultProcess content newContent];
               clock := now |})
  end.

(** How a run ends.  [TimeoutExceeded] keeps the budget that ran out, for
    the statements about it; the error that is raised tells nothing of the
    attempts. *)
Inductive RetryOutcome :=
| Completed
| TimeoutExceeded (budget : N).

(** Modelled from the spec: [retryWithTimeout] of the scheduler library,
    which is not part of the repository.  Section 4.5: the unit of work is
    re-invoked on failure until it succeeds or until the elapsed time
    exceeds the budget, then a timeout error is raised; there is no bound
    on the number of attempts.  The unit of work hands the scheduler a
    boolean and nothing else.  [fuel] bounds the recursion only. *)
Fixpoint retry_loop (fuel : nat) (fn : nat -> World -> bool * World)
  (budget started : N) (i : nat) (w : World) : option (RetryOutcome * World) :=
  match fuel with
  | O => None
  | S fuel' =>
      let '(success, w') := fn i w in
      if success then Some (Completed, w')
      else if (budget <? clock w' - started)%N
           then Some (TimeoutExceeded budget, w')
           else retry_loop fuel' fn budget started (S i) w'
  end.

(** The budget of the scheduler when the caller gives none; never used by
    [processWithRetry], which always provides one. *)
Definition SCHEDULER_TIMEOUT : N := 5000%N.

Definition budget_of (options : RetryOptions) : N :=
  match timeoutInMilliseconds options with
  | Some t => t
  | None => SCHEDULER_TIMEOUT
  end.

Definition retryWithTimeout (fn : nat -> World -> bool * World)
  (options : RetryOptions) (w : World) : option (RetryOutcome * World) :=
  let budget := budget_of options in
  retry_loop (S (N.to_nat budget)) fn budget (clock w) O w.

Definition processWithRetry (processFn : ProcessFn) (env : nat -> AttemptEnv)
  (retryOptions : RetryOptions) (w : World) : option (RetryOutcome * World) :=
  let overriddenOptions := spread DEFAULT_RETRY_OPTIONS retryOptions in
  retryWithTimeout (attempt processFn env) overriddenOptions w.

(** [applyFileChanges]: [changesFn ()] may answer differently at each
    attempt. *)
Definition applyFileChanges (changesFn : nat -> list FileChange)
  (env : nat -> AttemptEnv) (retryOptions : RetryOptions) (w : World)
  : option (RetryOutcome * World) :=
  let overriddenOptions := spread DEFAULT_RETRY_OPTIONS retryOptions in
  processWithRetry
    (fun i content => applyFileChanges_callback content (changesFn i))
    env overriddenOptions w.

(** The warning of the last conflict an execution logged. *)
Definition last_conflict (w : World) : option Warning :=
  last (map Some (console w)) None.

(** The two conflicts of an attempt: the expected text of some change is
    not the text of the snapshot at its range; two of the changes left by
    the filter overlap. *)
Definition mismatched (content : jsstring) (changes : list FileChange) : Prop :=
  exists change,
    In change changes
    /\ slice content (startIndex change) (endIndex change) <> oldContent change.

Definition overlapping (changes : list FileChange) : Prop :=
  exists before previousChange between change after,
    drop_repeated (sort_changes changes)
    = before ++ previousChange :: between ++ change :: after
    /\ endIndex previousChange > startIndex change.

(** The world an attempt leaves when its callback answers [null]: the read
    and the warnings, nothing stored. *)
Definition after_abandoned (env : nat -> AttemptEnv) (i : nat)
  (warnings : list Warning) (w : World) : World :=
  {| document := document w;
     console := console w ++ warnings;
     events := events w ++ [AdapterRead (document w)];
     clock := (clock w + Npos (elapsed (env i)))%N |}.

(** The content [vault.process] finds in the store. *)
Definition content_at_write (env : nat -> AttemptEnv) (i : nat) (w : World)
  : jsstring :=
  match concurrent_edit (env i) with
  | Some edited => edited
  | None => document w
  end.

(** *** removeFolderSafe *)

(** The part of the vault below one folder.  A file carries the notes that
    link to it; [stuck] says that deleting the entry throws and leaves it in
    place. *)
#[warnings="-register-all"]
Inductive TAbstractFile :=
| TFile (path : jsstring) (backlinks : list jsstring) (stuck : bool)
| TFolder (path : jsstring) (stuck : bool) (children : list TAbstractFile).

(** [backlinks.removeKey(removedNotePath)] under [if (removedNotePath)],
    then [backlinks.count() !== 0]. *)
Definition still_used (backlinks : list jsstring)
  (removedNotePath : option jsstring) : bool :=
  let remaining :=
    match removedNotePath with
    | Some (c :: p) =>
        filter (fun note => negb (jsstring_eqb note (c :: p))) backlinks
    | _ => backlinks
    end in
  negb (Nat.eqb (List.length remaining) 0).

(** What the source does not show of [vault.delete]: how the deleted entry
    leaves [folder.children].  Either the vault puts a new array in the
    place of [folder.children], and the array that the loop of line 141 is
    reading stays as it was; or it takes the entry out of that very array,
    and the entries after it move down by one while the loop is reading
    it. *)
Inductive ChildrenUpdate :=
| NewArray
| InPlace.

(** [removeFolderSafe] on the entry found at [folderPath]: the flag
    [canRemove] and what is left of the entry ([None] when it was deleted).
    [getFolderByPath] answers [null] for a file and the call returns
    [false].

    The loop [for (const child of folder.children)] reads the array by
    index.  [visit children canRemove] runs it from the next index on,
    [children] being the entries from that index to the end.  When [child]
    stays, the next index holds the entry after it.  When [child] was
    deleted and the array was edited in place, the entry that followed has
    moved to the index just read, and the next index holds the one after:
    the loop passes over one entry, which stays in the folder unvisited.
    [vault.delete(folder, true)] at the end deletes the folder with all
    that is left in it. *)
Fixpoint removeFolder (vault : ChildrenUpdate)
  (removedNotePath : option jsstring)
  (folder : TAbstractFile) {struct folder} : bool * option TAbstractFile :=
  match folder with
  | TFile _ _ _ => (false, Some folder)
  | TFolder folder_path folder_stuck children =>
      let visit :=
        fix visit (children : list TAbstractFile) (canRemove : bool)
          {struct children} : bool * list TAbstractFile :=
          match children with
          | [] => (canRemove, [])
          | child :: rest =>
              match child with
              | TFile p backlinks stuck =>
                  if still_used backlinks removedNotePath
                  then let '(c, kept) := visit rest false in (c, child :: kept)
                  else if stuck
                       then let '(c, kept) := visit rest false in
                            (c, child :: kept)
                       else
                         (* deleted *)
                         match vault, rest with
                         | InPlace, passed_over :: rest' =>
                             let '(c, kept) := visit rest' canRemove in
                             (c, passed_over :: kept)
                         | _, _ => visit rest canRemove
                         end
              | TFolder _ _ _ =>
                  (* canRemove &&= await removeFolderSafe(...) *)
                  if canRemove
                  then
                    match removeFolder vault removedNotePath child with
                    | (ok, Some residue) =>
                        let '(c, kept) := visit rest ok in (c, residue :: kept)
                    | (ok, None) =>
                        (* deleted *)
                        match vault, rest with
                        | InPlace, passed_over :: rest' =>
                            let '(c, kept) := visit rest' ok in
                            (c, passed_over :: kept)
                        | _, _ => visit rest ok
                        end
                    end
                  else let '(c, kept) := visit rest false in (c, child :: kept)
              end
          end in
      let '(canRemove, kept) := visit children true in
      if canRemove
      then if folder_stuck
           then (false, Some (TFolder folder_path folder_stuck kept))
           else (true, None)
      else (false, Some (TFolder folder_path folder_stuck kept))
  end.

(** [removeFolderSafe]: [None] is a path at which the vault has nothing. *)
Definition removeFolderSafe (vault : ChildrenUpdate)
  (folder : option TAbstractFile)
  (removedNotePath : option jsstring) : bool * option TAbstractFile :=
  match folder with
  | Some entry => removeFolder vault removedNotePath entry
  | None => (false, None)
  end.

(** The paths of the files of a tree. *)
Fixpoint file_paths (node : TAbstractFile) : list jsstring :=
  match node with
  | TFile p _ _ => [p]
  | TFolder _ _ children =>
      (fix all (l : list TAbstractFile) : list jsstring :=
         match l with
         | [] => []
         | n :: l' => file_paths n ++ all l'
         end) children
  end.

(** ** The substitutions module *)

Open Scope char_scope.

Definition dollar : ascii := "$".
Definition lbrace : ascii := "{".
Definition rbrace : ascii := "}".
Definition colon : ascii := ":".
Definition slash : ascii := "/".
Definition dot : ascii := ".".
Definition space : ascii := " ".
Definition dquote : ascii := ascii_of_nat 34.
Definition star : ascii := ascii_of_nat 42.
Definition backslash : ascii := ascii_of_nat 92.

(** What [.] of a regular expression refuses: the line terminators (of the
    code units below 256, line feed and carriage return). *)
Definition is_line_terminator (c : ascii) : bool :=
  (c =? ascii_of_nat 10) || (c =? ascii_of_nat 13).

(** *** SUBSTITUTION_TOKEN_REG_EXP = /\${(.+?)(?::(.+?))?}/g

    The backtracking matcher run at one position.  [format_tail] is the
    lazy [(.+?)] of the format after its first character: it stops at the
    first closing brace. *)
Fixpoint format_tail (s : jsstring) : option (jsstring * jsstring) :=
  match s with
  | [] => None
  | c :: s' =>
      if c =? rbrace then Some ([], s')
      else if is_line_terminator c then None
      else match format_tail s' with
           | Some (f, rest) => Some (c :: f, rest)
           | None => None
           end
  end.

(** [(.+?)}] after the colon: one character at least, then the shortest
    run that reaches a closing brace. *)
Definition match_format (s : jsstring) : option (jsstring * jsstring) :=
  match s with
  | [] => None
  | c :: s' =>
      if is_line_terminator c then None
      else match format_tail s' with
           | Some (f, rest) => Some (c :: f, rest)
           | None => None
           end
  end.

(** The lazy [(.+?)] of the name after its first character: at each
    position the optional group [(?::(.+?))?] is tried first, then the
    closing brace alone, and only then is the name made one character
    longer. *)
Fixpoint name_tail (s : jsstring)
  : option (jsstring * option jsstring * jsstring) :=
  match s with
  | [] => None
  | c :: s' =>
      let longer :=
        if is_line_terminator c then None
        else match name_tail s' with
             | Some (n, f, rest) => Some (c :: n, f, rest)
             | None => None
             end in
      if c =? colon then
        match match_format s' with
        | Some (f, rest) => Some ([], Some f, rest)
        | None => longer
        end
      else if c =? rbrace then Some ([], None, s')
      else longer
  end.

(** One run of the regular expression at the start of [s]: the name, the
    format when the group took part, and what follows the match. *)
Definition exec_token (s : jsstring)
  : option (jsstring * option jsstring * jsstring) :=
  match s with
  | c1 :: c2 :: c :: s' =>
      if (c1 =? dollar) && (c2 =? lbrace) && negb (is_line_terminator c)
      then match name_tail s' with
           | Some (n, f, rest) => Some (c :: n, f, rest)
           | None => None
           end
      else None
  | _ => None
  end.

(** The successive matches of the global regular expression, as [replace],
    [matchAll] and [match] enumerate them, with the characters between
    them. *)
Inductive Piece :=
| Literal (c : ascii)
| Token (name : jsstring) (format : option jsstring).

Fixpoint tokenize_fuel (fuel : nat) (s : jsstring) : list Piece :=
  match fuel with
  | O => []
  | S fuel' =>
      match exec_token s with
      | Some (name, format, rest) =>
          Token name format :: tokenize_fuel fuel' rest
      | None =>
          match s with
          | [] => []
          | c :: s' => Literal c :: tokenize_fuel fuel' s'
          end
      end
  end.

Definition tokenize (s : jsstring) : list Piece :=
  tokenize_fuel (List.length s) s.

(** [str.replace(SUBSTITUTION_TOKEN_REG_EXP, replacer)] *)
Definition replace_tokens (replacer : jsstring -> option jsstring -> jsstring)
  (s : jsstring) : jsstring :=
  flat_map (fun p => match p with
                     | Literal c => [c]
                     | Token name format => replacer name format
                     end) (tokenize s).

(** [str.match(SUBSTITUTION_TOKEN_REG_EXP)] is not [null]. *)
Definition has_token (s : jsstring) : bool :=
  existsb (fun p => match p with Token _ _ => true | Literal _ => false end)
    (tokenize s).

(** *** The registry of formatters *)

(** [String.prototype.toLowerCase] on the code units below 256. *)
Definition lower_char (c : ascii) : ascii :=
  let n := nat_of_ascii c in
  if ((65 <=? n) && (n <=? 90)
      || (192 <=? n) && (n <=? 222) && negb (n =? 215))%nat
  then ascii_of_nat (n + 32) else c.

Definition toLowerCase (s : jsstring) : jsstring := map lower_char s.

Record Substitutions := mkSubstitutions {
  folderPath : jsstring;
  fileName : jsstring;
  filePath : jsstring;
  folderName : jsstring;
  originalCopiedFileExtension : jsstring;
  originalCopiedFileName : jsstring
}.

(** What the host answers to one call of a formatter: the clock of
    [moment], [Math.random] as the index it selects in an alphabet of a
    given length, [crypto.randomUUID] and the prompt modal ([None] when the
    user cancels). *)
Record App := mkApp {
  moment_format : option jsstring -> jsstring;
  random_index : nat -> nat;
  randomUUID : jsstring;
  prompt_modal : jsstring -> option jsstring
}.

Inductive Error :=
| InvalidToken (token : jsstring)
| PromptCancelled.

(** A settled [MaybePromise<string>]. *)
Inductive Settled :=
| Fulfilled (text : jsstring)
| Rejected (e : Error).

Definition Formatter := Substitutions -> App -> option jsstring -> Settled.

Definition generateRandomSymbol (app : App) (symbols : jsstring) : jsstring :=
  match nth_error symbols (random_index app (List.length symbols)) with
  | Some c => [c]
  | None => []
  end.

Definition formatDate (app : App) (format : option jsstring) : jsstring :=
  moment_format app format.

Definition generateRandomDigit (app : App) : jsstring :=
  generateRandomSymbol app (js "0123456789").

Definition generateRandomDigitOrLetter (app : App) : jsstring :=
  generateRandomSymbol app (js "0123456789ABCDEFGHIJKLMNOPQRSTUVWXYZ").

Definition generateRandomLetter (app : App) : jsstring :=
  generateRandomSymbol app (js "ABCDEFGHIJKLMNOPQRSTUVWXYZ").

Definition generateUuid (app : App) : jsstring := randomUUID app.

(** Lines 99-110: the modal answers with a value or with [null]; the
    validator it is given only restricts what the user may enter. *)
Definition prompt (substitutions : Substitutions) (app : App) : Settled :=
  match prompt_modal app (originalCopiedFileName substitutions) with
  | Some promptResult => Fulfilled promptResult
  | None => Rejected PromptCancelled
  end.

(** [Map.prototype.set]: a later entry for the same key replaces the
    earlier one. *)
Definition registerFormatter (token : jsstring) (formatter : Formatter)
  (formatters : list (jsstring * Formatter)) : list (jsstring * Formatter) :=
  (toLowerCase token, formatter)
    :: filter (fun entry => negb (jsstring_eqb (fst entry) (toLowerCase token)))
         formatters.

(** The static initialisation block: the twelve registrations of lines
    48-59, the first one innermost. *)
Definition formatters : list (jsstring * Formatter) :=
  registerFormatter (js "uuid") (fun _ app _ => Fulfilled (generateUuid app))
  (registerFormatter (js "randomLetter")
     (fun _ app _ => Fulfilled (generateRandomLetter app))
  (registerFormatter (js "randomDigitOrLetter")
     (fun _ app _ => Fulfilled (generateRandomDigitOrLetter app))
  (registerFormatter (js "randomDigit")
     (fun _ app _ => Fulfilled (generateRandomDigit app))
  (registerFormatter (js "prompt")
     (fun substitutions app _ => prompt substitutions app)
  (registerFormatter (js "originalCopiedFileName")
     (fun substitutions _ _ =>
        Fulfilled (originalCopiedFileName substitutions))
  (registerFormatter (js "originalCopiedFileExtension")
     (fun substitutions _ _ =>
        Fulfilled (originalCopiedFileExtension substitutions))
  (registerFormatter (js "folderPath")
     (fun substitutions _ _ => Fulfilled (folderPath substitutions))
  (registerFormatter (js "folderName")
     (fun substitutions _ _ => Fulfilled (folderName substitutions))
  (registerFormatter (js "filePath")
     (fun substitutions _ _ => Fulfilled (filePath substitutions))
  (registerFormatter (js "fileName")
     (fun substitutions _ _ => Fulfilled (fileName substitutions))
  (registerFormatter (js "date")
     (fun _ app format => Fulfilled (formatDate app format))
     []))))))))))).

(** [Map.prototype.get] *)
Fixpoint formatters_get (key : jsstring) (m : list (jsstring * Formatter))
  : option Formatter :=
  match m with
  | [] => None
  | (k, f) :: m' => if jsstring_eqb k key then Some f else formatters_get key m'
  end.

Definition isRegisteredToken (token : jsstring) : bool :=
  match formatters_get (toLowerCase token) formatters with
  | Some _ => true
  | None => false
  end.

(** *** fillTemplate *)

(** The promise an [async] replacer returns: rejected before its first
    [await] (the [throw] of an unknown token), or settled only after the
    [await] of the formatter. *)
Inductive Promise :=
| RejectedAtOnce (e : Error)
| Awaiting (outcome : Settled).

(** Lines 89-96: the replacer, at the match number [i]. *)
Definition replacer (substitutions : Substitutions) (app : nat -> App)
  (i : nat) (token : jsstring) (format : option jsstring) : Promise :=
  match formatters_get (toLowerCase token) formatters with
  | None => RejectedAtOnce (InvalidToken token)
  | Some formatter => Awaiting (formatter substitutions (app i) format)
  end.

(** The replacer is called on every match, from left to right. *)
Fixpoint call_replacers (substitutions : Substitutions) (app : nat -> App)
  (i : nat) (pieces : list Piece) : list Promise :=
  match pieces with
  | [] => []
  | Literal _ :: rest => call_replacers substitutions app i rest
  | Token name format :: rest =>
      replacer substitutions app i name format
        :: call_replacers substitutions app (S i) rest
  end.

Fixpoint first_rejected_at_once (promises : list Promise) : option Error :=
  match promises with
  | [] => None
  | RejectedAtOnce e :: _ => Some e
  | Awaiting _ :: rest => first_rejected_at_once rest
  end.

Fixpoint await_all (promises : list Promise) : Error + list jsstring :=
  match promises with
  | [] => inr []
  | RejectedAtOnce e :: _ => inl e
  | Awaiting (Rejected e) :: _ => inl e
  | Awaiting (Fulfilled text) :: rest =>
      match await_all rest with
      | inl e => inl e
      | inr texts => inr (text :: texts)
      end
  end.

(** [Promise.all]: the rejection that is seen first wins.  A promise that is
    rejected at once is seen before any promise that waits for a formatter,
    and of two promises rejected at once the leftmost is seen first.  Among
    the promises that wait, [await_all] takes the leftmost rejection: the
    formatters of the registry reject with one error only, the cancelled
    prompt. *)
Definition promise_all (promises : list Promise) : Error + list jsstring :=
  match first_rejected_at_once promises with
  | Some e => inl e
  | None => await_all promises
  end.

(** The second pass: every match is replaced by the next replacement
    ([replacements.shift()], one per match), and the text of a replacement
    is not looked at again. *)
Fixpoint splice (pieces : list Piece) (replacements : list jsstring)
  : jsstring :=
  match pieces with
  | [] => []
  | Literal c :: rest => c :: splice rest replacements
  | Token _ _ :: rest =>
      match replacements with
      | text :: replacements' => text ++ splice rest replacements'
      | [] => splice rest []
      end
  end.

(** [replaceAllAsync(str, searchValue, replacer)] of
    obsidian-dev-utils/String, which is not part of the repository: a first
    pass over the matches calls the replacer on each and collects the
    promises, [Promise.all] awaits them, and a second pass puts the
    replacements in place of the matches. *)
Definition replaceAllAsync (pieces : list Piece) (promises : list Promise)
  : Error + jsstring :=
  match promise_all promises with
  | inl e => inl e
  | inr replacements => inr (splice pieces replacements)
  end.

Definition fillTemplate (substitutions : Substitutions) (app : nat -> App)
  (template : jsstring) : Error + jsstring :=
  let pieces := tokenize template in
  replaceAllAsync pieces (call_replacers substitutions app O pieces).

(** *** validateFilename and validatePath *)

Definition removeTokenFormatting (str : jsstring) : jsstring :=
  replace_tokens (fun token _ => [dollar; lbrace] ++ token ++ [rbrace]) str.

Fixpoint first_unregistered (pieces : list Piece) : option jsstring :=
  match pieces with
  | [] => None
  | Literal _ :: rest => first_unregistered rest
  | Token token _ :: rest =>
      if isRegisteredToken token then first_unregistered rest else Some token
  end.

Definition validateTokens (str : jsstring) : option jsstring :=
  first_unregistered (tokenize str).

(** INVALID_FILENAME_PATH_CHARS_REG_EXP: the class of backslash, slash,
    colon, star, question mark, double quote, less than, greater than and
    vertical bar. *)
Definition is_invalid_char (c : ascii) : bool :=
  (c =? backslash) || (c =? slash) || (c =? colon) || (c =? star)
  || (c =? "?") || (c =? dquote) || (c =? "<") || (c =? ">") || (c =? "|").

Definition has_invalid_char (s : jsstring) : bool := existsb is_invalid_char s.

(** MORE_THAN_TWO_DOTS_REG_EXP = /^\.{3,}$/ *)
Definition more_than_two_dots (s : jsstring) : bool :=
  forallb (fun c => c =? dot) s && (3 <=? List.length s)%nat.

(** TRAILING_DOTS_AND_SPACES_REG_EXP = /[. ]+$/ *)
Definition trailing_dot_or_space (s : jsstring) : bool :=
  match rev s with
  | c :: _ => (c =? dot) || (c =? space)
  | [] => false
  end.

Definition unknown_token_message (token : jsstring) : jsstring :=
  js "Unknown token: " ++ token.

Definition tokens_not_allowed_message : jsstring :=
  js "Tokens are not allowed in file name".

Definition empty_message : jsstring := js "File name is empty".

Definition quoted (filename : jsstring) : jsstring :=
  js "File name " ++ [dquote] ++ filename ++ [dquote].

Definition invalid_symbols_message (filename : jsstring) : jsstring :=
  quoted filename ++ js " contains invalid symbols".

Definition more_than_two_dots_message (filename : jsstring) : jsstring :=
  quoted filename ++ js " contains more than two dots".

Definition trailing_message (filename : jsstring) : jsstring :=
  quoted filename ++ js " contains trailing dots or spaces".

(** Lines 127-147: the rules that follow the handling of tokens.  In
    [validateFilename] and [validatePath], [if (unknownToken)] holds for a
    token that is neither [null] nor the empty string. *)
Definition validate_name (filename : jsstring) : jsstring :=
  if jsstring_eqb filename (js ".") || jsstring_eqb filename (js "..")
  then []
  else match filename with
       | [] => empty_message
       | _ =>
           if has_invalid_char filename
           then invalid_symbols_message filename
           else if more_than_two_dots filename
           then more_than_two_dots_message filename
           else if trailing_dot_or_space filename
           then trailing_message filename
           else []
       end.

Definition validateFilename (filename : jsstring) (areTokensAllowed : bool)
  : jsstring :=
  if areTokensAllowed then
    let filename := removeTokenFormatting filename in
    match validateTokens filename with
    | Some (c :: token) => unknown_token_message (c :: token)
    | _ => validate_name filename
    end
  else if has_token filename then tokens_not_allowed_message
  else validate_name filename.

(** [trimStart(str, prefix, validate?)] and [trimEnd(str, suffix, validate?)]
    of obsidian-dev-utils/String, which are not part of the repository: when
    [str.startsWith(prefix)] the result is [str.slice(prefix.length)],
    otherwise [str] itself (the third argument, absent here, asks for an
    error instead); the prefix is taken off once.  Written here for a
    prefix of one character. *)
Definition trimStart (str : jsstring) (prefix : ascii) : jsstring :=
  match str with
  | c :: rest => if c =? prefix then rest else str
  | [] => str
  end.

Definition trimEnd (str : jsstring) (suffix : ascii) : jsstring :=
  rev (trimStart (rev str) suffix).

(** [str.split(separator)] *)
Fixpoint split (separator : ascii) (str : jsstring) : list jsstring :=
  match str with
  | [] => [[]]
  | c :: rest =>
      if c =? separator then [] :: split separator rest
      else match split separator rest with
           | part :: parts => (c :: part) :: parts
           | [] => [[c]]
           end
  end.

(** Lines 165-171: the first part with an error decides. *)
Fixpoint first_part_error (parts : list jsstring) : jsstring :=
  match parts with
  | [] => []
  | part :: rest =>
      match validateFilename part true with
      | [] => first_part_error rest
      | partValidationError => partValidationError
      end
  end.

Definition validatePath (path : jsstring) : jsstring :=
  let path := removeTokenFormatting path in
  match validateTokens path with
  | Some (c :: token) => unknown_token_message (c :: token)
  | _ =>
      let path := trimStart path slash in
      let path := trimEnd path slash in
      match path with
      | [] => []
      | _ => first_part_error (split slash path)
      end
  end.

(** What decides whether the regular expression matches at a position.
    [closes s]: a closing brace is met in [s] before any line terminator.
    [name_can_start s]: [s] starts with a character a name may hold and a
    closing brace can be reached after it.  [opens s]: [s] starts with a
    dollar and an opening brace after which a name can start. *)
Fixpoint closes (s : jsstring) : bool :=
  match s with
  | [] => false
  | c :: s' =>
      if c =? rbrace then true
      else if is_line_terminator c then false
      else closes s'
  end.

Definition name_can_start (s : jsstring) : bool :=
  match s with
  | [] => false
  | c :: s' => negb (is_line_terminator c) && closes s'
  end.

Definition opens (s : jsstring) : bool :=
  match s with
  | c1 :: c2 :: s' => (c1 =? dollar) && (c2 =? lbrace) && name_can_start s'
  | _ => false
  end.

(** A string obtained from the pieces of a template by keeping the
    literal characters and putting, for every token, some text that [Q]
    accepts. *)
Inductive rendered (Q : jsstring -> Prop) : list Piece -> jsstring -> Prop :=
| rendered_nil : rendered Q [] []
| rendered_literal c pieces out :
    rendered Q pieces out -> rendered Q (Literal c :: pieces) (c :: out)
| rendered_token name format text pieces out :
    Q text -> rendered Q pieces out ->
    rendered Q (Token name format :: pieces) (text ++ out).

(** A replacement text that cannot build a marker with its surroundings:
    it is not empty, holds no dollar and does not begin with an opening
    brace. *)
Definition clean_replacement (text : jsstring) : Prop :=
  text <> [] /\ ~ In dollar text /\ hd_error text <> Some lbrace.

Definition strip_format (p : Piece) : Piece :=
  match p with
  | Literal c => Literal c
  | Token name _ => Token name None
  end.

Definition is_token (p : Piece) : bool :=
  match p with
  | Token _ _ => true
  | Literal _ => false
  end.

(** The 256 cases of a character. *)
Ltac ascii_cases c :=
  let b0 := fresh "b" in
  let b1 := fresh "b" in
  let b2 := fresh "b" in
  let b3 := fresh "b" in
  let b4 := fresh "b" in
  let b5 := fresh "b" in
  let b6 := fresh "b" in
  let b7 := fresh "b" in
  destruct c as [b0 b1 b2 b3 b4 b5 b6 b7];
  destruct b0, b1, b2, b3, b4, b5, b6, b7.

(** The letters of the names of the registry. *)
Definition is_letter (c : ascii) : bool :=
  let n := nat_of_ascii c in
  ((65 <=? n) && (n <=? 90) || (97 <=? n) && (n <=? 122))%nat.

(** The text [removeTokenFormatting] puts for a token. *)
Definition bare_token (token : jsstring) : jsstring :=
  [dollar; lbrace] ++ token ++ [rbrace].

(** The source text of the optional group. *)
Definition format_text (format : option jsstring) : jsstring :=
  match format with
  | Some f => colon :: f
  | None => []
  end.

(** [SUBSTITUTION_TOKEN_REG_EXP] finds a marker somewhere in [s]. *)
Definition has_marker (s : jsstring) : bool := has_token s.

Close Scope char_scope.

(** ** The other functions of the two files *)

(** *** Vault.ts: isNote *)

(** The argument of [isNote]: [null], a folder, or a file with its
    extension. *)
Inductive NoteCandidate :=
| NoFile
| SomeFolder (path : jsstring)
| SomeFile (path extension : jsstring).

(** Lines 52-59. *)
Definition isNote (file : NoteCandidate) : bool :=
  match file with
  | SomeFile _ extension =>
      let extension := toLowerCase extension in
      jsstring_eqb extension (js "md") || jsstring_eqb extension (js "canvas")
  | _ => false
  end.

(** *** Vault.ts: createFolderSafe *)

(** The adapter as the function sees it: the paths that exist.  [mkdir]
    either creates the folder or throws, and when it throws the folder may
    have been created meanwhile by someone else; [vault.create] either
    creates the file or throws. *)
Inductive MkdirOutcome :=
| MkdirDone
| MkdirThrows (createdMeanwhile : bool).

Record FolderEnv := mkFolderEnv {
  mkdir_outcome : MkdirOutcome;
  create_throws : bool
}.

Inductive IOError :=
| MkdirError
| CreateError.

Definition adapter_exists (disk : list jsstring) (path : jsstring) : bool :=
  existsb (jsstring_eqb path) disk.

Section CreateFolder.
(** [join] of the path library, which is not part of the repository. *)
Variable join : jsstring -> jsstring -> jsstring.

(** Lines 25-50: the error thrown or the result, and the paths that exist
    afterwards.  [addGitKeep] absent is [false]. *)
Definition createFolderSafe (env : FolderEnv) (disk : list jsstring)
  (path : jsstring) (addGitKeep : bool) : (IOError + bool) * list jsstring :=
  let '(result, disk) :=
    if adapter_exists disk path then (inr false, disk)
    else match mkdir_outcome env with
         | MkdirDone => (inr true, path :: disk)
         | MkdirThrows true => (inr true, path :: disk)
         | MkdirThrows false => (inl MkdirError, disk)
         end in
  match result with
  | inl e => (inl e, disk)
  | inr result =>
      if addGitKeep then
        let gitKeepPath := join path (js ".gitkeep") in
        if adapter_exists disk gitKeepPath then (inr result, disk)
        else if create_throws env then (inl CreateError, disk)
        else (inr result, gitKeepPath :: disk)
      else (inr result, disk)
  end.
End CreateFolder.

(** *** Vault.ts: removeFolderSafe, the loop over the children *)

(** The loop of lines 141-163 with the recursive call as a parameter; it is
    the loop inside [removeFolder]. *)
Definition visit_children
  (recur : TAbstractFile -> bool * option TAbstractFile)
  (vault : ChildrenUpdate) (removedNotePath : option jsstring)
  : list TAbstractFile -> bool -> bool * list TAbstractFile :=
  fix visit (children : list TAbstractFile) (canRemove : bool)
    {struct children} : bool * list TAbstractFile :=
    match children with
    | [] => (canRemove, [])
    | child :: rest =>
        match child with
        | TFile p backlinks stuck =>
            if still_used backlinks removedNotePath
            then let '(c, kept) := visit rest false in (c, child :: kept)
            else if stuck
                 then let '(c, kept) := visit rest false in
                      (c, child :: kept)
                 else
                   match vault, rest with
                   | InPlace, passed_over :: rest' =>
                       let '(c, kept) := visit rest' canRemove in
                       (c, passed_over :: kept)
                   | _, _ => visit rest canRemove
                   end
        | TFolder _ _ _ =>
            if canRemove
            then
              match recur child with
              | (ok, Some residue) =>
                  let '(c, kept) := visit rest ok in (c, residue :: kept)
              | (ok, None) =>
                  match vault, rest with
                  | InPlace, passed_over :: rest' =>
                      let '(c, kept) := visit rest' ok in
                      (c, passed_over :: kept)
                  | _, _ => visit rest ok
                  end
              end
            else let '(c, kept) := visit rest false in (c, child :: kept)
        end
    end.

(** The same loop written with the index of the array iterator.  [array] is
    the array the loop reads, [index] the next index to read, and [kept] the
    entries read so far that are still in the folder.  An entry that stays
    is put back at its index as it is after the visit; a deleted entry is
    taken out of [array] when the vault edits that array in place.  What
    the folder holds when the loop ends is [array] in that case, and [kept]
    otherwise.  [steps] bounds the recursion: no more steps are taken than
    the array has entries. *)
Definition entry_replaced (index : nat) (entry : TAbstractFile)
  (array : list TAbstractFile) : list TAbstractFile :=
  firstn index array ++ entry :: skipn (S index) array.

Definition entry_removed (index : nat) (array : list TAbstractFile)
  : list TAbstractFile :=
  firstn index array ++ skipn (S index) array.

Fixpoint for_of_children
  (recur : TAbstractFile -> bool * option TAbstractFile)
  (vault : ChildrenUpdate) (removedNotePath : option jsstring)
  (steps : nat) (array kept : list TAbstractFile) (index : nat)
  (canRemove : bool) {struct steps} : bool * list TAbstractFile :=
  let folder_holds :=
    match vault with
    | InPlace => array
    | NewArray => kept
    end in
  match steps with
  | O => (canRemove, folder_holds)
  | S steps' =>
      match nth_error array index with
      | None => (canRemove, folder_holds)
      | Some child =>
          let stays entry canRemove :=
            for_of_children recur vault removedNotePath steps'
              (entry_replaced index entry array) (kept ++ [entry]) (S index)
              canRemove in
          let deleted canRemove :=
            for_of_children recur vault removedNotePath steps'
              match vault with
              | InPlace => entry_removed index array
              | NewArray => array
              end
              kept (S index) canRemove in
          match child with
          | TFile p backlinks stuck =>
              if still_used backlinks removedNotePath then stays child false
              else if stuck then stays child false
              else deleted canRemove
          | TFolder _ _ _ =>
              if canRemove
              then
                match recur child with
                | (ok, Some residue) => stays residue ok
                | (ok, None) => deleted ok
                end
              else stays child false
          end
      end
  end.

(** The paths of the files of a tree that other notes still use. *)
Fixpoint used_paths (removedNotePath : option jsstring)
  (node : TAbstractFile) : list jsstring :=
  match node with
  | TFile p backlinks _ =>
      if still_used backlinks removedNotePath then [p] else []
  | TFolder _ _ children =>
      (fix all (l : list TAbstractFile) : list jsstring :=
         match l with
         | [] => []
         | n :: l' => used_paths removedNotePath n ++ all l'
         end) children
  end.

(** A tree in which no file is used any more and no deletion throws. *)
Fixpoint removable (removedNotePath : option jsstring)
  (node : TAbstractFile) : bool :=
  match node with
  | TFile _ backlinks stuck =>
      negb (still_used backlinks removedNotePath) && negb stuck
  | TFolder _ stuck children =>
      negb stuck
      && (fix all (l : list TAbstractFile) : bool :=
            match l with
            | [] => true
            | n :: l' => removable removedNotePath n && all l'
            end) children
  end.

Definition residue_list (residue : option TAbstractFile)
  : list TAbstractFile :=
  match residue with
  | Some node => [node]
  | None => []
  end.

(** *** Vault.ts: removeEmptyFolderHierarchy *)

(** A folder on the way up: its path, whether deleting it throws, and its
    children other than the folder the walk comes from.  The vault keeps
    [children] current: a deleted folder is no longer among the children of
    its parent. *)
Record Ancestor := mkAncestor {
  ancestor_path : jsstring;
  ancestor_stuck : bool;
  ancestor_others : list TAbstractFile
}.

(** Lines 179-187, from the folder [path] with its [children] and the
    folders above it: the paths of the folders deleted, in order. *)
Fixpoint climb (vault : ChildrenUpdate) (parents : list Ancestor)
  (path : jsstring) (stuck : bool) (children : list TAbstractFile)
  : list jsstring :=
  match children with
  | _ :: _ => []
  | [] =>
      let '(removed, _) :=
        removeFolderSafe vault (Some (TFolder path stuck [])) None in
      let here := if removed then [path] else [] in
      match parents with
      | [] => here
      | parent :: up =>
          here
            ++ climb vault up (ancestor_path parent) (ancestor_stuck parent)
                 (if removed then ancestor_others parent
                  else TFolder path stuck [] :: ancestor_others parent)
      end
  end.

Definition removeEmptyFolderHierarchy (vault : ChildrenUpdate)
  (folder : option Ancestor) (parents : list Ancestor) : list jsstring :=
  match folder with
  | None => []
  | Some f =>
      climb vault parents (ancestor_path f) (ancestor_stuck f)
        (ancestor_others f)
  end.

(** *** The substitutions module: source text of the pieces *)

(** The text of a match, and the text of a list of pieces. *)
Definition token_text (name : jsstring) (format : option jsstring)
  : jsstring :=
  [dollar; lbrace] ++ name ++ format_text format ++ [rbrace].

Definition source_text (pieces : list Piece) : jsstring :=
  flat_map (fun p => match p with
                     | Literal c => [c]
                     | Token name format => token_text name format
                     end) pieces.

Definition no_line_terminator (s : jsstring) : Prop :=
  forallb (fun c => negb (is_line_terminator c)) s = true.

(** What the lazy [(.+?)] followed by a closing brace lets a group be: one
    character at least, no line terminator, and no closing brace after the
    first character. *)
Definition shortest_group (s : jsstring) : Prop :=
  match s with
  | [] => False
  | first :: others =>
      no_line_terminator (first :: others) /\ ~ In rbrace others
  end.

(** What the regular expression lets a piece be. *)
Definition well_formed_piece (p : Piece) : Prop :=
  match p with
  | Literal _ => True
  | Token name format =>
      shortest_group name
      /\ match format with
         | Some f => shortest_group f
         | None => True
         end
  end.

(** The keys of the registry as the static block leaves them. *)
Definition registered_names : list jsstring :=
  [ js "date"; js "filename"; js "filepath"; js "foldername";
    js "folderpath"; js "originalcopiedfileextension";
    js "originalcopiedfilename"; js "prompt"; js "randomdigit";
    js "randomdigitorletter"; js "randomletter"; js "uuid" ].

(** The traces of [processWithRetry]: every attempt reads, and when it
    reaches [vault.process] it either finds the content it read or writes
    back unchanged the content it finds. *)
Inductive attempts_trace : list StoreEvent -> Prop :=
| trace_done : attempts_trace []
| trace_abandoned snapshot rest :
    attempts_trace rest ->
    attempts_trace (AdapterRead snapshot :: rest)
| trace_committed snapshot computed rest :
    attempts_trace rest ->
    attempts_trace
      (AdapterRead snapshot :: VaultProcess snapshot computed :: rest)
| trace_rejected snapshot found rest :
    found <> snapshot ->
    attempts_trace rest ->
    attempts_trace
      (AdapterRead snapshot :: VaultProcess found found :: rest).

(** A store event that leaves the content of the document as it is. *)
Definition leaves_content (e : StoreEvent) : Prop :=
  match e with
  | AdapterRead _ => True
  | VaultProcess before after => before = after
  end.

(** The longest prefix of a list whose entries all pass a test. *)
Fixpoint take_while {A} (test : A -> bool) (l : list A) : list A :=
  match l with
  | [] => []
  | x :: rest => if test x then x :: take_while test rest else []
  end.

(** A folder on the way up that holds nothing else and can be deleted. *)
Definition empty_and_deletable (a : Ancestor) : bool :=
  match ancestor_others a with
  | [] => negb (ancestor_stuck a)
  | _ :: _ => false
  end.

(** The characters that [removeTokenFormatting] takes away: the colon and
    the format of every match that has one. *)
Fixpoint format_length (pieces : list Piece) : nat :=
  match pieces with
  | [] => O
  | Literal _ :: rest => format_length rest
  | Token _ None :: rest => format_length rest
  | Token _ (Some f) :: rest => S (List.length f) + format_length rest
  end.

(** Two sorted lists that differ by one copy of [c]: the first holds, after
    the entries that start before [c] and [k] copies of [c], one more copy
    of [c]. *)
Definition one_more_copy (c : FileChange) (k : nat)
  (longer shorter : list FileChange) : Prop :=
  exists before after,
    longer = before ++ repeat c k ++ c :: after
    /\ shorter = before ++ repeat c k ++ after
    /\ Forall (fun x => startIndex x < startIndex c) before
    /\ Forall (fun x => startIndex c <= startIndex x) after.

(** Two lists that differ by one of two copies of [c] that stand side by
    side. *)
Definition adjacent_copy (c : FileChange)
  (longer shorter : list FileChange) : Prop :=
  exists before after,
    longer = before ++ c :: c :: after /\ shorter = before ++ c :: after.

(** * Properties *)

(** ** Strings *)

Lemma jsstring_eqb_eq (a b : jsstring) : jsstring_eqb a b = true <-> a = b.
Proof.
  unfold jsstring_eqb. destruct (list_eq_dec ascii_dec a b); split;
    congruence.
Qed.

Lemma jsstring_eqb_refl (a : jsstring) : jsstring_eqb a a = true.
Proof. apply jsstring_eqb_eq. reflexivity. Qed.

Lemma deepEqual_eq (a b : FileChange) : deepEqual a b = true <-> a = b.
Proof.
  unfold deepEqual. rewrite !andb_true_iff, !Z.eqb_eq, !jsstring_eqb_eq.
  destruct a, b; simpl. split.
  - intros [[[-> ->] ->] ->]. reflexivity.
  - intros H. injection H as -> -> -> ->. auto.
Qed.

Lemma deepEqual_refl (a : FileChange) : deepEqual a a = true.
Proof. apply deepEqual_eq. reflexivity. Qed.

Lemma slice_from_start (s : jsstring) : slice_from s 0 = s.
Proof.
  unfold slice_from, slice, clamp_index, jslen.
  change (0 <? 0) with false. cbv iota.
  destruct (Z.of_nat (List.length s) <? 0) eqn:E; [apply Z.ltb_lt in E; lia|].
  rewrite Z.min_id, Z.min_l by lia.
  rewrite Z.sub_0_r, Nat2Z.id. apply firstn_all.
Qed.

(** ** The merge step *)

Section Merge.
Variable content : jsstring.

Lemma fold_merge_after (changes : list FileChange) :
  forall (acc : jsstring) (previous : FileChange),
    (let '(merged, lastIndex) :=
       fold_left (merge_step content) changes (acc, endIndex previous) in
     merged ++ slice_from content lastIndex)
    = acc ++ merge_after content previous changes.
Proof.
  induction changes as [|next rest IH]; intros acc previous; simpl.
  - reflexivity.
  - rewrite (IH _ next). rewrite <- !app_assoc. reflexivity.
Qed.

Lemma merge_changes_described (changes : list FileChange) :
  merge_changes content changes = merge_described content changes.
Proof.
  unfold merge_changes, merge_described.
  destruct changes as [|first rest]; simpl.
  - reflexivity.
  - rewrite (fold_merge_after rest _ first), <- app_assoc. reflexivity.
Qed.
End Merge.

(** C1: the example of the specification merges to ABXYEFZZIJ, through the
    whole callback and through the merge loop alone, and for every content
    and every change list the merge loop yields the text before the first
    change's start, then each replacement text followed by the snapshot text
    up to the start of the next change, the last replacement being followed
    by the remainder after its end; with no change the content is returned
    as it is. *)
Theorem merge_is_ordered_concatenation :
  applyFileChanges_callback (js "ABCDEFGHIJ")
    [ mkFileChange 2 4 (js "CD") (js "XY");
      mkFileChange 6 8 (js "GH") (js "ZZ") ]
  = ([], Some (js "ABXYEFZZIJ"))
  /\ merge_changes (js "ABCDEFGHIJ")
       [ mkFileChange 2 4 (js "CD") (js "XY");
         mkFileChange 6 8 (js "GH") (js "ZZ") ]
     = js "ABXYEFZZIJ"
  /\ (forall content changes,
         merge_changes content changes = merge_described content changes)
  /\ (forall content, merge_changes content [] = content).
Proof.
  split; [vm_compute; reflexivity|].
  split; [vm_compute; reflexivity|].
  split; [intros; apply merge_changes_described|].
  intros content. apply slice_from_start.
Qed.

(** ** Validation of the change list *)

Lemma insert_change_Forall (P : FileChange -> Prop) a l :
  P a -> Forall P l -> Forall P (insert_change a l).
Proof.
  intros Ha Hl. induction Hl as [|b l Hb Hl IH]; simpl.
  - constructor; auto.
  - destruct (startIndex a - startIndex b <=? 0); repeat constructor; auto.
Qed.

Lemma insert_change_sorted a l :
  StronglySorted starts_in_order l ->
  StronglySorted starts_in_order (insert_change a l).
Proof.
  induction 1 as [|b l Hs IH Hb]; simpl.
  - repeat constructor.
  - destruct (startIndex a - startIndex b <=? 0) eqn:E.
    + apply Z.leb_le in E. constructor; [constructor; assumption|].
      constructor; [unfold starts_in_order; lia|].
      eapply Forall_impl; [|exact Hb].
      unfold starts_in_order. intros c Hc. lia.
    + apply Z.leb_gt in E. constructor; [exact IH|].
      apply insert_change_Forall; [unfold starts_in_order; lia|exact Hb].
Qed.

Lemma sort_changes_sorted l : StronglySorted starts_in_order (sort_changes l).
Proof.
  induction l as [|a l IH]; simpl; [constructor|].
  apply insert_change_sorted, IH.
Qed.

Lemma drop_repeated_unfold (changes : list FileChange) :
  drop_repeated changes
  = match changes with
    | [] => []
    | first :: rest => first :: drop_after first rest
    end.
Proof.
  unfold drop_repeated. destruct changes as [|first rest]; [reflexivity|].
  simpl. f_equal.
  set (whole := first :: rest).
  assert (G : forall l pre previous,
             whole = pre ++ previous :: l ->
             filter_indexed
               (fun change index =>
                  match index with
                  | O => true
                  | S before =>
                      match nth_error whole before with
                      | Some previousChange =>
                          negb (deepEqual change previousChange)
                      | None => true
                      end
                  end) (S (List.length pre)) l
             = drop_after previous l).
  { induction l as [|x l IH]; intros pre previous Hw; simpl; [reflexivity|].
    rewrite Hw at 1. rewrite nth_error_app2 by lia.
    rewrite Nat.sub_diag. simpl.
    assert (Hn : whole = (pre ++ [previous]) ++ x :: l)
      by (rewrite <- app_assoc; exact Hw).
    specialize (IH _ _ Hn). rewrite length_app in IH. simpl in IH.
    rewrite Nat.add_1_r in IH. rewrite IH.
    destruct (deepEqual x previous); reflexivity. }
  exact (G rest [] first eq_refl).
Qed.

Lemma find_overlap_unfold (changes : list FileChange) :
  find_overlap changes
  = match changes with
    | [] => None
    | first :: rest => overlap_after first rest
    end.
Proof.
  unfold find_overlap. destruct changes as [|first rest]; [reflexivity|].
  replace (List.length (first :: rest) - 1)%nat with (List.length rest)
    by (simpl; lia).
  remember (first :: rest) as whole eqn:Hwhole.
  assert (G : forall l pre previous,
             whole = pre ++ previous :: l ->
             find_overlap_loop whole (S (List.length pre)) (List.length l)
             = overlap_after previous l).
  { induction l as [|x l IH]; intros pre previous Hw;
      cbn [find_overlap_loop overlap_after List.length]; [reflexivity|].
    replace (S (List.length pre) - 1)%nat with (List.length pre) by lia.
    assert (Hn : whole = (pre ++ [previous]) ++ x :: l)
      by (rewrite <- app_assoc; exact Hw).
    assert (E1 : nth_error whole (S (List.length pre)) = Some x).
    { rewrite Hn, nth_error_app2; rewrite length_app; cbn [List.length];
        [|lia].
      replace (S (List.length pre) - (List.length pre + 1))%nat with O by lia.
      reflexivity. }
    assert (E2 : nth_error whole (List.length pre) = Some previous).
    { rewrite Hw, nth_error_app2 by lia. rewrite Nat.sub_diag. reflexivity. }
    rewrite E1, E2.
    specialize (IH _ _ Hn). rewrite length_app in IH. simpl in IH.
    rewrite Nat.add_1_r in IH. rewrite IH. reflexivity. }
  exact (G rest [] first Hwhole).
Qed.

Lemma drop_after_Forall (P : FileChange -> Prop) l :
  Forall P l -> forall previous, Forall P (drop_after previous l).
Proof.
  induction 1 as [|x l Hx Hl IH]; intros previous; simpl; [constructor|].
  destruct (deepEqual x previous); [apply IH|constructor; [exact Hx|apply IH]].
Qed.

Lemma drop_after_StronglySorted (R : FileChange -> FileChange -> Prop) l :
  StronglySorted R l -> forall previous, StronglySorted R (drop_after previous l).
Proof.
  induction 1 as [|x l Hs IH Hx]; intros previous; simpl; [constructor|].
  destruct (deepEqual x previous); [apply IH|].
  constructor; [apply IH|apply drop_after_Forall, Hx].
Qed.

Lemma drop_after_no_repeat l :
  forall previous,
    Sorted (fun a b => a <> b) (drop_after previous l)
    /\ HdRel (fun a b => a <> b) previous (drop_after previous l).
Proof.
  induction l as [|x l IH]; intros previous; simpl.
  - split; constructor.
  - destruct (IH x) as [Hs Hh].
    destruct (deepEqual x previous) eqn:E.
    + apply deepEqual_eq in E. subst previous. split; assumption.
    + split; constructor; auto.
      intros ->. rewrite deepEqual_refl in E. discriminate.
Qed.

Lemma overlap_after_none l :
  forall previous,
    overlap_after previous l = None ->
    Sorted ends_before (previous :: l).
Proof.
  induction l as [|x l IH]; intros previous H; simpl in H.
  - repeat constructor.
  - destruct (endIndex previous >? startIndex x) eqn:E; [discriminate|].
    constructor; [apply IH, H|]. constructor.
    unfold ends_before. rewrite Z.gtb_ltb in E. apply Z.ltb_ge in E. exact E.
Qed.

Lemma adjacent_to_pairwise l :
  StronglySorted starts_in_order l ->
  Sorted ends_before l ->
  StronglySorted ends_before l.
Proof.
  induction 1 as [|a l Hs IH Ha]; intros Hadj; [constructor|].
  inversion Hadj as [|a' l' Hadj' Hhd]; subst.
  constructor; [apply IH, Hadj'|].
  destruct l as [|b l]; [constructor|].
  inversion Hhd as [|b' l'' Hab]; subst.
  inversion Hs as [|b' l'' Hs' Hb]; subst.
  constructor; [exact Hab|].
  eapply Forall_impl; [|exact Hb].
  unfold ends_before, starts_in_order in *. intros c Hc. lia.
Qed.

Lemma filter_StronglySorted {A} (R : A -> A -> Prop) (p : A -> bool) l :
  StronglySorted R l -> StronglySorted R (filter p l).
Proof.
  induction 1 as [|a l Hs IH Ha]; simpl; [constructor|].
  destruct (p a); [|exact IH].
  constructor; [exact IH|].
  rewrite Forall_forall in *. intros x Hx. apply filter_In in Hx.
  apply Ha, Hx.
Qed.

Lemma replaced_ranges_once l :
  StronglySorted ends_before l ->
  NoDup (filter (fun c => startIndex c <? endIndex c) l).
Proof.
  intros H.
  apply (filter_StronglySorted _ (fun c => startIndex c <? endIndex c)) in H.
  assert (Hall : Forall (fun c => startIndex c < endIndex c)
                   (filter (fun c => startIndex c <? endIndex c) l)).
  { rewrite Forall_forall. intros x Hx. apply filter_In in Hx.
    apply Z.ltb_lt, Hx. }
  induction H as [|a l' Hs IH Ha]; [constructor|].
  inversion Hall as [|a' l'' Hlt Hall']; subst.
  constructor; [|apply IH, Hall'].
  intros Hin. rewrite Forall_forall in Ha. specialize (Ha _ Hin).
  unfold ends_before in Ha. lia.
Qed.

Lemma validate_changes_inr content changes l :
  validate_changes content changes = inr l ->
  find_mismatch content changes = None
  /\ l = drop_repeated (sort_changes changes)
  /\ find_overlap l = None.
Proof.
  unfold validate_changes.
  destruct (find_mismatch content changes); [discriminate|].
  destruct (find_overlap (drop_repeated (sort_changes changes))) eqn:E;
    [discriminate|].
  intros H. injection H as <-. auto.
Qed.

Lemma drop_after_pair c after :
  forall before previous,
    drop_after previous (before ++ c :: c :: after)
    = drop_after previous (before ++ c :: after).
Proof.
  induction before as [|a before IH]; intros previous; simpl.
  - rewrite deepEqual_refl. reflexivity.
  - rewrite IH. reflexivity.
Qed.

Lemma drop_repeated_pair c longer shorter :
  adjacent_copy c longer shorter ->
  drop_repeated longer = drop_repeated shorter.
Proof.
  intros (before & after & -> & ->). rewrite !drop_repeated_unfold.
  destruct before as [|a before]; simpl.
  - rewrite deepEqual_refl. reflexivity.
  - rewrite drop_after_pair. reflexivity.
Qed.

Lemma insert_change_first x l :
  match l with
  | [] => True
  | h :: _ => startIndex x <= startIndex h
  end ->
  insert_change x l = x :: l.
Proof.
  destruct l as [|h l]; [reflexivity|]. simpl. intros H.
  destruct (startIndex x - startIndex h <=? 0) eqn:E; [reflexivity|].
  apply Z.leb_gt in E. lia.
Qed.

Lemma insert_change_past x h l :
  startIndex h < startIndex x ->
  insert_change x (h :: l) = h :: insert_change x l.
Proof.
  intros H. simpl.
  destruct (startIndex x - startIndex h <=? 0) eqn:E; [|reflexivity].
  apply Z.leb_le in E. lia.
Qed.

Lemma insert_change_past_copies x c l :
  startIndex c < startIndex x ->
  forall k, insert_change x (repeat c k ++ l) = repeat c k ++ insert_change x l.
Proof.
  intros H. induction k as [|k IH]; [reflexivity|].
  cbn [repeat app]. rewrite insert_change_past by exact H. rewrite IH.
  reflexivity.
Qed.

Lemma adjacent_copy_insert x c longer shorter :
  adjacent_copy c longer shorter ->
  adjacent_copy c (insert_change x longer) (insert_change x shorter).
Proof.
  intros (before & after & -> & ->).
  induction before as [|a before IH].
  - simpl. destruct (startIndex x - startIndex c <=? 0) eqn:E.
    + exists [x], after. split; reflexivity.
    + exists [], (insert_change x after). split; reflexivity.
  - simpl. destruct (startIndex x - startIndex a <=? 0).
    + exists (x :: a :: before), after. split; reflexivity.
    + destruct IH as (before' & after' & E1 & E2).
      exists (a :: before'), after'. simpl. rewrite E1, E2.
      split; reflexivity.
Qed.

Lemma one_more_copy_insert x c :
  (startIndex x = startIndex c -> x = c) ->
  forall k longer shorter,
    one_more_copy c k longer shorter ->
    exists k',
      one_more_copy c k' (insert_change x longer) (insert_change x shorter)
      /\ (x = c -> k' = S k).
Proof.
  intros Hx k longer shorter (before & after & -> & -> & Hb & Ha).
  induction Hb as [|a before Hlt Hb IH].
  - cbn [app].
    destruct (Z.lt_trichotomy (startIndex x) (startIndex c)) as [H|[H|H]].
    + exists k. split; [|intros ->; lia].
      exists [x], after. rewrite !insert_change_first.
      * repeat split; [repeat constructor; exact H|exact Ha].
      * destruct k; simpl; [|lia].
        destruct Ha as [|h after Hh Ha]; [exact I|lia].
      * destruct k; simpl; lia.
    + specialize (Hx H). subst x. exists (S k). split; [|reflexivity].
      exists [], after. rewrite !insert_change_first.
      * repeat split; [constructor|exact Ha].
      * destruct k; simpl; [|lia].
        destruct Ha as [|h after Hh Ha]; [exact I|lia].
      * destruct k; simpl; lia.
    + exists k. split; [|intros ->; lia].
      exists [], (insert_change x after).
      rewrite !insert_change_past_copies by exact H.
      rewrite insert_change_past by exact H.
      repeat split; [constructor|].
      apply insert_change_Forall; [lia|exact Ha].
  - destruct IH as (k' & (before' & after' & E1 & E2 & Hb' & Ha') & Hk).
    cbn [app insert_change].
    destruct (startIndex x - startIndex a <=? 0) eqn:E.
    + apply Z.leb_le in E. exists k. split.
      * exists (x :: a :: before), after.
        repeat split; [|exact Ha].
        constructor; [lia|]. constructor; assumption.
      * intros ->. lia.
    + exists k'. split; [|exact Hk].
      exists (a :: before'), after'. cbn [app]. rewrite E1, E2.
      repeat split; [|exact Ha']. constructor; assumption.
Qed.

Lemma insert_change_splits c l :
  StronglySorted starts_in_order l ->
  one_more_copy c O (insert_change c l) l.
Proof.
  induction 1 as [|a l Hs IH Ha].
  - exists [], []. repeat split; constructor.
  - simpl. destruct (startIndex c - startIndex a <=? 0) eqn:E.
    + apply Z.leb_le in E. exists [], (a :: l).
      repeat split; [constructor|]. constructor; [lia|].
      eapply Forall_impl; [|exact Ha]. unfold starts_in_order.
      intros b Hb. lia.
    + apply Z.leb_gt in E.
      destruct IH as (before & after & E1 & E2 & Hb & Hafter).
      exists (a :: before), after. cbn [app repeat] in *.
      rewrite E1. rewrite E2 at 1.
      repeat split; [|exact Hafter]. constructor; [lia|exact Hb].
Qed.

Lemma one_more_copy_adjacent c k longer shorter :
  one_more_copy c (S k) longer shorter -> adjacent_copy c longer shorter.
Proof.
  intros (before & after & -> & -> & _).
  exists (before ++ repeat c k), after.
  rewrite <- !app_assoc. cbn [repeat].
  replace (c :: repeat c k) with (repeat c k ++ [c])
    by (symmetry; apply repeat_cons).
  rewrite <- !app_assoc. split; reflexivity.
Qed.

Lemma one_more_copy_sort c :
  forall between k later later',
    Forall (fun x => startIndex x = startIndex c -> x = c) between ->
    one_more_copy c k (sort_changes later) (sort_changes later') ->
    exists k',
      one_more_copy c k' (sort_changes (between ++ later))
        (sort_changes (between ++ later')).
Proof.
  induction between as [|x between IH]; intros k later later' Hall H.
  - exists k. exact H.
  - inversion Hall as [|x' l Hx Hrest]; subst.
    destruct (IH k later later' Hrest H) as [k1 H1].
    destruct (one_more_copy_insert x c Hx _ _ _ H1) as (k' & H' & _).
    exists k'. exact H'.
Qed.

Lemma adjacent_copy_sort c :
  forall earlier later later',
    adjacent_copy c (sort_changes later) (sort_changes later') ->
    adjacent_copy c (sort_changes (earlier ++ later))
      (sort_changes (earlier ++ later')).
Proof.
  induction earlier as [|x earlier IH]; intros later later' H; [exact H|].
  simpl. apply adjacent_copy_insert, IH, H.
Qed.

Lemma find_mismatch_app content l1 l2 :
  find_mismatch content (l1 ++ l2)
  = match find_mismatch content l1 with
    | Some w => Some w
    | None => find_mismatch content l2
    end.
Proof.
  induction l1 as [|a l1 IH]; simpl; [reflexivity|].
  destruct (jsstring_eqb _ _); [exact IH|reflexivity].
Qed.

(** A change given again is dropped when the stable sort brings the two
    copies together. *)
Lemma repeated_change_collapses content earlier c between later :
  Forall (fun x => startIndex x = startIndex c -> x = c) between ->
  validate_changes content (earlier ++ c :: between ++ c :: later)
  = validate_changes content (earlier ++ c :: between ++ later).
Proof.
  intros Hall. unfold validate_changes.
  assert (Hm : find_mismatch content (earlier ++ c :: between ++ c :: later)
               = find_mismatch content (earlier ++ c :: between ++ later)).
  { rewrite !find_mismatch_app. destruct (find_mismatch content earlier);
      [reflexivity|].
    cbn [find_mismatch].
    destruct (jsstring_eqb (slice content (startIndex c) (endIndex c))
                (oldContent c)) eqn:E; [|reflexivity].
    rewrite !find_mismatch_app. destruct (find_mismatch content between);
      [reflexivity|].
    cbn [find_mismatch]. rewrite E. reflexivity. }
  rewrite Hm.
  assert (Hd : drop_repeated
                 (sort_changes (earlier ++ c :: between ++ c :: later))
               = drop_repeated
                   (sort_changes (earlier ++ c :: between ++ later))).
  { apply (drop_repeated_pair c). apply adjacent_copy_sort.
    destruct (one_more_copy_sort c between O (c :: later) later Hall
                (insert_change_splits c _ (sort_changes_sorted later)))
      as [k Hk].
    destruct (one_more_copy_insert c c (fun _ => eq_refl) _ _ _ Hk)
      as (k' & Hk' & Hs).
    rewrite (Hs eq_refl) in Hk'.
    apply (one_more_copy_adjacent c k). exact Hk'. }
  rewrite Hd. reflexivity.
Qed.

Lemma no_repeat_NoDup l :
  StronglySorted starts_in_order l ->
  Sorted (fun a b => a <> b) l ->
  (forall a b, In a l -> In b l -> startIndex a = startIndex b -> a = b) ->
  NoDup l.
Proof.
  induction 1 as [|a l Hs IH Ha]; intros Hadj Hsame; [constructor|].
  inversion Hadj as [|a' l' Hadj' Hhd]; subst.
  constructor.
  - intros Hin. destruct l as [|b l]; [destruct Hin|].
    inversion Hhd as [|b' l'' Hab]; subst.
    destruct Hin as [E|Hin]; [congruence|].
    inversion Hs as [|b' l'' Hs' Hb]; subst.
    rewrite Forall_forall in Ha, Hb.
    pose proof (Ha b (or_introl eq_refl)) as L1.
    pose proof (Hb a Hin) as L2. unfold starts_in_order in L1, L2.
    apply Hab. apply Hsame; [left; reflexivity|right; left; reflexivity|lia].
  - apply IH; [exact Hadj'|].
    intros x y Hx Hy. apply Hsame; right; assumption.
Qed.

Lemma drop_after_incl l :
  forall previous, incl (drop_after previous l) l.
Proof.
  induction l as [|x l IH]; intros previous; simpl; [apply incl_refl|].
  destruct (deepEqual x previous).
  - apply incl_tl, IH.
  - apply incl_cons; [left; reflexivity|apply incl_tl, IH].
Qed.

Lemma drop_repeated_incl l : incl (drop_repeated l) l.
Proof.
  rewrite drop_repeated_unfold. destruct l as [|a l]; [apply incl_refl|].
  apply incl_cons; [left; reflexivity|apply incl_tl, drop_after_incl].
Qed.

Lemma insert_change_In x a l : In x (insert_change a l) -> x = a \/ In x l.
Proof.
  induction l as [|b l IH]; simpl.
  - intros [E|[]]. left. congruence.
  - destruct (startIndex a - startIndex b <=? 0); simpl.
    + intros [E|H]; [left; congruence|right; exact H].
    + intros [E|H]; [right; left; exact E|].
      destruct (IH H) as [E|Hin]; [left; exact E|right; right; exact Hin].
Qed.

Lemma sort_changes_In x l : In x (sort_changes l) -> In x l.
Proof.
  induction l as [|a l IH]; simpl; [auto|].
  intros H. apply insert_change_In in H. destruct H as [E|H]; [left|right].
  - congruence.
  - apply IH, H.
Qed.

(** C2 (as the code has it): a change list that reaches the merge step is
    sorted ascending by startIndex, no entry is deeply equal to the entry
    just before it, no two entries overlap (every earlier endIndex is at
    most every later startIndex), and an entry that replaces a non-empty
    range occurs once; the list holds no exact duplicate at all when no two
    different changes of the batch start at the same index.  A change given
    again collapses to its first occurrence, and is not reported as an
    overlap, whenever no different change with the same startIndex stands
    between the two copies in the batch, wherever they stand: this is when
    the stable sort brings the copies together. *)
Theorem surviving_changes_invariant :
  forall content changes,
    (forall l,
        validate_changes content changes = inr l ->
        StronglySorted starts_in_order l
        /\ Sorted (fun a b => a <> b) l
        /\ StronglySorted ends_before l
        /\ NoDup (filter (fun c => startIndex c <? endIndex c) l)
        /\ ((forall a b,
                In a changes -> In b changes ->
                startIndex a = startIndex b -> a = b) ->
            NoDup l))
    /\ (forall earlier c between later,
           changes = earlier ++ c :: between ++ c :: later ->
           Forall (fun x => startIndex x = startIndex c -> x = c) between ->
           validate_changes content changes
           = validate_changes content (earlier ++ c :: between ++ later)).
Proof.
  intros content changes. split.
  - intros l H. apply validate_changes_inr in H. destruct H as (_ & Hl & Ho).
    assert (Hsorted : StronglySorted starts_in_order l).
    { subst l. rewrite drop_repeated_unfold.
      pose proof (sort_changes_sorted changes) as Hs.
      destruct (sort_changes changes) as [|first rest]; [constructor|].
      inversion Hs as [|a l' Hs' Ha]; subst.
      constructor; [apply drop_after_StronglySorted, Hs'|].
      apply drop_after_Forall, Ha. }
    assert (Hpair : StronglySorted ends_before l).
    { apply adjacent_to_pairwise; [exact Hsorted|].
      rewrite find_overlap_unfold in Ho.
      destruct l as [|first rest]; [constructor|].
      apply overlap_after_none, Ho. }
    assert (Hadj : Sorted (fun a b => a <> b) l).
    { subst l. rewrite drop_repeated_unfold.
      destruct (sort_changes changes) as [|first rest]; [constructor|].
      destruct (drop_after_no_repeat rest first) as [Hs Hh].
      constructor; assumption. }
    repeat split; try assumption.
    + apply replaced_ranges_once, Hpair.
    + intros Hsame. apply no_repeat_NoDup; try assumption.
      intros a b Ha Hb. apply Hsame; apply sort_changes_In;
        apply (drop_repeated_incl (sort_changes changes)); subst l;
        assumption.
  - intros earlier c between later -> Hall.
    apply repeated_change_collapses, Hall.
Qed.

Lemma surviving_changes_invariant_witness :
  let cd := mkFileChange 2 4 (js "CD") (js "XY") in
  let gh := mkFileChange 6 8 (js "GH") (js "ZZ") in
  let at3 := mkFileChange 3 3 [] (js "!") in
  validate_changes (js "ABCDEFGHIJ") [gh; cd; gh] = inr [cd; gh]
  /\ NoDup [cd; gh]
  /\ validate_changes (js "ABCDEFGHIJ") [cd; gh; cd; gh]
     = validate_changes (js "ABCDEFGHIJ") [cd; gh; cd]
  /\ validate_changes (js "ABCDEFGHIJ") [at3; at3; at3]
     = validate_changes (js "ABCDEFGHIJ") [at3; at3].
Proof.
  intros cd gh at3.
  assert (H : validate_changes (js "ABCDEFGHIJ") [gh; cd; gh] = inr [cd; gh])
    by (vm_compute; reflexivity).
  split; [exact H|]. split; [|split].
  - apply (proj1 (surviving_changes_invariant (js "ABCDEFGHIJ") [gh; cd; gh])
             _ H).
    intros a b [<-|[<-|[<-|[]]]] [<-|[<-|[<-|[]]]] E;
      try reflexivity; vm_compute in E; discriminate E.
  - apply (proj2 (surviving_changes_invariant (js "ABCDEFGHIJ")
                    [cd; gh; cd; gh]) [cd] gh [cd] [] eq_refl).
    repeat constructor. intros E. vm_compute in E. discriminate E.
  - apply (proj2 (surviving_changes_invariant (js "ABCDEFGHIJ")
                    [at3; at3; at3]) [] at3 [at3] [] eq_refl).
    repeat constructor.
Defined.

(** C2 as stated fails: three insertions at one offset, the first given
    again after a different one, all reach the merge step, and the list
    holds an exact duplicate. *)
Lemma surviving_changes_may_repeat :
  validate_changes (js "ABCDEF")
    [ mkFileChange 3 3 [] (js "X");
      mkFileChange 3 3 [] (js "Y");
      mkFileChange 3 3 [] (js "X") ]
  = inr [ mkFileChange 3 3 [] (js "X");
          mkFileChange 3 3 [] (js "Y");
          mkFileChange 3 3 [] (js "X") ]
  /\ ~ NoDup [ mkFileChange 3 3 [] (js "X");
               mkFileChange 3 3 [] (js "Y");
               mkFileChange 3 3 [] (js "X") ].
Proof.
  split; [vm_compute; reflexivity|].
  intros H. inversion H as [|a l Hin _]; subst.
  apply Hin. right. left. reflexivity.
Qed.

(** ** Conflicts and the retry cycle *)

Lemma find_mismatch_some content changes :
  mismatched content changes -> find_mismatch content changes <> None.
Proof.
  intros (c & Hin & Hne). induction changes as [|x l IH]; [destruct Hin|].
  simpl. destruct (jsstring_eqb _ _) eqn:E; [|discriminate].
  destruct Hin as [->|Hin]; [|apply IH, Hin].
  apply jsstring_eqb_eq in E. contradiction.
Qed.

Lemma StronglySorted_app_r {A} (R : A -> A -> Prop) l1 l2 :
  StronglySorted R (l1 ++ l2) -> StronglySorted R l2.
Proof.
  induction l1 as [|a l1 IH]; simpl; [auto|].
  intros H. inversion H; subst. auto.
Qed.

Lemma drop_repeated_sorted changes :
  StronglySorted starts_in_order (drop_repeated (sort_changes changes)).
Proof.
  rewrite drop_repeated_unfold.
  pose proof (sort_changes_sorted changes) as Hs.
  destruct (sort_changes changes) as [|first rest]; [constructor|].
  inversion Hs as [|a l' Hs' Ha]; subst.
  constructor; [apply drop_after_StronglySorted, Hs'|].
  apply drop_after_Forall, Ha.
Qed.

Lemma find_overlap_none_pairwise changes :
  find_overlap (drop_repeated (sort_changes changes)) = None ->
  StronglySorted ends_before (drop_repeated (sort_changes changes)).
Proof.
  intros Ho. apply adjacent_to_pairwise; [apply drop_repeated_sorted|].
  rewrite find_overlap_unfold in Ho.
  destruct (drop_repeated (sort_changes changes)) as [|first rest];
    [constructor|].
  apply overlap_after_none, Ho.
Qed.

Lemma find_overlap_some changes :
  overlapping changes ->
  find_overlap (drop_repeated (sort_changes changes)) <> None.
Proof.
  intros (l1 & a & l2 & b & l3 & Hl & Hgt) Ho.
  apply find_overlap_none_pairwise in Ho. rewrite Hl in Ho.
  apply StronglySorted_app_r in Ho. inversion Ho as [|a' l' _ Hall]; subst.
  rewrite Forall_forall in Hall.
  assert (Hb : ends_before a b) by (apply Hall, in_elt).
  unfold ends_before in Hb. lia.
Qed.

Lemma conflict_answers_null content changes :
  mismatched content changes \/ overlapping changes ->
  exists w, applyFileChanges_callback content changes = ([w], None).
Proof.
  intros H. unfold applyFileChanges_callback, validate_changes.
  destruct (find_mismatch content changes) as [w|] eqn:Em; [eauto|].
  destruct H as [H|H].
  - apply find_mismatch_some in H. contradiction.
  - apply find_overlap_some in H.
    destruct (find_overlap (drop_repeated (sort_changes changes))) as [w|];
      [eauto|contradiction].
Qed.

Lemma attempt_null processFn env i w warnings :
  processFn i (document w) = (warnings, None) ->
  attempt processFn env i w = (false, after_abandoned env i warnings w).
Proof. intros H. unfold attempt. rewrite H. reflexivity. Qed.

Lemma retry_loop_failed fuel fn budget started i w w' :
  fn i w = (false, w') ->
  retry_loop (S fuel) fn budget started i w
  = if (budget <? clock w' - started)%N
    then Some (TimeoutExceeded budget, w')
    else retry_loop fuel fn budget started (S i) w'.
Proof. intros H. simpl. rewrite H. reflexivity. Qed.

Lemma attempt_reads_first processFn env i w :
  exists more,
    events (snd (attempt processFn env i w))
    = events w ++ AdapterRead (document w) :: more.
Proof.
  unfold attempt. destruct (processFn i (document w)) as [warnings [nc|]].
  - destruct (negb _); simpl; rewrite <- app_assoc; simpl; eexists;
      reflexivity.
  - simpl. exists []. reflexivity.
Qed.

(** C3: when the expected text of some change differs from the snapshot at
    its range, or two changes left after the removal of repeats overlap, the
    callback logs one warning and answers null instead of throwing; the
    attempt then reports failure to the scheduler having only read the
    document: nothing is stored, the content is the one that was read; and
    unless the budget is spent the scheduler runs the next attempt, which
    starts by reading the document again. *)
Theorem conflict_abandons_the_batch :
  forall content changes changesFn env i w,
    mismatched content changes \/ overlapping changes ->
    changesFn i = changes ->
    document w = content ->
    let processFn :=
      fun i content => applyFileChanges_callback content (changesFn i) in
    exists warning,
      let w' := after_abandoned env i [warning] w in
      applyFileChanges_callback content changes = ([warning], None)
      /\ attempt processFn env i w = (false, w')
      /\ document w' = content
      /\ events w' = events w ++ [AdapterRead content]
      /\ (forall fuel budget started,
             retry_loop (S fuel) (attempt processFn env) budget started i w
             = if (budget <? clock w' - started)%N
               then Some (TimeoutExceeded budget, w')
               else retry_loop fuel (attempt processFn env) budget
                      started (S i) w')
      /\ (exists more,
             events (snd (attempt processFn env (S i) w'))
             = events w' ++ AdapterRead content :: more).
Proof.
  intros content changes changesFn env i w H Hc Hd processFn.
  destruct (conflict_answers_null content changes H) as [warning Hw].
  exists warning. intros w'. split; [exact Hw|].
  assert (Ha : attempt processFn env i w = (false, w')).
  { apply attempt_null. unfold processFn. rewrite Hc, Hd. exact Hw. }
  split; [exact Ha|].
  split; [exact Hd|].
  split; [simpl; rewrite Hd; reflexivity|].
  split; [intros; apply retry_loop_failed, Ha|].
  destruct (attempt_reads_first processFn env (S i) w') as [more Hm].
  exists more. rewrite Hm. simpl. rewrite Hd. reflexivity.
Qed.

Lemma conflict_abandons_the_batch_witness :
  let changes := [ mkFileChange 2 6 (js "CDEF") (js "X");
                   mkFileChange 4 8 (js "EFGH") (js "Y") ] in
  let w := mkWorld (js "ABCDEFGHIJ") [] [] 0 in
  let env := fun _ : nat => mkAttemptEnv None 250 in
  overlapping changes
  /\ exists warning,
       applyFileChanges_callback (js "ABCDEFGHIJ") changes = ([warning], None)
       /\ attempt (fun i content => applyFileChanges_callback content changes)
            env O w
          = (false, after_abandoned env O [warning] w).
Proof.
  intros changes w env.
  assert (H : overlapping changes).
  { exists [], (mkFileChange 2 6 (js "CDEF") (js "X")), [],
      (mkFileChange 4 8 (js "EFGH") (js "Y")), [].
    split; [vm_compute; reflexivity|simpl; lia]. }
  split; [exact H|].
  destruct (conflict_abandons_the_batch (js "ABCDEFGHIJ") changes
              (fun _ => changes) env O w (or_intror H) eq_refl eq_refl)
    as (warning & Hw & Ha & _).
  exists warning. split; [exact Hw|exact Ha].
Defined.

Lemma attempt_clock processFn env i w :
  clock (snd (attempt processFn env i w))
  = (clock w + Npos (elapsed (env i)))%N.
Proof.
  unfold attempt. destruct (processFn i (document w)) as [warnings [nc|]];
    [destruct (negb _)|]; reflexivity.
Qed.

(** The recursion bound of the scheduler is never reached: every attempt
    takes time, so the budget is spent first. *)
Lemma retry_loop_returns fn budget started :
  (forall i w, (clock w < clock (snd (fn i w)))%N) ->
  forall fuel i w,
    (started <= clock w)%N ->
    (clock w - started <= budget)%N ->
    (N.to_nat (budget - (clock w - started)) < fuel)%nat ->
    exists outcome w',
      retry_loop fuel fn budget started i w = Some (outcome, w')
      /\ (outcome = Completed
          \/ outcome = TimeoutExceeded budget
             /\ (budget < clock w' - started)%N).
Proof.
  intros Hfn. induction fuel as [|fuel IH]; intros i w Hs Hb Hf; [lia|].
  simpl. specialize (Hfn i w). destruct (fn i w) as [success w1]. simpl in Hfn.
  destruct success; [eauto|].
  destruct (budget <? clock w1 - started)%N eqn:E.
  - apply N.ltb_lt in E. eauto 6.
  - apply N.ltb_ge in E. apply IH; lia.
Qed.

Lemma processWithRetry_returns processFn env retryOptions w :
  let budget := budget_of (spread DEFAULT_RETRY_OPTIONS retryOptions) in
  exists outcome w',
    processWithRetry processFn env retryOptions w = Some (outcome, w')
    /\ (outcome = Completed
        \/ outcome = TimeoutExceeded budget
           /\ (budget < clock w' - clock w)%N).
Proof.
  intros budget. unfold processWithRetry, retryWithTimeout. fold budget.
  apply retry_loop_returns.
  - intros i w0. rewrite attempt_clock. lia.
  - lia.
  - lia.
  - lia.
Qed.

(** A cycle whose attempts all fail and take one millisecond each runs one
    attempt more than the budget has milliseconds. *)
Lemma retry_loop_attempts budget started :
  let processFn : ProcessFn := fun _ _ => ([], None) in
  let env := fun _ : nat => mkAttemptEnv None 1 in
  forall fuel i w,
    (started <= clock w)%N ->
    (clock w - started <= budget)%N ->
    (N.to_nat (budget - (clock w - started)) < fuel)%nat ->
    exists w',
      retry_loop fuel (attempt processFn env) budget started i w
      = Some (TimeoutExceeded budget, w')
      /\ List.length (events w')
         = (List.length (events w)
            + N.to_nat (budget - (clock w - started)) + 1)%nat.
Proof.
  intros processFn env.
  induction fuel as [|fuel IH]; intros i w Hs Hb Hf; [lia|].
  cbn [retry_loop].
  change (attempt processFn env i w)
    with (false, after_abandoned env i [] w).
  cbv iota beta.
  assert (Hc : clock (after_abandoned env i [] w) = (clock w + 1)%N)
    by reflexivity.
  assert (He : List.length (events (after_abandoned env i [] w))
               = S (List.length (events w))).
  { simpl. rewrite length_app. simpl. lia. }
  destruct (budget <? clock (after_abandoned env i [] w) - started)%N eqn:E.
  - apply N.ltb_lt in E. eexists. split; [reflexivity|]. rewrite He. lia.
  - apply N.ltb_ge in E.
    destruct (IH (S i) (after_abandoned env i [] w)) as (w' & Hr & Hl);
      try lia.
    exists w'. split; [exact Hr|]. rewrite Hl, He. lia.
Qed.

Lemma attempt_commit processFn env i w :
  match snd (processFn i (document w)) with
  | None =>
      fst (attempt processFn env i w) = false
      /\ document (snd (attempt processFn env i w)) = document w
  | Some computed =>
      if jsstring_eqb (content_at_write env i w) (document w)
      then fst (attempt processFn env i w) = true
           /\ document (snd (attempt processFn env i w)) = computed
      else fst (attempt processFn env i w) = false
           /\ document (snd (attempt processFn env i w))
              = content_at_write env i w
  end.
Proof.
  unfold attempt, content_at_write.
  destruct (processFn i (document w)) as [warnings [nc|]]; simpl.
  - destruct (jsstring_eqb _ _); simpl; auto.
  - auto.
Qed.

(** C4 (as the code has it): an attempt stores the computed content only
    when the content found at write time equals the snapshot it read,
    otherwise it stores nothing new and reports failure; a failed attempt
    makes the scheduler run the whole cycle again, from the read, unless the
    budget is spent, in which case the run ends without completing; the
    budget is the caller's timeoutInMilliseconds when given and 60000
    otherwise; the run always ends, either completed or with a timeout
    raised once more than the budget has elapsed; nothing but the time
    bounds the attempts: when each fails within a millisecond, one more
    attempt runs than the budget has milliseconds. *)
Theorem write_is_compare_and_swap :
  (forall processFn env i w,
      match snd (processFn i (document w)) with
      | None =>
          fst (attempt processFn env i w) = false
          /\ document (snd (attempt processFn env i w)) = document w
      | Some computed =>
          if jsstring_eqb (content_at_write env i w) (document w)
          then fst (attempt processFn env i w) = true
               /\ document (snd (attempt processFn env i w)) = computed
          else fst (attempt processFn env i w) = false
               /\ document (snd (attempt processFn env i w))
                  = content_at_write env i w
      end)
  /\ (forall fuel processFn env budget started i w,
         fst (attempt processFn env i w) = false ->
         let after := snd (attempt processFn env i w) in
         ((budget <? clock after - started)%N = false ->
          retry_loop (S fuel) (attempt processFn env) budget started i w
          = retry_loop fuel (attempt processFn env) budget started (S i) after
          /\ exists more,
              events (snd (attempt processFn env (S i) after))
              = events after ++ AdapterRead (document after) :: more)
         /\ ((budget <? clock after - started)%N = true ->
             exists outcome,
               retry_loop (S fuel) (attempt processFn env) budget started i w
               = Some (outcome, after)
               /\ outcome <> Completed))
  /\ (forall retryOptions,
         budget_of (spread DEFAULT_RETRY_OPTIONS retryOptions)
         = match timeoutInMilliseconds retryOptions with
           | Some t => t
           | None => 60000%N
           end)
  /\ (forall processFn env retryOptions w,
         exists outcome w',
           processWithRetry processFn env retryOptions w = Some (outcome, w')
           /\ (outcome = Completed
               \/ outcome <> Completed
                  /\ (budget_of (spread DEFAULT_RETRY_OPTIONS retryOptions)
                      < clock w' - clock w)%N))
  /\ (forall t w,
         exists outcome w',
           processWithRetry (fun _ _ => ([], None))
             (fun _ => mkAttemptEnv None 1) (mkRetryOptions (Some t)) w
           = Some (outcome, w')
           /\ outcome <> Completed
           /\ List.length (events w')
              = (List.length (events w) + N.to_nat t + 1)%nat).
Proof.
  split; [intros; apply attempt_commit|].
  split.
  { intros fuel processFn env budget started i w H after.
    assert (Hr : retry_loop (S fuel) (attempt processFn env) budget started
                   i w
                 = if (budget <? clock after - started)%N
                   then Some (TimeoutExceeded budget, after)
                   else retry_loop fuel (attempt processFn env) budget
                          started (S i) after).
    { apply retry_loop_failed. unfold after.
      destruct (attempt processFn env i w) as [b w']. simpl in *. subst b.
      reflexivity. }
    split; intros E; rewrite E in Hr.
    - split; [exact Hr|]. apply attempt_reads_first.
    - exists (TimeoutExceeded budget). split; [exact Hr|discriminate]. }
  split.
  { intros [[t|]]; reflexivity. }
  split.
  { intros processFn env retryOptions w.
    destruct (processWithRetry_returns processFn env retryOptions w)
      as (outcome & w' & H & [->|[-> Hb]]).
    - exists Completed, w'. split; [exact H|]. left. reflexivity.
    - eexists _, w'. split; [exact H|]. right.
      split; [discriminate|exact Hb]. }
  intros t w. unfold processWithRetry, retryWithTimeout.
  change (budget_of (spread DEFAULT_RETRY_OPTIONS (mkRetryOptions (Some t))))
    with t.
  destruct (retry_loop_attempts t (clock w) (S (N.to_nat t)) O w)
    as (w' & Hr & Hl); try lia.
  exists (TimeoutExceeded t), w'. split; [exact Hr|].
  split; [discriminate|]. rewrite Hl. f_equal. f_equal. lia.
Qed.

Lemma write_is_compare_and_swap_witness :
  let processFn : ProcessFn :=
    fun _ content => ([], Some (content ++ js "!")) in
  let env := fun i : nat =>
               match i with
               | O => mkAttemptEnv (Some (js "edited")) 1
               | S _ => mkAttemptEnv None 1
               end in
  let w := mkWorld (js "old") [] [] 0 in
  let after := snd (attempt processFn env O w) in
  fst (attempt processFn env O w) = false
  /\ document after = js "edited"
  /\ retry_loop 11 (attempt processFn env) 10 0 O w
     = retry_loop 10 (attempt processFn env) 10 0 1 after
  /\ retry_loop 11 (attempt processFn env) 10 0 O w
     = Some (Completed,
             mkWorld (js "edited!") [ContentChangedSinceRead]
               [AdapterRead (js "old");
                VaultProcess (js "edited") (js "edited");
                AdapterRead (js "edited");
                VaultProcess (js "edited") (js "edited!")] 2).
Proof.
  intros processFn env w after.
  split; [reflexivity|]. split; [reflexivity|]. split; [|reflexivity].
  apply (proj1 (proj2 write_is_compare_and_swap) 10%nat processFn env 10%N
           0%N O w eq_refl).
  reflexivity.
Defined.

(** C4 as stated fails: two runs that exhaust the default budget, the one on
    a content mismatch and the other on an overlap, raise the same timeout;
    the error does not tell the last conflict. *)
Lemma timeout_does_not_carry_the_conflict :
  let slow := fun _ : nat => mkAttemptEnv None 30001 in
  let start := mkWorld (js "ABCDEFGHIJ") [] [] 0 in
  let moved := fun _ : nat => [ mkFileChange 2 4 (js "XX") (js "Y") ] in
  let clash := fun _ : nat => [ mkFileChange 2 6 (js "CDEF") (js "X");
                                mkFileChange 4 8 (js "EFGH") (js "Y") ] in
  option_map fst (applyFileChanges moved slow (mkRetryOptions None) start)
  = Some (TimeoutExceeded 60000)
  /\ option_map fst (applyFileChanges clash slow (mkRetryOptions None) start)
     = Some (TimeoutExceeded 60000)
  /\ option_map (fun r => last_conflict (snd r))
       (applyFileChanges moved slow (mkRetryOptions None) start)
     = Some (Some (ContentMismatch 2 4 (js "XX") (js "CD")))
  /\ option_map (fun r => last_conflict (snd r))
       (applyFileChanges clash slow (mkRetryOptions None) start)
     = Some (Some (OverlappingChanges
                     (mkFileChange 2 6 (js "CDEF") (js "X"))
                     (mkFileChange 4 8 (js "EFGH") (js "Y"))))
  /\ ~ (exists detail : RetryOutcome -> option Warning,
          forall changesFn env retryOptions w outcome w',
            applyFileChanges changesFn env retryOptions w = Some (outcome, w') ->
            outcome <> Completed ->
            detail outcome = last_conflict w').
Proof.
  intros slow start moved clash.
  assert (R1 : exists w1,
             applyFileChanges moved slow (mkRetryOptions None) start
             = Some (TimeoutExceeded 60000, w1)
             /\ last_conflict w1
                = Some (ContentMismatch 2 4 (js "XX") (js "CD"))).
  { eexists. split; vm_compute; reflexivity. }
  assert (R2 : exists w2,
             applyFileChanges clash slow (mkRetryOptions None) start
             = Some (TimeoutExceeded 60000, w2)
             /\ last_conflict w2
                = Some (OverlappingChanges
                          (mkFileChange 2 6 (js "CDEF") (js "X"))
                          (mkFileChange 4 8 (js "EFGH") (js "Y")))).
  { eexists. split; vm_compute; reflexivity. }
  destruct R1 as (w1 & E1 & L1). destruct R2 as (w2 & E2 & L2).
  rewrite E1, E2. simpl. rewrite L1, L2.
  repeat split; try reflexivity.
  intros [detail H].
  pose proof (H _ _ _ _ _ _ E1 ltac:(discriminate)) as D1.
  pose proof (H _ _ _ _ _ _ E2 ltac:(discriminate)) as D2.
  rewrite L1 in D1. rewrite L2 in D2. rewrite D1 in D2. discriminate.
Qed.

(** ** Removal of a folder *)

(** C9: removeFolderSafe keeps going after a file it could not delete
    only for the files that follow.  In a folder whose first child is a file
    still used by another note, a second file that nothing uses is deleted,
    but a subfolder holding one file that nothing uses is not visited, since
    [canRemove &&= ...] evaluates its right side only while canRemove is
    true: the call returns false and the subfolder is left whole, although
    the same subfolder is removed by a call of its own, and is removed too
    when it comes before the file.  This is so whichever way the vault
    takes a deleted entry out of folder.children.  When the subfolder comes
    first, what becomes of the file after it depends on that way: read from
    an array that stays as it was, the file is visited and kept and the call
    returns false; read from the array the vault edits in place, the file
    is passed over, the call returns true and the folder is deleted with
    the file in it. *)
Theorem subfolder_after_failure_is_skipped :
  let used := TFile (js "img/a.png") [js "other.md"] false in
  let free := TFile (js "img/c.png") [] false in
  let sub := TFolder (js "img/sub") false [TFile (js "img/sub/b.png") [] false] in
  (forall vault,
      removeFolderSafe vault (Some (TFolder (js "img") false [used; sub])) None
      = (false, Some (TFolder (js "img") false [used; sub])))
  /\ In (js "img/sub/b.png")
       (file_paths (TFolder (js "img") false [used; sub]))
  /\ (forall vault, removeFolderSafe vault (Some sub) None = (true, None))
  /\ (forall vault,
         removeFolderSafe vault (Some (TFolder (js "img") false [used; free]))
           None
         = (false, Some (TFolder (js "img") false [used])))
  /\ removeFolderSafe NewArray (Some (TFolder (js "img") false [sub; used]))
       None
     = (false, Some (TFolder (js "img") false [used]))
  /\ removeFolderSafe InPlace (Some (TFolder (js "img") false [sub; used]))
       None
     = (true, None).
Proof.
  intros used free sub.
  split; [intros []; reflexivity|].
  split; [right; left; reflexivity|].
  split; [intros []; reflexivity|].
  split; [intros []; reflexivity|].
  split; reflexivity.
Qed.

(** ** Names of files *)

(** C7 (as the code has it): the empty name is refused with a non-empty
    message; the names [.] and [..] are valid; [a/b] is refused for its
    invalid symbol, [a.] for its trailing dot, and [a...] for its trailing
    dots as well: the reason of more than two dots is given to names made of
    dots alone, such as [...]. *)
Theorem validateFilename_examples :
  validateFilename [] true = empty_message
  /\ validateFilename [] true <> []
  /\ validateFilename (js ".") true = []
  /\ validateFilename (js "..") true = []
  /\ validateFilename (js "a...") true = trailing_message (js "a...")
  /\ validateFilename (js "...") true = more_than_two_dots_message (js "...")
  /\ validateFilename (js "a.") true = trailing_message (js "a.")
  /\ validateFilename (js "a/b") true = invalid_symbols_message (js "a/b").
Proof. repeat split; try (vm_compute; reflexivity). discriminate. Qed.

(** C7 as stated fails for [a...]: the message is the one of trailing dots,
    not the one of more than two dots. *)
Lemma three_trailing_dots_reason :
  validateFilename (js "a...") true <> more_than_two_dots_message (js "a...")
  /\ validateFilename (js "a...") true = trailing_message (js "a...").
Proof. split; [vm_compute; discriminate|vm_compute; reflexivity]. Qed.

(** ** Templates *)

Lemma isRegisteredToken_get token :
  isRegisteredToken token = false ->
  formatters_get (toLowerCase token) formatters = None.
Proof.
  unfold isRegisteredToken.
  destruct (formatters_get (toLowerCase token) formatters);
    [discriminate|reflexivity].
Qed.

Lemma isRegisteredToken_got token :
  isRegisteredToken token = true ->
  exists formatter,
    formatters_get (toLowerCase token) formatters = Some formatter.
Proof.
  unfold isRegisteredToken.
  destruct (formatters_get (toLowerCase token) formatters);
    [eauto|discriminate].
Qed.

Lemma leftmost_unknown_rejects substitutions app before :
  forall i token format after,
    (forall name f, In (Token name f) before -> isRegisteredToken name = true) ->
    isRegisteredToken token = false ->
    first_rejected_at_once
      (call_replacers substitutions app i
         (before ++ Token token format :: after))
    = Some (InvalidToken token).
Proof.
  induction before as [|p before IH]; intros i token format after Hb Ht; simpl.
  - unfold replacer. rewrite (isRegisteredToken_get _ Ht). reflexivity.
  - destruct p as [c|name f].
    + apply IH; [|exact Ht]. intros n f' Hin. apply (Hb n f'). right. exact Hin.
    + destruct (isRegisteredToken_got name) as [formatter Hf].
      { apply (Hb name f). left. reflexivity. }
      unfold replacer at 1. rewrite Hf. simpl.
      apply IH; [|exact Ht]. intros n f' Hin. apply (Hb n f'). right. exact Hin.
Qed.

Lemma leftmost_unregistered pieces :
  (exists name format,
      In (Token name format) pieces /\ isRegisteredToken name = false) ->
  exists before token format after,
    pieces = before ++ Token token format :: after
    /\ (forall name f,
           In (Token name f) before -> isRegisteredToken name = true)
    /\ isRegisteredToken token = false.
Proof.
  induction pieces as [|p pieces IH]; intros (name & format & Hin & Hu).
  - destruct Hin.
  - destruct p as [c|n f].
    + destruct Hin as [Hin|Hin]; [discriminate|].
      destruct IH as (before & token & fmt & after & -> & Hb & Ht); [eauto|].
      exists (Literal c :: before), token, fmt, after.
      split; [reflexivity|]. split; [|exact Ht].
      intros n f [H|H]; [discriminate|eauto].
    + destruct (isRegisteredToken n) eqn:En.
      * destruct Hin as [Hin|Hin]; [injection Hin as -> _; congruence|].
        destruct IH as (before & token & fmt & after & -> & Hb & Ht); [eauto|].
        exists (Token n f :: before), token, fmt, after.
        split; [reflexivity|]. split; [|exact Ht].
        intros n' f' [H|H]; [injection H as <- _; exact En|eauto].
      * exists [], n, f, pieces. split; [reflexivity|].
        split; [intros n' f' []|exact En].
Qed.

(** C5: when the matches of a template hold at least one token whose name,
    lowered, is not in the registry, fillTemplate fails with the error of
    the leftmost such token, whatever the host answers to the formatters of
    the other tokens; no string is returned. *)
Theorem fillTemplate_unknown_token :
  forall substitutions app template,
    (exists name format,
        In (Token name format) (tokenize template)
        /\ isRegisteredToken name = false) ->
    exists before token format after,
      tokenize template = before ++ Token token format :: after
      /\ (forall name f,
             In (Token name f) before -> isRegisteredToken name = true)
      /\ isRegisteredToken token = false
      /\ fillTemplate substitutions app template = inl (InvalidToken token).
Proof.
  intros substitutions app template H.
  destruct (leftmost_unregistered _ H)
    as (before & token & format & after & Ht & Hb & Hu).
  exists before, token, format, after.
  repeat split; try assumption.
  unfold fillTemplate, replaceAllAsync, promise_all. rewrite Ht.
  rewrite (leftmost_unknown_rejects _ _ _ _ _ _ _ Hb Hu). reflexivity.
Qed.

Lemma fillTemplate_unknown_token_witness :
  let template := js "${date:YYYY}-${Nope}-${other}" in
  (exists name format,
      In (Token name format) (tokenize template)
      /\ isRegisteredToken name = false)
  /\ forall substitutions app,
     exists before token format after,
       tokenize template = before ++ Token token format :: after
       /\ (forall name f,
              In (Token name f) before -> isRegisteredToken name = true)
       /\ isRegisteredToken token = false
       /\ fillTemplate substitutions app template = inl (InvalidToken token)
       /\ fillTemplate substitutions app template
          = inl (InvalidToken (js "Nope")).
Proof.
  intros template.
  assert (H : exists name format,
             In (Token name format) (tokenize template)
             /\ isRegisteredToken name = false).
  { exists (js "other"), None. split; [|vm_compute; reflexivity].
    replace (tokenize template)
      with [Token (js "date") (Some (js "YYYY")); Literal "-"%char;
            Token (js "Nope") None; Literal "-"%char;
            Token (js "other") None]
      by (vm_compute; reflexivity).
    do 4 right. left. reflexivity. }
  split; [exact H|].
  intros substitutions app.
  destruct (fillTemplate_unknown_token substitutions app template H)
    as (before & token & format & after & Ht & Hb & Hu & Hf).
  exists before, token, format, after.
  split; [exact Ht|]. split; [exact Hb|]. split; [exact Hu|].
  split; [exact Hf|]. vm_compute. reflexivity.
Defined.

(** ** The token regular expression *)

Lemma format_tail_shorter s :
  forall f rest,
    format_tail s = Some (f, rest) -> (List.length rest < List.length s)%nat.
Proof.
  induction s as [|c s IH]; intros f rest H; simpl in H; [discriminate|].
  destruct (Ascii.eqb c rbrace).
  - injection H as _ <-. simpl. lia.
  - destruct (is_line_terminator c); [discriminate|].
    destruct (format_tail s) as [[f' rest']|]; [|discriminate].
    injection H as _ <-. specialize (IH _ _ eq_refl). simpl. lia.
Qed.

Lemma match_format_shorter s f rest :
  match_format s = Some (f, rest) -> (List.length rest < List.length s)%nat.
Proof.
  destruct s as [|c s]; simpl; [discriminate|].
  destruct (is_line_terminator c); [discriminate|].
  destruct (format_tail s) as [[f' rest']|] eqn:E; [|discriminate].
  intros H. injection H as _ <-. apply format_tail_shorter in E. simpl. lia.
Qed.

Lemma name_tail_shorter s :
  forall n f rest,
    name_tail s = Some (n, f, rest) -> (List.length rest < List.length s)%nat.
Proof.
  induction s as [|c s IH]; intros n f rest H; simpl in H; [discriminate|].
  assert (L : (if is_line_terminator c then None
               else match name_tail s with
                    | Some (n, f, rest) => Some (c :: n, f, rest)
                    | None => None
                    end) = Some (n, f, rest) ->
              (List.length rest < List.length (c :: s))%nat).
  { destruct (is_line_terminator c); [discriminate|].
    destruct (name_tail s) as [[[n' f'] rest']|]; [|discriminate].
    intros H'. injection H' as _ _ <-. specialize (IH _ _ _ eq_refl).
    simpl. lia. }
  destruct (Ascii.eqb c colon).
  - destruct (match_format s) as [[f' rest']|] eqn:E; [|auto].
    injection H as _ _ <-. apply match_format_shorter in E. simpl. lia.
  - destruct (Ascii.eqb c rbrace); [|auto].
    injection H as _ _ <-. simpl. lia.
Qed.

Lemma exec_token_shorter s n f rest :
  exec_token s = Some (n, f, rest) -> (List.length rest < List.length s)%nat.
Proof.
  destruct s as [|c1 [|c2 [|c s]]]; simpl; try discriminate.
  destruct (_ && _); [|discriminate].
  destruct (name_tail s) as [[[n' f'] rest']|] eqn:E; [|discriminate].
  intros H. injection H as _ _ <-. apply name_tail_shorter in E. lia.
Qed.

Lemma tokenize_fuel_enough fuel1 :
  forall fuel2 s,
    (List.length s <= fuel1)%nat -> (List.length s <= fuel2)%nat ->
    tokenize_fuel fuel1 s = tokenize_fuel fuel2 s.
Proof.
  induction fuel1 as [|fuel1 IH]; intros fuel2 s H1 H2.
  - destruct s; [|simpl in H1; lia]. destruct fuel2; reflexivity.
  - destruct fuel2 as [|fuel2].
    + destruct s; [reflexivity|simpl in H2; lia].
    + cbn [tokenize_fuel].
      destruct (exec_token s) as [[[n f] rest]|] eqn:E.
      * apply exec_token_shorter in E. f_equal. apply IH; lia.
      * destruct s as [|c s]; [reflexivity|]. simpl in H1, H2.
        f_equal. apply IH; lia.
Qed.

(** The equations of [tokenize]: the recursion bound plays no part. *)
Lemma tokenize_nil : tokenize [] = [].
Proof. reflexivity. Qed.

Lemma tokenize_token s n f rest :
  exec_token s = Some (n, f, rest) ->
  tokenize s = Token n f :: tokenize rest.
Proof.
  intros E. unfold tokenize. pose proof (exec_token_shorter _ _ _ _ E) as Hl.
  destruct (List.length s) as [|k] eqn:Ek; [lia|].
  cbn [tokenize_fuel]. rewrite E. f_equal. apply tokenize_fuel_enough; lia.
Qed.

Lemma tokenize_literal c s :
  exec_token (c :: s) = None ->
  tokenize (c :: s) = Literal c :: tokenize s.
Proof.
  intros E. unfold tokenize. cbn [List.length tokenize_fuel]. rewrite E.
  reflexivity.
Qed.

(** Induction along the scan of a string. *)
Lemma tokenize_ind (P : jsstring -> Prop) :
  P [] ->
  (forall c s, exec_token (c :: s) = None -> P s -> P (c :: s)) ->
  (forall s n f rest, exec_token s = Some (n, f, rest) -> P rest -> P s) ->
  forall s, P s.
Proof.
  intros Hnil Hlit Htok s.
  remember (List.length s) as k eqn:Hk. revert s Hk.
  induction k as [k IH] using lt_wf_ind. intros s Hk.
  destruct (exec_token s) as [[[n f] rest]|] eqn:E.
  - apply (Htok s n f rest E).
    apply (IH (List.length rest)); [|reflexivity].
    apply exec_token_shorter in E. lia.
  - destruct s as [|c s]; [exact Hnil|].
    apply (Hlit c s E). apply (IH (List.length s)); [|reflexivity].
    simpl in Hk. lia.
Qed.

Lemma format_tail_closes s :
  match format_tail s with
  | Some _ => closes s = true
  | None => closes s = false
  end.
Proof.
  induction s as [|c s IH]; simpl; [reflexivity|].
  destruct (Ascii.eqb c rbrace); [reflexivity|].
  destruct (is_line_terminator c); [reflexivity|].
  destruct (format_tail s) as [[f rest]|]; exact IH.
Qed.

Lemma name_can_start_closes s : name_can_start s = true -> closes s = true.
Proof.
  destruct s as [|c s]; simpl; [discriminate|].
  intros H. apply andb_true_iff in H. destruct H as [H1 H2].
  apply negb_true_iff in H1. rewrite H1, H2.
  destruct (Ascii.eqb c rbrace); reflexivity.
Qed.

Lemma match_format_starts s :
  match match_format s with
  | Some _ => name_can_start s = true
  | None => name_can_start s = false
  end.
Proof.
  destruct s as [|c s]; simpl; [reflexivity|].
  destruct (is_line_terminator c); [reflexivity|].
  pose proof (format_tail_closes s) as H.
  destruct (format_tail s) as [[f rest]|]; exact H.
Qed.

Lemma name_tail_closes s :
  match name_tail s with
  | Some _ => closes s = true
  | None => closes s = false
  end.
Proof.
  induction s as [|c s IH]; simpl; [reflexivity|].
  assert (L : match (if is_line_terminator c then None
                     else match name_tail s with
                          | Some (n, f, rest) => Some (c :: n, f, rest)
                          | None => None
                          end) with
              | Some _ =>
                  (if is_line_terminator c then false else closes s) = true
              | None =>
                  (if is_line_terminator c then false else closes s) = false
              end).
  { destruct (is_line_terminator c); [reflexivity|].
    destruct (name_tail s) as [[[n f] rest]|]; exact IH. }
  destruct (Ascii.eqb c colon) eqn:Ec.
  - apply Ascii.eqb_eq in Ec. subst c.
    change (Ascii.eqb colon rbrace) with false.
    change (is_line_terminator colon) with false in *.
    pose proof (match_format_starts s) as Hm.
    destruct (match_format s) as [[f rest]|].
    + apply name_can_start_closes, Hm.
    + exact L.
  - destruct (Ascii.eqb c rbrace); [reflexivity|exact L].
Qed.

Lemma exec_token_opens s :
  match exec_token s with
  | Some _ => opens s = true
  | None => opens s = false
  end.
Proof.
  destruct s as [|c1 [|c2 [|c s]]]; simpl; try reflexivity.
  - rewrite andb_false_r. reflexivity.
  - destruct (Ascii.eqb c1 dollar); simpl; [|reflexivity].
    destruct (Ascii.eqb c2 lbrace); simpl; [|reflexivity].
    destruct (is_line_terminator c); simpl; [reflexivity|].
    pose proof (name_tail_closes s) as H.
    destruct (name_tail s) as [[[n f] rest]|]; exact H.
Qed.

Lemma exec_token_none s : exec_token s = None <-> opens s = false.
Proof.
  pose proof (exec_token_opens s) as H.
  destruct (exec_token s); split; intros; congruence.
Qed.

Lemma opens_inv s :
  opens s = true ->
  exists s', s = dollar :: lbrace :: s' /\ name_can_start s' = true.
Proof.
  destruct s as [|c1 [|c2 s']]; simpl; try discriminate.
  intros H. apply andb_true_iff in H. destruct H as [H H3].
  apply andb_true_iff in H. destruct H as [H1 H2].
  apply Ascii.eqb_eq in H1, H2. subst. eauto.
Qed.

Lemma opens_closes s : opens s = true -> closes s = true.
Proof.
  intros H. apply opens_inv in H. destruct H as (s' & -> & H).
  apply name_can_start_closes in H. simpl.
  change (Ascii.eqb dollar rbrace) with false.
  change (Ascii.eqb lbrace rbrace) with false.
  change (is_line_terminator dollar) with false.
  change (is_line_terminator lbrace) with false. exact H.
Qed.

Lemma opens_name_can_start s : opens s = true -> name_can_start s = true.
Proof.
  intros H. pose proof (opens_closes s H) as Hc.
  apply opens_inv in H. destruct H as (s' & -> & H).
  simpl in *. change (is_line_terminator dollar) with false.
  change (Ascii.eqb dollar rbrace) with false in Hc.
  change (is_line_terminator dollar) with false in Hc. exact Hc.
Qed.

Lemma rendered_nil_inv Q out : rendered Q [] out -> out = [].
Proof. intros H. inversion H. reflexivity. Qed.

Lemma rendered_literal_inv Q c pieces out :
  rendered Q (Literal c :: pieces) out ->
  exists out', out = c :: out' /\ rendered Q pieces out'.
Proof. intros H. inversion H; subst. eauto. Qed.

Lemma rendered_token_inv Q name format pieces out :
  rendered Q (Token name format :: pieces) out ->
  exists text out', out = text ++ out' /\ Q text /\ rendered Q pieces out'.
Proof. intros H. inversion H; subst. eauto. Qed.

Section Rendering.
Variable Q : jsstring -> Prop.

Lemma rendered_closes :
  forall s out,
    rendered Q (tokenize s) out -> closes out = true -> closes s = true.
Proof.
  induction s as [|c s E IH|s n f rest E IH] using tokenize_ind;
    intros out Hr Hc.
  - rewrite tokenize_nil in Hr. apply rendered_nil_inv in Hr. subst out.
    discriminate.
  - rewrite (tokenize_literal _ _ E) in Hr.
    apply rendered_literal_inv in Hr. destruct Hr as (out' & -> & Hr).
    simpl in *. destruct (Ascii.eqb c rbrace); [reflexivity|].
    destruct (is_line_terminator c); [discriminate|]. eapply IH; eauto.
  - apply opens_closes. pose proof (exec_token_opens s) as H.
    rewrite E in H. exact H.
Qed.

Lemma rendered_name_can_start s out :
  rendered Q (tokenize s) out ->
  name_can_start out = true -> name_can_start s = true.
Proof.
  intros Hr Hn. pose proof (exec_token_opens s) as H.
  destruct (exec_token s) as [[[n f] rest]|] eqn:E.
  - apply opens_name_can_start, H.
  - destruct s as [|c s].
    + rewrite tokenize_nil in Hr. apply rendered_nil_inv in Hr. subst out.
      discriminate.
    + rewrite (tokenize_literal _ _ E) in Hr.
      apply rendered_literal_inv in Hr. destruct Hr as (out' & -> & Hr).
      simpl in *. apply andb_true_iff in Hn. destruct Hn as [H1 H2].
      rewrite H1. simpl. eapply rendered_closes; eauto.
Qed.

Hypothesis Q_head :
  forall text, Q text -> exists h t, text = h :: t /\ h <> lbrace.

Lemma rendered_literal_opens c s out :
  exec_token (c :: s) = None ->
  rendered Q (tokenize s) out ->
  opens (c :: out) = false.
Proof.
  intros E Hr. destruct (opens (c :: out)) eqn:Ho; [|reflexivity].
  exfalso. apply opens_inv in Ho. destruct Ho as (out' & Heq & Hn).
  injection Heq as -> ->.
  apply exec_token_none in E.
  assert (Hs : exists s', s = lbrace :: s' /\ rendered Q (tokenize s') out').
  { destruct (exec_token s) as [[[n f] rest]|] eqn:E'.
    - rewrite (tokenize_token _ _ _ _ E') in Hr.
      apply rendered_token_inv in Hr.
      destruct Hr as (text & out0 & Ho & Ht & Hr).
      destruct (Q_head _ Ht) as (h & t & -> & Hh).
      simpl in Ho. injection Ho as Hh' _. congruence.
    - destruct s as [|e s'].
      + rewrite tokenize_nil in Hr. apply rendered_nil_inv in Hr.
        discriminate.
      + rewrite (tokenize_literal _ _ E') in Hr.
        apply rendered_literal_inv in Hr. destruct Hr as (out0 & Ho & Hr).
        injection Ho as <- <-. eauto. }
  destruct Hs as (s' & -> & Hr').
  pose proof (rendered_name_can_start _ _ Hr' Hn) as Hn'.
  simpl in E. rewrite Hn' in E.
  change (Ascii.eqb dollar dollar) with true in E.
  change (Ascii.eqb lbrace lbrace) with true in E. discriminate.
Qed.

Hypothesis Q_dollar : forall text, Q text -> ~ In dollar text.

Lemma rendered_no_opening :
  forall s out,
    rendered Q (tokenize s) out ->
    forall pre suf, out = pre ++ suf -> opens suf = false.
Proof.
  induction s as [|c s E IH|s n f rest E IH] using tokenize_ind;
    intros out Hr pre suf Ho.
  - rewrite tokenize_nil in Hr. apply rendered_nil_inv in Hr.
    rewrite Hr in Ho. symmetry in Ho. apply app_eq_nil in Ho.
    destruct Ho as [_ ->]. reflexivity.
  - rewrite (tokenize_literal _ _ E) in Hr.
    apply rendered_literal_inv in Hr. destruct Hr as (out0 & Hout & Hr).
    rewrite Hout in Ho.
    destruct pre as [|d pre]; simpl in Ho.
    + rewrite <- Ho. eapply rendered_literal_opens; eauto.
    + injection Ho as _ Ho. eapply IH; eauto.
  - rewrite (tokenize_token _ _ _ _ E) in Hr.
    apply rendered_token_inv in Hr.
    destruct Hr as (text & out0 & Hout & Ht & Hr).
    rewrite Hout in Ho. symmetry in Ho. apply app_eq_app in Ho.
    destruct Ho as [l [[Hpre Hout0]|[Htext Hsuf]]].
    + eapply (IH _ Hr l suf). exact Hout0.
    + destruct l as [|h l].
      * simpl in Hsuf. rewrite Hsuf. eapply (IH _ Hr [] out0). reflexivity.
      * destruct (opens suf) eqn:Hop; [|reflexivity].
        exfalso. apply opens_inv in Hop. destruct Hop as (s' & Heq & _).
        rewrite Hsuf in Heq. simpl in Heq. injection Heq as -> _.
        apply (Q_dollar _ Ht). rewrite Htext. apply in_or_app. right. left.
        reflexivity.
Qed.
End Rendering.

Lemma no_opening_no_token out :
  (forall pre suf, out = pre ++ suf -> opens suf = false) ->
  has_token out = false.
Proof.
  unfold has_token. induction out as [|c out IH]; intros H; [reflexivity|].
  assert (E : exec_token (c :: out) = None).
  { apply exec_token_none. apply (H []). reflexivity. }
  rewrite (tokenize_literal _ _ E). simpl. apply IH.
  intros pre suf Ho. apply (H (c :: pre)). simpl. rewrite Ho. reflexivity.
Qed.

Lemma promise_all_inr promises replacements :
  promise_all promises = inr replacements ->
  await_all promises = inr replacements.
Proof.
  unfold promise_all. destruct (first_rejected_at_once promises);
    [discriminate|auto].
Qed.

Lemma splice_rendered (Q : jsstring -> Prop) substitutions app pieces :
  forall i replacements,
    await_all (call_replacers substitutions app i pieces) = inr replacements ->
    Forall Q replacements ->
    rendered Q pieces (splice pieces replacements).
Proof.
  induction pieces as [|p pieces IH]; intros i replacements Ha HQ; simpl.
  - constructor.
  - destruct p as [c|name format]; simpl in Ha.
    + constructor. eapply IH; eauto.
    + destruct (replacer substitutions app i name format) as [e|[text|e]];
        try discriminate.
      destruct (await_all (call_replacers substitutions app (S i) pieces))
        as [e|texts] eqn:E; [discriminate|].
      injection Ha as <-. inversion HQ; subst.
      constructor; [assumption|]. eapply IH; eauto.
Qed.

(** C6 (as the code has it): when every match of the template is
    registered and every formatter fulfils, fillTemplate returns the
    template with each match replaced by the text of its formatter, which
    is not scanned again; if every such text is non-empty, holds no dollar
    and does not begin with an opening brace, the returned string holds
    no marker. *)
Theorem fillTemplate_leaves_no_marker :
  forall substitutions app template replacements,
    promise_all (call_replacers substitutions app O (tokenize template))
    = inr replacements ->
    Forall clean_replacement replacements ->
    fillTemplate substitutions app template
    = inr (splice (tokenize template) replacements)
    /\ has_marker (splice (tokenize template) replacements) = false.
Proof.
  intros substitutions app template replacements Hp Hc.
  split.
  - unfold fillTemplate, replaceAllAsync. rewrite Hp. reflexivity.
  - apply no_opening_no_token.
    apply (rendered_no_opening clean_replacement) with (s := template).
    + intros text (Hne & _ & Hh). destruct text as [|h t]; [contradiction|].
      exists h, t. split; [reflexivity|]. intros ->. apply Hh. reflexivity.
    + intros text (_ & Hd & _). exact Hd.
    + eapply splice_rendered; [apply promise_all_inr, Hp|exact Hc].
Qed.

Lemma clean_replacement_check text :
  match text with
  | [] => false
  | h :: _ => negb (Ascii.eqb h lbrace)
  end && forallb (fun c => negb (Ascii.eqb c dollar)) text = true ->
  clean_replacement text.
Proof.
  intros H. apply andb_true_iff in H. destruct H as [Hh Hd].
  destruct text as [|h t]; [discriminate|].
  split; [discriminate|]. split.
  - intros Hin. rewrite forallb_forall in Hd. specialize (Hd _ Hin).
    rewrite Ascii.eqb_refl in Hd. discriminate.
  - simpl. intros Heq. injection Heq as ->.
    rewrite Ascii.eqb_refl in Hh. discriminate.
Qed.

Lemma fillTemplate_leaves_no_marker_witness :
  let substitutions :=
    mkSubstitutions (js "notes") (js "plan") (js "notes/plan.md") (js "notes")
      (js "png") (js "shot") in
  let app := fun _ : nat =>
    mkApp (fun _ => js "2026") (fun _ => 3%nat) (js "0000") (fun d => Some d) in
  let template := js "$${fileName}{x}-${date:YYYY}-${randomDigit}" in
  promise_all (call_replacers substitutions app O (tokenize template))
  = inr [js "plan"; js "2026"; js "3"]
  /\ fillTemplate substitutions app template = inr (js "$plan{x}-2026-3")
  /\ has_marker (js "$plan{x}-2026-3") = false.
Proof.
  intros substitutions app template.
  assert (Hp : promise_all
                 (call_replacers substitutions app O (tokenize template))
               = inr [js "plan"; js "2026"; js "3"])
    by (vm_compute; reflexivity).
  split; [exact Hp|].
  apply (fillTemplate_leaves_no_marker substitutions app template
           [js "plan"; js "2026"; js "3"] Hp).
  repeat constructor; apply clean_replacement_check; reflexivity.
Defined.

(** C6 as stated fails: with no original file name the text of
    originalCopiedFileName is empty and the characters around the match
    join into a marker; and the text of a formatter may itself be a marker,
    as for a note whose name is one. *)
Lemma fillTemplate_may_leave_a_marker :
  let app := fun _ : nat =>
    mkApp (fun _ => js "2026") (fun _ => 3%nat) (js "0000") (fun d => Some d) in
  first_unregistered (tokenize (js "$${originalCopiedFileName}{uuid}")) = None
  /\ fillTemplate
       (mkSubstitutions (js "notes") (js "plan") (js "notes/plan.md")
          (js "notes") [] [])
       app (js "$${originalCopiedFileName}{uuid}")
     = inr (js "${uuid}")
  /\ first_unregistered (tokenize (js "${fileName}")) = None
  /\ fillTemplate
       (mkSubstitutions (js "notes") (js "${date}") (js "notes/${date}.md")
          (js "notes") [] [])
       app (js "${fileName}")
     = inr (js "${date}")
  /\ has_marker (js "${uuid}") = true
  /\ has_marker (js "${date}") = true.
Proof. intros app. repeat split; vm_compute; reflexivity. Qed.

(** ** The normal form of tokens *)

Lemma name_tail_bare s :
  forall n f rest,
    name_tail s = Some (n, f, rest) ->
    forall rest',
      (closes rest' = true -> closes rest = true) ->
      name_tail (n ++ rbrace :: rest') = Some (n, None, rest').
Proof.
  induction s as [|c s IH]; intros n f rest H rest' Hc; simpl in H;
    [discriminate|].
  destruct (Ascii.eqb c colon) eqn:Ecolon.
  - apply Ascii.eqb_eq in Ecolon. subst c.
    change (is_line_terminator colon) with false in H.
    destruct (match_format s) as [[f0 r0]|] eqn:Em.
    + injection H as <- _ _. reflexivity.
    + pose proof (match_format_starts s) as Hs. rewrite Em in Hs.
      pose proof (name_tail_closes s) as Hcl.
      destruct (name_tail s) as [[[n' f'] r']|] eqn:En; [|discriminate].
      injection H as <- <- <-.
      destruct s as [|d s']; [discriminate|].
      simpl in Hs, Hcl.
      destruct (Ascii.eqb d rbrace) eqn:Ed.
      * apply Ascii.eqb_eq in Ed. subst d.
        change (is_line_terminator rbrace) with false in Hs. simpl in Hs.
        simpl in En. change (Ascii.eqb rbrace colon) with false in En.
        change (Ascii.eqb rbrace rbrace) with true in En.
        injection En as <- <- <-.
        simpl. change (Ascii.eqb colon colon) with true.
        change (is_line_terminator rbrace) with false.
        pose proof (format_tail_closes rest') as Hf.
        destruct (format_tail rest') as [[f1 r1]|].
        -- rewrite (Hc Hf) in Hs. discriminate.
        -- change (is_line_terminator colon) with false.
           change (Ascii.eqb rbrace colon) with false.
           change (Ascii.eqb rbrace rbrace) with true. reflexivity.
      * destruct (is_line_terminator d); [discriminate|].
        simpl in Hs. rewrite Hcl in Hs. discriminate.
  - destruct (Ascii.eqb c rbrace) eqn:Ebrace.
    + injection H as <- _ _. reflexivity.
    + destruct (is_line_terminator c) eqn:Elt; [discriminate|].
      destruct (name_tail s) as [[[n' f'] r']|] eqn:En; [|discriminate].
      injection H as <- <- <-.
      simpl. rewrite Ecolon, Ebrace, Elt.
      rewrite (IH _ _ _ eq_refl rest' Hc). reflexivity.
Qed.

Lemma exec_token_inv s n f rest :
  exec_token s = Some (n, f, rest) ->
  exists c n' s',
    s = dollar :: lbrace :: c :: s'
    /\ is_line_terminator c = false
    /\ name_tail s' = Some (n', f, rest)
    /\ n = c :: n'.
Proof.
  destruct s as [|c1 [|c2 [|c s']]]; simpl; try discriminate.
  destruct (Ascii.eqb c1 dollar) eqn:E1; [|discriminate].
  destruct (Ascii.eqb c2 lbrace) eqn:E2; [|discriminate].
  destruct (is_line_terminator c) eqn:E3; [discriminate|]. simpl.
  destruct (name_tail s') as [[[n' f'] r']|] eqn:En; [|discriminate].
  intros H. injection H as <- <- <-.
  apply Ascii.eqb_eq in E1, E2. subst. exists c, n', s'. auto.
Qed.

Lemma replace_tokens_rendered (Q : jsstring -> Prop) replacer s :
  (forall name format, Q (replacer name format)) ->
  rendered Q (tokenize s) (replace_tokens replacer s).
Proof.
  intros HQ. unfold replace_tokens.
  induction (tokenize s) as [|p pieces IH]; simpl; [constructor|].
  destruct p as [c|name format]; constructor; auto.
Qed.

Lemma removeTokenFormatting_rendered s :
  rendered (fun text => exists token, text = bare_token token)
    (tokenize s) (removeTokenFormatting s).
Proof.
  apply replace_tokens_rendered. intros name format. exists name.
  reflexivity.
Qed.

Lemma removeTokenFormatting_nil : removeTokenFormatting [] = [].
Proof. reflexivity. Qed.

Lemma removeTokenFormatting_literal c s :
  exec_token (c :: s) = None ->
  removeTokenFormatting (c :: s) = c :: removeTokenFormatting s.
Proof.
  intros E. unfold removeTokenFormatting, replace_tokens.
  rewrite (tokenize_literal _ _ E). reflexivity.
Qed.

Lemma removeTokenFormatting_token s n f rest :
  exec_token s = Some (n, f, rest) ->
  removeTokenFormatting s = bare_token n ++ removeTokenFormatting rest.
Proof.
  intros E. unfold removeTokenFormatting, replace_tokens.
  rewrite (tokenize_token _ _ _ _ E). reflexivity.
Qed.

Lemma bare_token_head text :
  (exists token, text = bare_token token) ->
  exists h t, text = h :: t /\ h <> lbrace.
Proof.
  intros [token ->]. exists dollar, (lbrace :: token ++ [rbrace]).
  split; [reflexivity|discriminate].
Qed.

(** Scanning the normal form finds the same tokens, without formats. *)
Lemma tokenize_removeTokenFormatting s :
  tokenize (removeTokenFormatting s) = map strip_format (tokenize s).
Proof.
  induction s as [|c s E IH|s n f rest E IH] using tokenize_ind.
  - reflexivity.
  - rewrite (removeTokenFormatting_literal _ _ E), (tokenize_literal _ _ E).
    simpl. rewrite <- IH. apply tokenize_literal.
    apply exec_token_none.
    apply (rendered_literal_opens _ bare_token_head c s); [exact E|].
    apply removeTokenFormatting_rendered.
  - rewrite (removeTokenFormatting_token _ _ _ _ E), (tokenize_token _ _ _ _ E).
    simpl. rewrite <- IH. apply tokenize_token.
    destruct (exec_token_inv _ _ _ _ E) as (c & n' & s' & -> & Hlt & Hn & ->).
    unfold bare_token. simpl.
    change (Ascii.eqb dollar dollar) with true.
    change (Ascii.eqb lbrace lbrace) with true. rewrite Hlt. simpl.
    rewrite <- app_assoc. simpl.
    rewrite (name_tail_bare _ _ _ _ Hn (removeTokenFormatting rest)).
    + reflexivity.
    + apply (rendered_closes _ _ _ (removeTokenFormatting_rendered rest)).
Qed.

Lemma replace_tokens_strip pieces :
  flat_map (fun p => match p with
                     | Literal c => [c]
                     | Token name format => bare_token name
                     end) (map strip_format pieces)
  = flat_map (fun p => match p with
                       | Literal c => [c]
                       | Token name format => bare_token name
                       end) pieces.
Proof.
  induction pieces as [|p pieces IH]; simpl; [reflexivity|].
  rewrite IH. destruct p; reflexivity.
Qed.

Lemma removeTokenFormatting_idempotent s :
  removeTokenFormatting (removeTokenFormatting s) = removeTokenFormatting s.
Proof.
  unfold removeTokenFormatting at 1. unfold replace_tokens.
  rewrite tokenize_removeTokenFormatting.
  apply replace_tokens_strip.
Qed.

Lemma removeTokenFormatting_same_tokens s s' :
  map strip_format (tokenize s) = map strip_format (tokenize s') ->
  removeTokenFormatting s = removeTokenFormatting s'.
Proof.
  intros H. unfold removeTokenFormatting, replace_tokens.
  change (fun p => match p with
                   | Literal c => [c]
                   | Token name _ => [dollar; lbrace] ++ name ++ [rbrace]
                   end)
    with (fun p => match p with
                   | Literal c => [c]
                   | Token name _ => bare_token name
                   end).
  rewrite <- (replace_tokens_strip (tokenize s)).
  rewrite <- (replace_tokens_strip (tokenize s')).
  rewrite H. reflexivity.
Qed.

(** ** Registered names *)

Lemma formatters_get_In key m formatter :
  formatters_get key m = Some formatter -> In key (map fst m).
Proof.
  induction m as [|[k f] m IH]; simpl; [discriminate|].
  destruct (jsstring_eqb k key) eqn:E.
  - apply jsstring_eqb_eq in E. auto.
  - auto.
Qed.

Lemma lower_char_letter c : is_letter (lower_char c) = true -> is_letter c = true.
Proof.
  ascii_cases c; vm_compute; auto.
Qed.

Lemma toLowerCase_letters name :
  forallb is_letter (toLowerCase name) = true -> forallb is_letter name = true.
Proof.
  induction name as [|c name IH]; simpl; [reflexivity|].
  intros H. apply andb_true_iff in H. destruct H as [Hc Hn].
  rewrite (lower_char_letter _ Hc). simpl. auto.
Qed.

Lemma registered_keys_letters :
  Forall (fun key => forallb is_letter key = true) (map fst formatters).
Proof.
  assert (H : forallb (forallb is_letter) (map fst formatters) = true)
    by (vm_compute; reflexivity).
  rewrite forallb_forall in H. rewrite Forall_forall. exact H.
Qed.

Lemma registered_letters name :
  isRegisteredToken name = true -> forallb is_letter name = true.
Proof.
  intros H. apply isRegisteredToken_got in H. destruct H as [formatter H].
  apply formatters_get_In in H. apply toLowerCase_letters.
  pose proof registered_keys_letters as K. rewrite Forall_forall in K.
  apply K, H.
Qed.

Lemma letter_is_plain c :
  is_letter c = true ->
  is_invalid_char c = false /\ Ascii.eqb c slash = false.
Proof.
  ascii_cases c; vm_compute; auto; discriminate.
Qed.

Lemma letters_no_invalid_char name :
  forallb is_letter name = true -> has_invalid_char name = false.
Proof.
  unfold has_invalid_char.
  induction name as [|c name IH]; simpl; [reflexivity|].
  intros H. apply andb_true_iff in H. destruct H as [Hc Hn].
  destruct (letter_is_plain _ Hc) as [-> _]. simpl. auto.
Qed.

Lemma letters_no_slash name :
  forallb is_letter name = true ->
  forallb (fun c => negb (Ascii.eqb c slash)) name = true.
Proof.
  induction name as [|c name IH]; simpl; [reflexivity|].
  intros H. apply andb_true_iff in H. destruct H as [Hc Hn].
  destruct (letter_is_plain _ Hc) as [_ ->]. simpl. auto.
Qed.

Lemma trimEnd_last u c sep :
  trimEnd (u ++ [c]) sep = if Ascii.eqb c sep then u else u ++ [c].
Proof.
  unfold trimEnd. rewrite rev_app_distr. simpl.
  destruct (Ascii.eqb c sep).
  - apply rev_involutive.
  - simpl. rewrite rev_involutive. reflexivity.
Qed.

Lemma split_without_separator sep str :
  forallb (fun c => negb (Ascii.eqb c sep)) str = true ->
  split sep str = [str].
Proof.
  induction str as [|c str IH]; simpl; [reflexivity|].
  intros H. apply andb_true_iff in H. destruct H as [Hc Hs].
  apply negb_true_iff in Hc. rewrite Hc, (IH Hs). reflexivity.
Qed.

Lemma validate_name_bare name :
  forallb is_letter name = true -> validate_name (bare_token name) = [].
Proof.
  intros H. unfold validate_name.
  destruct (jsstring_eqb (bare_token name) (js ".")) eqn:E1.
  { apply jsstring_eqb_eq in E1. discriminate. }
  destruct (jsstring_eqb (bare_token name) (js "..")) eqn:E2.
  { apply jsstring_eqb_eq in E2. discriminate. }
  simpl. unfold has_invalid_char. simpl.
  rewrite existsb_app. fold (has_invalid_char name).
  rewrite (letters_no_invalid_char _ H). simpl.
  unfold trailing_dot_or_space.
  replace (rev (bare_token name))
    with (rbrace :: rev (dollar :: lbrace :: name)); [reflexivity|].
  change (bare_token name) with ((dollar :: lbrace :: name) ++ [rbrace]).
  rewrite rev_app_distr. reflexivity.
Qed.

Lemma validateFilename_bare name :
  tokenize (bare_token name) = [Token name None] ->
  isRegisteredToken name = true ->
  validateFilename (bare_token name) true = [].
Proof.
  intros Ht Hr. unfold validateFilename.
  assert (Hn : removeTokenFormatting (bare_token name) = bare_token name).
  { unfold removeTokenFormatting, replace_tokens. rewrite Ht. simpl.
    rewrite app_nil_r. reflexivity. }
  rewrite Hn. unfold validateTokens. rewrite Ht. simpl. rewrite Hr.
  apply validate_name_bare, registered_letters, Hr.
Qed.

Lemma validatePath_bare name :
  tokenize (bare_token name) = [Token name None] ->
  isRegisteredToken name = true ->
  validatePath (bare_token name) = [].
Proof.
  intros Ht Hr. unfold validatePath.
  assert (Hn : removeTokenFormatting (bare_token name) = bare_token name).
  { unfold removeTokenFormatting, replace_tokens. rewrite Ht. simpl.
    rewrite app_nil_r. reflexivity. }
  rewrite Hn. unfold validateTokens. rewrite Ht. simpl first_unregistered.
  rewrite Hr.
  change (trimStart (bare_token name) slash) with (bare_token name).
  assert (He : trimEnd (bare_token name) slash = bare_token name).
  { change (bare_token name) with ((dollar :: lbrace :: name) ++ [rbrace]).
    rewrite trimEnd_last. reflexivity. }
  rewrite He. rewrite split_without_separator.
  - cbn [first_part_error]. rewrite (validateFilename_bare _ Ht Hr).
    reflexivity.
  - unfold bare_token. simpl. rewrite forallb_app.
    rewrite (letters_no_slash _ (registered_letters _ Hr)). reflexivity.
Qed.

(** C10: scanning the rewritten string finds the same tokens with their
    formats gone; validateFilename (tokens allowed) and validatePath give a
    string and its rewritten form the same answer, hence the same answer to
    two strings whose tokens differ in their formats only; and a token of a
    registered name with any format the regular expression matches is a
    valid file name and a valid path of one segment, whatever characters
    the format holds. *)
Theorem format_specifier_is_ignored :
  (forall s,
      tokenize (removeTokenFormatting s) = map strip_format (tokenize s))
  /\ (forall s,
         validateFilename s true
         = validateFilename (removeTokenFormatting s) true
         /\ validatePath s = validatePath (removeTokenFormatting s))
  /\ (forall s s',
         map strip_format (tokenize s) = map strip_format (tokenize s') ->
         validateFilename s true = validateFilename s' true
         /\ validatePath s = validatePath s')
  /\ (forall s name format,
         tokenize s = [Token name (Some format)] ->
         isRegisteredToken name = true ->
         removeTokenFormatting s = bare_token name
         /\ validateFilename s true = []
         /\ validatePath s = []
         /\ split slash (removeTokenFormatting s) = [bare_token name]).
Proof.
  split; [apply tokenize_removeTokenFormatting|].
  split.
  { intros s. unfold validateFilename, validatePath.
    rewrite removeTokenFormatting_idempotent. split; reflexivity. }
  split.
  { intros s s' H. apply removeTokenFormatting_same_tokens in H.
    unfold validateFilename, validatePath. rewrite H. split; reflexivity. }
  intros s name format Ht Hr.
  assert (Hn : removeTokenFormatting s = bare_token name).
  { unfold removeTokenFormatting, replace_tokens. rewrite Ht. simpl.
    rewrite app_nil_r. reflexivity. }
  assert (Hb : tokenize (bare_token name) = [Token name None]).
  { rewrite <- Hn, tokenize_removeTokenFormatting, Ht. reflexivity. }
  split; [exact Hn|].
  assert (Hf : validateFilename s true
               = validateFilename (removeTokenFormatting s) true).
  { unfold validateFilename. rewrite removeTokenFormatting_idempotent.
    reflexivity. }
  assert (Hp : validatePath s = validatePath (removeTokenFormatting s)).
  { unfold validatePath. rewrite removeTokenFormatting_idempotent.
    reflexivity. }
  rewrite Hf, Hp, Hn.
  split; [apply validateFilename_bare; assumption|].
  split; [apply validatePath_bare; assumption|].
  apply split_without_separator. unfold bare_token. simpl.
  rewrite forallb_app.
  rewrite (letters_no_slash _ (registered_letters _ Hr)). reflexivity.
Qed.

Lemma format_specifier_is_ignored_witness :
  let s := js "${DATE:YYYY/MM:*?<>|}" in
  tokenize s = [Token (js "DATE") (Some (js "YYYY/MM:*?<>|"))]
  /\ isRegisteredToken (js "DATE") = true
  /\ validateFilename s true = []
  /\ validatePath s = [].
Proof.
  intros s.
  assert (Ht : tokenize s = [Token (js "DATE") (Some (js "YYYY/MM:*?<>|"))])
    by (vm_compute; reflexivity).
  assert (Hr : isRegisteredToken (js "DATE") = true)
    by (vm_compute; reflexivity).
  split; [exact Ht|]. split; [exact Hr|].
  destruct (proj2 (proj2 (proj2 format_specifier_is_ignored))
              s (js "DATE") (js "YYYY/MM:*?<>|") Ht Hr)
    as (_ & Hf & Hp & _).
  split; assumption.
Defined.

(** ** Paths *)

(** A match is the text of a token: dollar, opening brace, the name, the
    colon and the format when the group took part, closing brace. *)
Lemma format_tail_shape s :
  forall f rest, format_tail s = Some (f, rest) -> s = f ++ rbrace :: rest.
Proof.
  induction s as [|c s IH]; intros f rest H; simpl in H; [discriminate|].
  destruct (Ascii.eqb c rbrace) eqn:E.
  - apply Ascii.eqb_eq in E. injection H as <- <-. subst. reflexivity.
  - destruct (is_line_terminator c); [discriminate|].
    destruct (format_tail s) as [[f' rest']|]; [|discriminate].
    injection H as <- <-. simpl. f_equal. apply IH. reflexivity.
Qed.

Lemma match_format_shape s f rest :
  match_format s = Some (f, rest) -> s = f ++ rbrace :: rest.
Proof.
  destruct s as [|c s]; simpl; [discriminate|].
  destruct (is_line_terminator c); [discriminate|].
  destruct (format_tail s) as [[f' rest']|] eqn:E; [|discriminate].
  intros H. injection H as <- <-. simpl. f_equal.
  apply format_tail_shape, E.
Qed.

Lemma name_tail_shape s :
  forall n f rest,
    name_tail s = Some (n, f, rest) ->
    s = n ++ format_text f ++ rbrace :: rest.
Proof.
  induction s as [|c s IH]; intros n f rest H; simpl in H; [discriminate|].
  assert (L : (if is_line_terminator c then None
               else match name_tail s with
                    | Some (n, f, rest) => Some (c :: n, f, rest)
                    | None => None
                    end) = Some (n, f, rest) ->
              c :: s = n ++ format_text f ++ rbrace :: rest).
  { destruct (is_line_terminator c); [discriminate|].
    destruct (name_tail s) as [[[n' f'] rest']|]; [|discriminate].
    intros H'. injection H' as <- <- <-. simpl. f_equal. apply IH.
    reflexivity. }
  destruct (Ascii.eqb c colon) eqn:Ec.
  - destruct (match_format s) as [[f' rest']|] eqn:E; [|auto].
    apply Ascii.eqb_eq in Ec. injection H as <- <- <-. subst c. simpl.
    f_equal. apply match_format_shape, E.
  - destruct (Ascii.eqb c rbrace) eqn:Eb; [|auto].
    apply Ascii.eqb_eq in Eb. injection H as <- <- <-. subst c. reflexivity.
Qed.

Lemma exec_token_shape s n f rest :
  exec_token s = Some (n, f, rest) ->
  s = (dollar :: lbrace :: n ++ format_text f ++ [rbrace]) ++ rest.
Proof.
  intros H. destruct (exec_token_inv _ _ _ _ H)
    as (c & n' & s' & -> & _ & Hn & ->).
  apply name_tail_shape in Hn. rewrite Hn. simpl.
  rewrite <- !app_assoc. reflexivity.
Qed.





















(** The name of a match is never empty, so the test [if (unknownToken)]
    only tells [null] from a token. *)
Lemma tokenize_names (s : jsstring) :
  forall name format, In (Token name format) (tokenize s) -> name <> [].
Proof.
  induction s as [|c s E IH|s n f rest E IH] using tokenize_ind;
    intros name format Hin.
  - destruct Hin.
  - rewrite (tokenize_literal _ _ E) in Hin.
    destruct Hin as [Hin|Hin]; [discriminate|eauto].
  - rewrite (tokenize_token _ _ _ _ E) in Hin.
    destruct Hin as [Hin|Hin]; [|eauto].
    injection Hin as <- _.
    destruct (exec_token_inv _ _ _ _ E) as (c & n' & s' & _ & _ & _ & ->).
    discriminate.
Qed.

Lemma first_unregistered_In pieces token :
  first_unregistered pieces = Some token ->
  exists format, In (Token token format) pieces.
Proof.
  induction pieces as [|p pieces IH]; simpl; [discriminate|].
  destruct p as [c|name format].
  - intros H. destruct (IH H) as [f Hf]. eauto.
  - destruct (isRegisteredToken name).
    + intros H. destruct (IH H) as [f Hf]. eauto.
    + intros H. injection H as <-. eauto.
Qed.

Lemma validateTokens_named s token :
  validateTokens s = Some token -> exists c rest, token = c :: rest.
Proof.
  intros H. apply first_unregistered_In in H. destruct H as [format H].
  apply tokenize_names in H. destruct token as [|c rest]; [contradiction|].
  eauto.
Qed.






(** * Further properties *)

(** ** isNote *)

Lemma lower_char_idempotent c : lower_char (lower_char c) = lower_char c.
Proof. ascii_cases c; vm_compute; reflexivity. Qed.

Lemma toLowerCase_idempotent s : toLowerCase (toLowerCase s) = toLowerCase s.
Proof.
  induction s as [|c s IH]; simpl; [reflexivity|].
  rewrite lower_char_idempotent, IH. reflexivity.
Qed.

(** X1: isNote looks at the extension only, whatever its letter case;
    [null], a folder, and a file whose extension holds anything but letters
    are not notes. *)
Theorem isNote_ignores_case :
  forall path extension,
    isNote (SomeFile path (toLowerCase extension))
    = isNote (SomeFile path extension)
    /\ (forall other, isNote (SomeFile other extension)
                      = isNote (SomeFile path extension))
    /\ (isNote (SomeFile path extension) = true ->
        forallb is_letter extension = true)
    /\ isNote NoFile = false
    /\ isNote (SomeFolder path) = false.
Proof.
  intros path extension. split.
  { simpl. rewrite toLowerCase_idempotent. reflexivity. }
  split; [reflexivity|]. split; [|split; reflexivity].
  simpl. intros H. apply toLowerCase_letters.
  apply orb_true_iff in H. destruct H as [H|H];
    apply jsstring_eqb_eq in H; rewrite H; reflexivity.
Qed.

Lemma isNote_ignores_case_witness :
  isNote (SomeFile (js "a/Board.CANVAS") (js "CANVAS")) = true
  /\ forallb is_letter (js "CANVAS") = true.
Proof.
  split; [reflexivity|].
  destruct (isNote_ignores_case (js "a/Board.CANVAS") (js "CANVAS"))
    as (_ & _ & H & _).
  apply H. reflexivity.
Defined.

(** ** createFolderSafe *)

Lemma adapter_exists_head disk path : adapter_exists (path :: disk) path = true.
Proof. unfold adapter_exists. simpl. rewrite jsstring_eqb_refl. reflexivity. Qed.

Lemma adapter_exists_tail disk path other :
  adapter_exists disk path = true -> adapter_exists (other :: disk) path = true.
Proof. unfold adapter_exists. simpl. intros ->. apply orb_true_r. Qed.

Lemma createFolderSafe_again join env disk path addGitKeep :
  adapter_exists disk path = true ->
  (addGitKeep = true ->
   adapter_exists disk (join path (js ".gitkeep")) = true) ->
  createFolderSafe join env disk path addGitKeep = (inr false, disk).
Proof.
  intros Hd Hg. unfold createFolderSafe. rewrite Hd.
  destruct addGitKeep; [|reflexivity]. rewrite (Hg eq_refl). reflexivity.
Qed.

Ltac exists_on_disk :=
  repeat first [ assumption
               | apply adapter_exists_head
               | apply adapter_exists_tail ].

(** X2: when createFolderSafe returns, it answers whether it had to create
    the folder, the folder exists, so does the .gitkeep file when it was
    asked for, nothing that existed is gone, and calling it again changes
    nothing and answers false. *)
Theorem createFolderSafe_postcondition :
  forall join env disk path addGitKeep result disk',
    createFolderSafe join env disk path addGitKeep = (inr result, disk') ->
    result = negb (adapter_exists disk path)
    /\ adapter_exists disk' path = true
    /\ (addGitKeep = true ->
        adapter_exists disk' (join path (js ".gitkeep")) = true)
    /\ (forall other,
           adapter_exists disk other = true ->
           adapter_exists disk' other = true)
    /\ createFolderSafe join env disk' path addGitKeep = (inr false, disk').
Proof.
  intros join env disk path addGitKeep result disk' H.
  assert (A : result = negb (adapter_exists disk path)
              /\ adapter_exists disk' path = true
              /\ (addGitKeep = true ->
                  adapter_exists disk' (join path (js ".gitkeep")) = true)
              /\ (forall other,
                     adapter_exists disk other = true ->
                     adapter_exists disk' other = true)).
  { unfold createFolderSafe in H.
    destruct (adapter_exists disk path) eqn:E;
      [|destruct (mkdir_outcome env) as [|[|]]];
      destruct addGitKeep; cbv iota beta in H; try discriminate;
      try (match type of H with
           | context [adapter_exists ?d (join path ?g)] =>
               destruct (adapter_exists d (join path g)) eqn:Eg
           end);
      try (destruct (create_throws env); [discriminate|]);
      injection H as <- <-.
    all: split; [reflexivity|].
    all: split; [exists_on_disk|].
    all: split; [intros Ha; try discriminate; exists_on_disk|].
    all: intros other Ho; exists_on_disk. }
  destruct A as (A1 & A2 & A3 & A4).
  repeat split; try assumption.
  apply createFolderSafe_again; assumption.
Qed.

Lemma createFolderSafe_postcondition_witness :
  let join := fun a b : jsstring => a ++ [slash] ++ b in
  let env := mkFolderEnv (MkdirThrows true) false in
  createFolderSafe join env [js "notes"] (js "notes/img") true
  = (inr true, [js "notes/img/.gitkeep"; js "notes/img"; js "notes"])
  /\ createFolderSafe join env
       [js "notes/img/.gitkeep"; js "notes/img"; js "notes"]
       (js "notes/img") true
     = (inr false, [js "notes/img/.gitkeep"; js "notes/img"; js "notes"]).
Proof.
  intros join env.
  assert (H : createFolderSafe join env [js "notes"] (js "notes/img") true
              = (inr true,
                 [js "notes/img/.gitkeep"; js "notes/img"; js "notes"]))
    by (vm_compute; reflexivity).
  split; [exact H|].
  apply (createFolderSafe_postcondition join env _ _ _ _ _ H).
Defined.

(** X3: the two ways createFolderSafe fails.  The error of mkdir comes out
    only when the folder did not exist, mkdir threw and the folder is still
    not there: nothing was created.  The error of vault.create comes out only
    when .gitkeep was asked for and was missing: by then the folder exists,
    whether it was there or has just been created, the .gitkeep file does
    not, and nothing that existed is gone. *)
Theorem createFolderSafe_failure :
  forall join env disk path addGitKeep error disk',
    createFolderSafe join env disk path addGitKeep = (inl error, disk') ->
    match error with
    | MkdirError =>
        disk' = disk
        /\ adapter_exists disk path = false
        /\ mkdir_outcome env = MkdirThrows false
    | CreateError =>
        addGitKeep = true
        /\ create_throws env = true
        /\ adapter_exists disk' path = true
        /\ adapter_exists disk' (join path (js ".gitkeep")) = false
        /\ (disk' = disk \/ disk' = path :: disk)
    end.
Proof.
  intros join env disk path addGitKeep error disk' H.
  unfold createFolderSafe in H.
  destruct (adapter_exists disk path) eqn:E;
    [|destruct (mkdir_outcome env) as [|[|]]];
    destruct addGitKeep; cbv zeta iota beta in H; try discriminate;
    try (match type of H with
         | context [adapter_exists ?d (join path ?g)] =>
             destruct (adapter_exists d (join path g)) eqn:Eg
         end);
    try (destruct (create_throws env) eqn:Ec); try discriminate;
    injection H as <- <-; repeat split; auto; exists_on_disk.
Qed.

Lemma createFolderSafe_failure_witness :
  let join := fun a b : jsstring => a ++ [slash] ++ b in
  createFolderSafe join (mkFolderEnv (MkdirThrows false) false)
    [js "notes"] (js "notes/img") true
  = (inl MkdirError, [js "notes"])
  /\ adapter_exists [js "notes"] (js "notes/img") = false
  /\ createFolderSafe join (mkFolderEnv MkdirDone true)
       [js "notes"] (js "notes/img") true
     = (inl CreateError, [js "notes/img"; js "notes"])
  /\ adapter_exists [js "notes/img"; js "notes"] (js "notes/img") = true.
Proof.
  intros join.
  assert (H1 : createFolderSafe join (mkFolderEnv (MkdirThrows false) false)
                 [js "notes"] (js "notes/img") true
               = (inl MkdirError, [js "notes"]))
    by (vm_compute; reflexivity).
  assert (H2 : createFolderSafe join (mkFolderEnv MkdirDone true)
                 [js "notes"] (js "notes/img") true
               = (inl CreateError, [js "notes/img"; js "notes"]))
    by (vm_compute; reflexivity).
  split; [exact H1|]. split.
  - apply (createFolderSafe_failure join _ _ _ _ _ _ H1).
  - split; [exact H2|].
    apply (createFolderSafe_failure join _ _ _ _ _ _ H2).
Defined.

(** ** More on applyFileChanges *)

Lemma slice_nonnegative (s : jsstring) a b :
  0 <= a -> 0 <= b ->
  slice s a b
  = firstn (Nat.min (Z.to_nat b) (List.length s)
            - Nat.min (Z.to_nat a) (List.length s))
      (skipn (Nat.min (Z.to_nat a) (List.length s)) s).
Proof.
  intros Ha Hb. unfold slice, clamp_index, jslen.
  destruct (a <? 0) eqn:Ea; [apply Z.ltb_lt in Ea; lia|].
  destruct (b <? 0) eqn:Eb; [apply Z.ltb_lt in Eb; lia|].
  f_equal; [lia|]. f_equal. lia.
Qed.

Lemma slice_from_nonnegative (s : jsstring) a :
  0 <= a ->
  slice_from s a = skipn (Nat.min (Z.to_nat a) (List.length s)) s.
Proof.
  intros Ha. unfold slice_from. rewrite slice_nonnegative by (unfold jslen; lia).
  unfold jslen. rewrite Nat2Z.id, Nat.min_id.
  apply firstn_all2. rewrite length_skipn. lia.
Qed.

Lemma firstn_plus {A} (l : list A) :
  forall a b, firstn (a + b) l = firstn a l ++ firstn b (skipn a l).
Proof.
  induction l as [|x l IH]; intros a b.
  - rewrite !firstn_nil, skipn_nil, firstn_nil. reflexivity.
  - destruct a as [|a]; [reflexivity|]. simpl. rewrite IH. reflexivity.
Qed.

Lemma skipn_plus {A} (l : list A) :
  forall a b, skipn (a + b) l = skipn b (skipn a l).
Proof.
  induction l as [|x l IH]; intros a b.
  - rewrite !skipn_nil. reflexivity.
  - destruct a as [|a]; [reflexivity|]. simpl. apply IH.
Qed.

(** Consecutive slices join. *)
Lemma slice_app (s : jsstring) a b c :
  0 <= a -> a <= b -> b <= c ->
  slice s a b ++ slice s b c = slice s a c.
Proof.
  intros Ha Hab Hbc. rewrite !slice_nonnegative by lia.
  set (n := List.length s).
  set (i := Nat.min (Z.to_nat a) n).
  set (j := Nat.min (Z.to_nat b) n).
  set (k := Nat.min (Z.to_nat c) n).
  assert (Hij : (i <= j)%nat) by (unfold i, j; lia).
  assert (Hjk : (j <= k)%nat) by (unfold j, k; lia).
  replace (k - i)%nat with ((j - i) + (k - j))%nat by lia.
  rewrite firstn_plus. f_equal. f_equal.
  rewrite <- skipn_plus. f_equal. lia.
Qed.

Lemma slice_app_from (s : jsstring) a b :
  0 <= a -> a <= b -> slice s a b ++ slice_from s b = slice_from s a.
Proof.
  intros Ha Hab.
  rewrite slice_nonnegative, !slice_from_nonnegative by lia.
  set (n := List.length s).
  set (i := Nat.min (Z.to_nat a) n).
  set (j := Nat.min (Z.to_nat b) n).
  assert (Hij : (i <= j)%nat) by (unfold i, j; lia).
  replace j with (i + (j - i))%nat at 2 by lia.
  rewrite skipn_plus. apply firstn_skipn.
Qed.

Lemma find_mismatch_none content changes :
  find_mismatch content changes = None
  <-> Forall (fun c => slice content (startIndex c) (endIndex c)
                       = oldContent c) changes.
Proof.
  induction changes as [|c l IH]; simpl.
  - split; [constructor|reflexivity].
  - destruct (jsstring_eqb _ _) eqn:E.
    + apply jsstring_eqb_eq in E. rewrite IH. split.
      * intros H. constructor; assumption.
      * intros H. inversion H; assumption.
    + split; [discriminate|]. intros H. inversion H as [|x l' Hx Hl]; subst.
      apply jsstring_eqb_eq in Hx. congruence.
Qed.

Lemma sort_changes_Forall (P : FileChange -> Prop) l :
  Forall P l -> Forall P (sort_changes l).
Proof.
  induction 1 as [|a l Ha Hl IH]; simpl; [constructor|].
  apply insert_change_Forall; assumption.
Qed.

Lemma drop_repeated_Forall (P : FileChange -> Prop) l :
  Forall P l -> Forall P (drop_repeated l).
Proof.
  intros H. rewrite drop_repeated_unfold. destruct H as [|a l Ha Hl];
    [constructor|].
  constructor; [exact Ha|]. apply drop_after_Forall, Hl.
Qed.

(** What a successful validation tells about the list it returns. *)
Lemma validate_changes_Forall (P : FileChange -> Prop) content changes l :
  validate_changes content changes = inr l ->
  Forall P changes ->
  Forall (fun c => P c
                   /\ slice content (startIndex c) (endIndex c) = oldContent c)
    l
  /\ StronglySorted ends_before l.
Proof.
  intros H HP. apply validate_changes_inr in H. destruct H as (Hm & -> & Ho).
  split; [|apply find_overlap_none_pairwise, Ho].
  apply drop_repeated_Forall, sort_changes_Forall.
  apply find_mismatch_none in Hm. rewrite Forall_forall in *.
  intros c Hc. split; auto.
Qed.

Lemma callback_result content changes :
  snd (applyFileChanges_callback content changes)
  = match validate_changes content changes with
    | inl _ => None
    | inr l => Some (merge_changes content l)
    end.
Proof.
  unfold applyFileChanges_callback.
  destruct (validate_changes content changes); reflexivity.
Qed.

Lemma merge_after_noop content rest :
  forall previous,
    0 <= endIndex previous ->
    Forall (fun c => (newContent c = oldContent c
                      /\ 0 <= startIndex c <= endIndex c)
                     /\ slice content (startIndex c) (endIndex c)
                        = oldContent c) rest ->
    StronglySorted ends_before (previous :: rest) ->
    merge_after content previous rest = slice_from content (endIndex previous).
Proof.
  induction rest as [|next rest IH]; intros previous Hp Hall Hs;
    [reflexivity|].
  inversion Hall as [|x l [[Hnew Hb] Hold] Hrest]; subst.
  inversion Hs as [|x l Hs' Hprev]; subst.
  inversion Hprev as [|x l Hpn _]; subst. unfold ends_before in Hpn.
  simpl. rewrite (IH next) by (try assumption; lia).
  rewrite Hnew, <- Hold.
  rewrite slice_app_from by lia. apply slice_app_from; lia.
Qed.

(** X4: changes that put back the text they expect leave the content as it
    is: when every change has its new text equal to its old text and a
    range with 0 <= startIndex <= endIndex, the callback either reports a
    conflict or returns the content unchanged. *)
Theorem unchanged_text_changes_nothing :
  forall content changes out,
    Forall (fun c => newContent c = oldContent c
                     /\ 0 <= startIndex c <= endIndex c) changes ->
    snd (applyFileChanges_callback content changes) = Some out ->
    out = content.
Proof.
  intros content changes out Hall H. rewrite callback_result in H.
  destruct (validate_changes content changes) as [w|l] eqn:Ev;
    [discriminate|].
  injection H as <-.
  destruct (validate_changes_Forall _ _ _ _ Ev Hall) as [Hl Hs].
  rewrite merge_changes_described. unfold merge_described.
  destruct l as [|first rest]; [apply slice_from_start|].
  inversion Hl as [|x l [[Hnew Hb] Hold] Hrest]; subst.
  rewrite (merge_after_noop content rest first) by (try assumption; lia).
  rewrite Hnew, <- Hold. rewrite slice_app_from by lia.
  rewrite slice_app_from by lia. apply slice_from_start.
Qed.

Lemma unchanged_text_changes_nothing_witness :
  let changes := [ mkFileChange 6 8 (js "GH") (js "GH");
                   mkFileChange 2 4 (js "CD") (js "CD");
                   mkFileChange 20 30 [] [] ] in
  snd (applyFileChanges_callback (js "ABCDEFGHIJ") changes)
  = Some (js "ABCDEFGHIJ").
Proof.
  intros changes.
  assert (H : exists out,
             snd (applyFileChanges_callback (js "ABCDEFGHIJ") changes)
             = Some out)
    by (eexists; vm_compute; reflexivity).
  destruct H as [out H]. rewrite H. f_equal.
  apply (unchanged_text_changes_nothing (js "ABCDEFGHIJ") changes out);
    [|exact H].
  repeat constructor; simpl; lia.
Defined.

(** X5: one change whose range lies inside the content and holds the
    expected text gives the content before the range, the new text, and the
    content after the range; nothing is logged. *)
Theorem single_change_replaces_its_range :
  forall content change,
    0 <= startIndex change <= endIndex change ->
    endIndex change <= jslen content ->
    slice content (startIndex change) (endIndex change) = oldContent change ->
    applyFileChanges_callback content [change]
    = ([], Some (firstn (Z.to_nat (startIndex change)) content
                   ++ newContent change
                   ++ skipn (Z.to_nat (endIndex change)) content))
    /\ oldContent change
       = firstn (Z.to_nat (endIndex change - startIndex change))
           (skipn (Z.to_nat (startIndex change)) content).
Proof.
  intros content change Hb He Hold. unfold jslen in He.
  assert (Hv : validate_changes content [change] = inr [change]).
  { unfold validate_changes. simpl find_mismatch.
    rewrite Hold, jsstring_eqb_refl. reflexivity. }
  split.
  - unfold applyFileChanges_callback. rewrite Hv.
    rewrite merge_changes_described. simpl.
    rewrite slice_nonnegative, slice_from_nonnegative by lia.
    repeat f_equal; lia.
  - rewrite <- Hold. rewrite slice_nonnegative by lia.
    f_equal; [lia|f_equal; lia].
Qed.

Lemma single_change_replaces_its_range_witness :
  applyFileChanges_callback (js "ABCDEFGHIJ")
    [mkFileChange 2 4 (js "CD") (js "xyz")]
  = ([], Some (firstn 2 (js "ABCDEFGHIJ") ++ js "xyz"
                 ++ skipn 4 (js "ABCDEFGHIJ"))).
Proof.
  apply (single_change_replaces_its_range (js "ABCDEFGHIJ")
           (mkFileChange 2 4 (js "CD") (js "xyz")));
    [simpl; lia|vm_compute; discriminate|reflexivity].
Defined.

Lemma insert_change_permutation a l : Permutation (a :: l) (insert_change a l).
Proof.
  induction l as [|b l IH]; simpl; [reflexivity|].
  destruct (startIndex a - startIndex b <=? 0); [reflexivity|].
  rewrite perm_swap. apply perm_skip, IH.
Qed.

Lemma sort_changes_permutation l : Permutation l (sort_changes l).
Proof.
  induction l as [|a l IH]; simpl; [constructor|].
  rewrite <- insert_change_permutation. apply perm_skip, IH.
Qed.

(** A list has one arrangement by increasing start index when no two of
    its entries start at the same index. *)
Lemma sorted_arrangement_unique :
  forall l1 l2,
    StronglySorted starts_in_order l1 ->
    StronglySorted starts_in_order l2 ->
    Permutation l1 l2 ->
    NoDup (map startIndex l1) ->
    l1 = l2.
Proof.
  induction l1 as [|a l1 IH]; intros l2 H1 H2 HP HN.
  - apply Permutation_nil in HP. congruence.
  - destruct l2 as [|b l2];
      [apply Permutation_sym, Permutation_nil in HP; discriminate|].
    apply StronglySorted_inv in H1. destruct H1 as [H1 Ha].
    apply StronglySorted_inv in H2. destruct H2 as [H2 Hb].
    simpl in HN. apply NoDup_cons_iff in HN. destruct HN as [Hna HN].
    assert (Hab : a = b).
    { assert (Ia : In a (b :: l2))
        by (apply (Permutation_in a HP); left; reflexivity).
      destruct Ia as [E|Ia]; [congruence|].
      assert (Ib : In b (a :: l1))
        by (apply (Permutation_in b (Permutation_sym HP)); left; reflexivity).
      destruct Ib as [E|Ib]; [congruence|].
      rewrite Forall_forall in Ha, Hb.
      pose proof (Ha _ Ib) as Lab. pose proof (Hb _ Ia) as Lba.
      unfold starts_in_order in Lab, Lba.
      exfalso. apply Hna. replace (startIndex a) with (startIndex b) by lia.
      apply in_map, Ib. }
    subst b. f_equal. apply IH; try assumption.
    apply Permutation_cons_inv in HP. exact HP.
Qed.

(** X6: the order in which the changes are listed does not matter when no
    two of them start at the same index: two lists holding the same changes
    give the same new content, or both give none. *)
Theorem listing_order_is_irrelevant :
  forall content changes changes',
    Permutation changes changes' ->
    NoDup (map startIndex changes) ->
    snd (applyFileChanges_callback content changes)
    = snd (applyFileChanges_callback content changes').
Proof.
  intros content changes changes' HP HN. rewrite !callback_result.
  assert (Hs : sort_changes changes = sort_changes changes').
  { apply sorted_arrangement_unique; try apply sort_changes_sorted.
    - rewrite <- !sort_changes_permutation. exact HP.
    - apply (Permutation_NoDup (l := map startIndex changes)); [|exact HN].
      apply Permutation_map, sort_changes_permutation. }
  unfold validate_changes. rewrite <- Hs.
  destruct (find_mismatch content changes) as [w|] eqn:E1;
    destruct (find_mismatch content changes') as [w'|] eqn:E2;
    try reflexivity; exfalso.
  - apply find_mismatch_none in E2.
    assert (E : find_mismatch content changes = None)
      by (apply find_mismatch_none;
          apply (Permutation_Forall (Permutation_sym HP) E2)).
    congruence.
  - apply find_mismatch_none in E1.
    assert (E : find_mismatch content changes' = None)
      by (apply find_mismatch_none; apply (Permutation_Forall HP E1)).
    congruence.
Qed.

Lemma listing_order_is_irrelevant_witness :
  let a := mkFileChange 6 8 (js "GH") (js "gh") in
  let b := mkFileChange 2 4 (js "CD") (js "") in
  let c := mkFileChange 9 9 (js "") (js "--") in
  snd (applyFileChanges_callback (js "ABCDEFGHIJ") [a; b; c])
  = snd (applyFileChanges_callback (js "ABCDEFGHIJ") [c; a; b])
  /\ snd (applyFileChanges_callback (js "ABCDEFGHIJ") [a; b; c])
     = Some (js "ABEFghI--J").
Proof.
  intros a b c. split; [|reflexivity].
  apply (listing_order_is_irrelevant (js "ABCDEFGHIJ") [a; b; c] [c; a; b]).
  - apply Permutation_sym. apply (Permutation_cons_app [a; b] [] c).
    reflexivity.
  - simpl. repeat constructor; simpl; intuition discriminate.
Defined.

(** ** More on processWithRetry *)

(** The three ways an attempt ends. *)
Lemma attempt_cases processFn env i w ok w1 :
  attempt processFn env i w = (ok, w1) ->
  (ok = false
   /\ events w1 = events w ++ [AdapterRead (document w)]
   /\ document w1 = document w
   /\ exists warnings,
       processFn i (document w) = (warnings, None)
       /\ console w1 = console w ++ warnings)
  \/ (ok = false
      /\ exists found,
          found <> document w
          /\ concurrent_edit (env i) = Some found
          /\ events w1
             = events w ++ [AdapterRead (document w); VaultProcess found found]
          /\ document w1 = found)
  \/ (ok = true
      /\ content_at_write env i w = document w
      /\ events w1
         = events w ++ [AdapterRead (document w);
                        VaultProcess (document w) (document w1)]
      /\ exists warnings,
          processFn i (document w) = (warnings, Some (document w1))
          /\ console w1 = console w ++ warnings).
Proof.
  unfold attempt, content_at_write.
  destruct (processFn i (document w)) as [warnings [computed|]].
  - destruct (concurrent_edit (env i)) as [edited|] eqn:Ee.
    + destruct (jsstring_eqb edited (document w)) eqn:E; simpl;
        intros H; injection H as <- <-; simpl.
      * apply jsstring_eqb_eq in E. subst edited. right. right.
        rewrite <- app_assoc. simpl. eauto 8.
      * right. left. split; [reflexivity|]. exists edited.
        rewrite <- app_assoc. simpl. repeat split; try reflexivity.
        intros ->. rewrite jsstring_eqb_refl in E. discriminate.
    + rewrite jsstring_eqb_refl. simpl. intros H. injection H as <- <-.
      simpl. right. right. rewrite <- app_assoc. simpl. eauto 8.
  - intros H. injection H as <- <-. simpl. left. eauto 8.
Qed.

Lemma retry_loop_trace processFn env budget started :
  forall fuel i w outcome w',
    retry_loop fuel (attempt processFn env) budget started i w
    = Some (outcome, w') ->
    exists tail,
      events w' = events w ++ tail
      /\ attempts_trace tail
      /\ match outcome with
         | Completed =>
             exists before snapshot j warnings,
               tail = before ++ [AdapterRead snapshot;
                                 VaultProcess snapshot (document w')]
               /\ Forall leaves_content before
               /\ processFn j snapshot = (warnings, Some (document w'))
         | TimeoutExceeded _ => Forall leaves_content tail
         end.
Proof.
  induction fuel as [|fuel IH]; intros i w outcome w' H; [discriminate|].
  simpl in H. destruct (attempt processFn env i w) as [ok w1] eqn:Ea.
  apply attempt_cases in Ea.
  destruct Ea as [(-> & Hev & Hdoc & _)
                 |[(-> & found & Hne & _ & Hev & Hdoc)
                  |(-> & _ & Hev & warnings & Hp & _)]].
  - destruct (budget <? clock w1 - started)%N.
    + injection H as <- <-. exists [AdapterRead (document w)].
      repeat split; [exact Hev|repeat constructor|repeat constructor].
    + apply IH in H. destruct H as (tail & Ht & Htr & Ho).
      exists (AdapterRead (document w) :: tail). split; [|split].
      * rewrite Ht, Hev, <- app_assoc. reflexivity.
      * constructor. exact Htr.
      * destruct outcome as [|b].
        -- destruct Ho as (before & snapshot & j & ws & -> & Hb & Hj).
           exists (AdapterRead (document w) :: before), snapshot, j, ws.
           repeat split; try assumption. constructor; [exact I|exact Hb].
        -- constructor; [exact I|exact Ho].
  - destruct (budget <? clock w1 - started)%N.
    + injection H as <- <-.
      exists [AdapterRead (document w); VaultProcess found found].
      repeat split; [exact Hev| |repeat constructor].
      apply trace_rejected; [exact Hne|constructor].
    + apply IH in H. destruct H as (tail & Ht & Htr & Ho).
      exists (AdapterRead (document w) :: VaultProcess found found :: tail).
      split; [|split].
      * rewrite Ht, Hev, <- app_assoc. reflexivity.
      * apply trace_rejected; assumption.
      * destruct outcome as [|b].
        -- destruct Ho as (before & snapshot & j & ws & -> & Hb & Hj).
           exists (AdapterRead (document w) :: VaultProcess found found
                     :: before), snapshot, j, ws.
           repeat split; try assumption. repeat constructor. exact Hb.
        -- repeat constructor. exact Ho.
  - injection H as <- <-.
    exists [AdapterRead (document w); VaultProcess (document w) (document w1)].
    repeat split; [exact Hev|apply trace_committed; constructor|].
    exists [], (document w), i, warnings. repeat split; [constructor|exact Hp].
Qed.

(** X7: a run of processWithRetry always ends, and what it did to the store
    is a sequence of attempts, each reading first and then either stopping,
    or writing over exactly the content it read, or putting back unchanged
    the different content it found.  When the run completes, the last two
    events are the read of a snapshot and the write of the content processFn
    computed from that snapshot, which is the final content; before that,
    and in a run that times out, no event changes the content. *)
Theorem processWithRetry_never_overwrites_unread_content :
  forall processFn env retryOptions w,
    exists outcome w' tail,
      processWithRetry processFn env retryOptions w = Some (outcome, w')
      /\ events w' = events w ++ tail
      /\ attempts_trace tail
      /\ match outcome with
         | Completed =>
             exists before snapshot j warnings,
               tail = before ++ [AdapterRead snapshot;
                                 VaultProcess snapshot (document w')]
               /\ Forall leaves_content before
               /\ processFn j snapshot = (warnings, Some (document w'))
         | TimeoutExceeded _ => Forall leaves_content tail
         end.
Proof.
  intros processFn env retryOptions w.
  destruct (processWithRetry_returns processFn env retryOptions w)
    as (outcome & w' & H & _).
  exists outcome, w'. pose proof H as Hrun.
  unfold processWithRetry, retryWithTimeout in H.
  apply retry_loop_trace in H. destruct H as (tail & Ht & Htr & Ho).
  exists tail. auto.
Qed.

Lemma retry_loop_conflict changes env budget started warning :
  let processFn : ProcessFn :=
    fun _ content => applyFileChanges_callback content changes in
  forall fuel i w outcome w',
    validate_changes (document w) changes = inl warning ->
    retry_loop fuel (attempt processFn env) budget started i w
    = Some (outcome, w') ->
    outcome = TimeoutExceeded budget
    /\ document w' = document w
    /\ exists n,
        console w' = console w ++ repeat warning (S n)
        /\ events w' = events w ++ repeat (AdapterRead (document w)) (S n).
Proof.
  intros processFn.
  induction fuel as [|fuel IH]; intros i w outcome w' Hv H; [discriminate|].
  assert (Hp : processFn i (document w) = ([warning], None))
    by (unfold processFn, applyFileChanges_callback; rewrite Hv; reflexivity).
  rewrite (retry_loop_failed _ _ _ _ _ _ _ (attempt_null _ env _ _ _ Hp)) in H.
  set (w1 := after_abandoned env i [warning] w) in *.
  destruct (budget <? clock w1 - started)%N.
  - injection H as <- <-. repeat split. exists O. split; reflexivity.
  - apply IH in H; [|exact Hv]. destruct H as (-> & Hd & n & Hc & He).
    repeat split; [exact Hd|]. exists (S n). split.
    + rewrite Hc. unfold w1. simpl. rewrite <- app_assoc. reflexivity.
    + rewrite He. unfold w1. simpl. rewrite <- app_assoc. reflexivity.
Qed.

(** X8: applyFileChanges from start to end, when the changes offered are the
    same at every attempt and nobody else edits the file.  If the changes
    pass the checks, the first attempt completes the run: the merged content
    is stored, nothing is logged, and the store sees one read and one write.
    If they do not, the run ends with the timeout error of the budget (the
    caller's, or 60000), the file is as it was, and all that happened is one
    read and one copy of the same warning for each attempt. *)
Theorem applyFileChanges_settles :
  forall changes env retryOptions w,
    (forall i, concurrent_edit (env i) = None) ->
    match validate_changes (document w) changes with
    | inr merged =>
        applyFileChanges (fun _ => changes) env retryOptions w
        = Some (Completed,
                {| document := merge_changes (document w) merged;
                   console := console w;
                   events :=
                     events w
                       ++ [AdapterRead (document w);
                           VaultProcess (document w)
                             (merge_changes (document w) merged)];
                   clock := (clock w + Npos (elapsed (env O)))%N |})
    | inl warning =>
        exists w' n,
          applyFileChanges (fun _ => changes) env retryOptions w
          = Some (TimeoutExceeded
                    match timeoutInMilliseconds retryOptions with
                    | Some t => t
                    | None => 60000%N
                    end, w')
          /\ document w' = document w
          /\ console w' = console w ++ repeat warning (S n)
          /\ events w' = events w ++ repeat (AdapterRead (document w)) (S n)
    end.
Proof.
  intros changes env retryOptions w Henv.
  destruct (validate_changes (document w) changes) as [warning|merged] eqn:Ev.
  - unfold applyFileChanges.
    set (processFn := fun (_ : nat) content =>
                        applyFileChanges_callback content changes).
    set (options := spread DEFAULT_RETRY_OPTIONS retryOptions).
    destruct (processWithRetry_returns processFn env options w)
      as (outcome & w' & H & _).
    pose proof H as Hrun. unfold processWithRetry, retryWithTimeout in H.
    apply (retry_loop_conflict changes env _ _ warning) in H; [|exact Ev].
    destruct H as (-> & Hd & n & Hc & He). exists w', n.
    split; [|auto]. rewrite Hrun. f_equal. f_equal. f_equal.
    unfold options, budget_of, spread. simpl.
    destruct (timeoutInMilliseconds retryOptions); reflexivity.
  - unfold applyFileChanges, processWithRetry, retryWithTimeout.
    cbn [retry_loop]. unfold attempt, applyFileChanges_callback.
    rewrite Ev, Henv, jsstring_eqb_refl. cbn [negb].
    rewrite <- app_assoc, app_nil_r. reflexivity.
Qed.

Lemma applyFileChanges_settles_witness :
  let env := fun _ : nat => mkAttemptEnv None 2 in
  let w := mkWorld (js "ABCDEF") [] [] 0 in
  applyFileChanges (fun _ => [mkFileChange 2 4 (js "CD") (js "xyz")]) env
    (mkRetryOptions (Some 5%N)) w
  = Some (Completed,
          mkWorld (js "ABxyzEF") []
            [AdapterRead (js "ABCDEF");
             VaultProcess (js "ABCDEF") (js "ABxyzEF")] 2)
  /\ exists w' n,
      applyFileChanges (fun _ => [mkFileChange 2 4 (js "XX") (js "xyz")]) env
        (mkRetryOptions (Some 5%N)) w
      = Some (TimeoutExceeded 5, w')
      /\ document w' = js "ABCDEF"
      /\ console w'
         = repeat (ContentMismatch 2 4 (js "XX") (js "CD")) (S n)
      /\ events w' = repeat (AdapterRead (js "ABCDEF")) (S n).
Proof.
  intros env w. split.
  - exact (applyFileChanges_settles [mkFileChange 2 4 (js "CD") (js "xyz")]
             env (mkRetryOptions (Some 5%N)) w (fun _ => eq_refl)).
  - exact (applyFileChanges_settles [mkFileChange 2 4 (js "XX") (js "xyz")]
             env (mkRetryOptions (Some 5%N)) w (fun _ => eq_refl)).
Defined.

(** ** More on removeFolderSafe *)

Lemma TAbstractFile_induction (P : TAbstractFile -> Prop) :
  (forall path backlinks stuck, P (TFile path backlinks stuck)) ->
  (forall path stuck children,
      Forall P children -> P (TFolder path stuck children)) ->
  forall node, P node.
Proof.
  intros Hfile Hfolder.
  refine (fix prove (node : TAbstractFile) : P node :=
            match node with
            | TFile path backlinks stuck => Hfile path backlinks stuck
            | TFolder path stuck children =>
                Hfolder path stuck children
                  ((fix each (l : list TAbstractFile) : Forall P l :=
                      match l with
                      | [] => Forall_nil P
                      | n :: l' => Forall_cons n (prove n) (each l')
                      end) children)
            end).
Qed.

Lemma removeFolder_folder vault removedNotePath path stuck children :
  removeFolder vault removedNotePath (TFolder path stuck children)
  = let '(canRemove, kept) :=
      visit_children (removeFolder vault removedNotePath) vault
        removedNotePath children true in
    if canRemove
    then if stuck
         then (false, Some (TFolder path stuck kept))
         else (true, None)
    else (false, Some (TFolder path stuck kept)).
Proof. reflexivity. Qed.

(** The loop of [visit_children] is the loop the array iterator runs. *)
Lemma firstn_length_app {A} (pre rest : list A) :
  firstn (List.length pre) (pre ++ rest) = pre.
Proof.
  rewrite firstn_app, Nat.sub_diag, firstn_all. simpl. apply app_nil_r.
Qed.

Lemma skipn_length_app {A} (pre rest : list A) :
  skipn (List.length pre) (pre ++ rest) = rest.
Proof.
  rewrite skipn_app, Nat.sub_diag, skipn_all. reflexivity.
Qed.

Lemma entry_replaced_at pre child entry rest :
  entry_replaced (List.length pre) entry (pre ++ child :: rest)
  = (pre ++ [entry]) ++ rest.
Proof.
  unfold entry_replaced. rewrite firstn_length_app.
  change (S (List.length pre)) with (1 + List.length pre)%nat.
  rewrite <- skipn_skipn, skipn_length_app, <- app_assoc. reflexivity.
Qed.

Lemma entry_removed_at pre child rest :
  entry_removed (List.length pre) (pre ++ child :: rest) = pre ++ rest.
Proof.
  unfold entry_removed. rewrite firstn_length_app.
  change (S (List.length pre)) with (1 + List.length pre)%nat.
  rewrite <- skipn_skipn, skipn_length_app. reflexivity.
Qed.

Lemma nth_error_at {A} (pre : list A) child rest :
  nth_error (pre ++ child :: rest) (List.length pre) = Some child.
Proof. rewrite nth_error_app2, Nat.sub_diag by lia. reflexivity. Qed.

Lemma length_snoc {A} (pre : list A) x :
  List.length (pre ++ [x]) = S (List.length pre).
Proof. rewrite length_app. simpl. lia. Qed.

Lemma for_of_children_visit recur vault removedNotePath :
  forall steps rest pre kept canRemove,
    (List.length rest <= steps)%nat ->
    for_of_children recur vault removedNotePath steps (pre ++ rest) kept
      (List.length pre) canRemove
    = let '(c, remaining) :=
        visit_children recur vault removedNotePath rest canRemove in
      (c, match vault with
          | InPlace => pre ++ remaining
          | NewArray => kept ++ remaining
          end).
Proof.
  induction steps as [|steps IH]; intros rest pre kept canRemove Hs.
  - destruct rest; [|simpl in Hs; lia]. simpl. rewrite !app_nil_r.
    reflexivity.
  - destruct rest as [|child rest].
    + cbn [for_of_children visit_children]. rewrite app_nil_r.
      rewrite (proj2 (nth_error_None pre (List.length pre))) by lia.
      rewrite !app_nil_r. reflexivity.
    + simpl in Hs.
      assert (Hstays : forall entry c,
                 for_of_children recur vault removedNotePath steps
                   (entry_replaced (List.length pre) entry
                      (pre ++ child :: rest))
                   (kept ++ [entry]) (S (List.length pre)) c
                 = let '(c', remaining) :=
                     visit_children recur vault removedNotePath rest c in
                   (c', match vault with
                        | InPlace => pre ++ entry :: remaining
                        | NewArray => kept ++ entry :: remaining
                        end)).
      { intros entry c. rewrite entry_replaced_at, <- (length_snoc pre entry).
        rewrite IH by lia.
        destruct (visit_children recur vault removedNotePath rest c).
        rewrite <- !app_assoc. reflexivity. }
      assert (Hdeleted : forall c,
                 for_of_children recur vault removedNotePath steps
                   match vault with
                   | InPlace =>
                       entry_removed (List.length pre) (pre ++ child :: rest)
                   | NewArray => pre ++ child :: rest
                   end
                   kept (S (List.length pre)) c
                 = let '(c', remaining) :=
                     match vault, rest with
                     | InPlace, passed_over :: rest' =>
                         let '(c', remaining) :=
                           visit_children recur vault removedNotePath rest' c in
                         (c', passed_over :: remaining)
                     | _, _ =>
                         visit_children recur vault removedNotePath rest c
                     end in
                   (c', match vault with
                        | InPlace => pre ++ remaining
                        | NewArray => kept ++ remaining
                        end)).
      { intros c. destruct vault.
        - change (pre ++ child :: rest) with (pre ++ [child] ++ rest).
          rewrite app_assoc, <- (length_snoc pre child). rewrite IH by lia.
          reflexivity.
        - rewrite entry_removed_at. destruct rest as [|passed_over rest'].
          + rewrite app_nil_r.
            destruct steps; cbn [for_of_children visit_children].
            * rewrite app_nil_r. reflexivity.
            * rewrite (proj2 (nth_error_None pre (S (List.length pre))))
                by lia.
              rewrite app_nil_r. reflexivity.
          + change (pre ++ passed_over :: rest')
              with (pre ++ [passed_over] ++ rest').
            rewrite app_assoc, <- (length_snoc pre passed_over). simpl in Hs.
            rewrite IH by lia.
            destruct (visit_children recur InPlace removedNotePath rest' c).
            rewrite <- app_assoc. reflexivity. }
      cbn [for_of_children]. rewrite nth_error_at.
      destruct child as [q backlinks st|q st cs].
      * cbn [visit_children].
        destruct (still_used backlinks removedNotePath);
          [|destruct st].
        -- rewrite Hstays.
           destruct (visit_children recur vault removedNotePath rest false).
           reflexivity.
        -- rewrite Hstays.
           destruct (visit_children recur vault removedNotePath rest false).
           reflexivity.
        -- apply Hdeleted.
      * cbn [visit_children]. destruct canRemove.
        -- destruct (recur (TFolder q st cs)) as [ok [residue|]].
           ++ rewrite Hstays.
              destruct (visit_children recur vault removedNotePath rest ok).
              reflexivity.
           ++ apply Hdeleted.
        -- rewrite Hstays.
           destruct (visit_children recur vault removedNotePath rest false).
           reflexivity.
Qed.

(** [removeFolder] on a folder runs the loop of the array iterator over
    [folder.children] from index 0. *)
Lemma removeFolder_runs_the_loop vault removedNotePath path stuck children :
  removeFolder vault removedNotePath (TFolder path stuck children)
  = let '(canRemove, kept) :=
      for_of_children (removeFolder vault removedNotePath) vault
        removedNotePath (List.length children) children [] O true in
    if canRemove
    then if stuck
         then (false, Some (TFolder path stuck kept))
         else (true, None)
    else (false, Some (TFolder path stuck kept)).
Proof.
  rewrite removeFolder_folder.
  rewrite (for_of_children_visit _ vault removedNotePath
             (List.length children) children [] [] true (le_n _)).
  destruct (visit_children _ vault removedNotePath children true) as [c remaining].
  destruct vault; reflexivity.
Qed.

Lemma removeFolder_gone vault removedNotePath node :
  snd (removeFolder vault removedNotePath node) = None
  <-> fst (removeFolder vault removedNotePath node) = true.
Proof.
  destruct node as [p backlinks stuck|p stuck children].
  - simpl. split; discriminate.
  - rewrite removeFolder_folder.
    destruct (visit_children _ vault removedNotePath children true)
      as [c kept].
    destruct c; [destruct stuck|]; simpl; split; congruence.
Qed.

Lemma used_paths_folder removedNotePath path stuck children :
  used_paths removedNotePath (TFolder path stuck children)
  = flat_map (used_paths removedNotePath) children.
Proof.
  simpl. induction children as [|n l IH]; simpl; [reflexivity|].
  rewrite IH. reflexivity.
Qed.

Lemma file_paths_folder path stuck children :
  file_paths (TFolder path stuck children) = flat_map file_paths children.
Proof.
  simpl. induction children as [|n l IH]; simpl; [reflexivity|].
  rewrite IH. reflexivity.
Qed.

Lemma removable_folder removedNotePath path stuck children :
  removable removedNotePath (TFolder path stuck children)
  = negb stuck && forallb (removable removedNotePath) children.
Proof. reflexivity. Qed.

Lemma visit_children_file recur removedNotePath p backlinks stuck rest c0 :
  visit_children recur NewArray removedNotePath
    (TFile p backlinks stuck :: rest) c0
  = if still_used backlinks removedNotePath
    then let '(c, kept) :=
           visit_children recur NewArray removedNotePath rest false in
         (c, TFile p backlinks stuck :: kept)
    else if stuck
         then let '(c, kept) :=
                visit_children recur NewArray removedNotePath rest false in
              (c, TFile p backlinks stuck :: kept)
         else visit_children recur NewArray removedNotePath rest c0.
Proof. reflexivity. Qed.

Lemma visit_children_folder recur removedNotePath p stuck cs rest c0 :
  visit_children recur NewArray removedNotePath
    (TFolder p stuck cs :: rest) c0
  = if c0
    then match recur (TFolder p stuck cs) with
         | (ok, Some residue) =>
             let '(c, kept) :=
               visit_children recur NewArray removedNotePath rest ok in
             (c, residue :: kept)
         | (ok, None) => visit_children recur NewArray removedNotePath rest ok
         end
    else let '(c, kept) :=
           visit_children recur NewArray removedNotePath rest false in
         (c, TFolder p stuck cs :: kept).
Proof. reflexivity. Qed.

Lemma removable_nothing_used removedNotePath :
  forall node,
    removable removedNotePath node = true ->
    used_paths removedNotePath node = [].
Proof.
  induction node as [p backlinks stuck|p stuck children IH]
    using TAbstractFile_induction.
  - simpl. destruct (still_used backlinks removedNotePath);
      [discriminate|reflexivity].
  - rewrite removable_folder, used_paths_folder.
    intros H. apply andb_true_iff in H. destruct H as [_ H].
    induction IH as [|child rest Hchild Hrest IHrest]; [reflexivity|].
    simpl in H. apply andb_true_iff in H. destruct H as [Hc Hr].
    simpl. rewrite (Hchild Hc), (IHrest Hr). reflexivity.
Qed.

(** What a call leaves when the array the loop reads stays as it was: the
    flag tells whether the folder is gone, it is
    the test [removable] on a folder, the files still used are all there,
    and no file is there that was not there before. *)
Lemma removeFolder_described removedNotePath :
  forall node,
    let result := removeFolder NewArray removedNotePath node in
    (snd result = None <-> fst result = true)
    /\ match node with
       | TFile _ _ _ => result = (false, Some node)
       | TFolder _ _ _ => fst result = removable removedNotePath node
       end
    /\ flat_map (used_paths removedNotePath) (residue_list (snd result))
       = used_paths removedNotePath node
    /\ incl (flat_map file_paths (residue_list (snd result)))
         (file_paths node).
Proof.
  induction node as [p backlinks stuck|p stuck children IH]
    using TAbstractFile_induction; intros result.
  - subst result. simpl. repeat split; try discriminate.
    + apply app_nil_r.
    + apply incl_refl.
  - assert (Hv : forall c0,
               let '(c, kept) :=
                 visit_children (removeFolder NewArray removedNotePath) NewArray
                   removedNotePath
                   children c0 in
               c = c0 && forallb (removable removedNotePath) children
               /\ flat_map (used_paths removedNotePath) kept
                  = flat_map (used_paths removedNotePath) children
               /\ incl (flat_map file_paths kept)
                    (flat_map file_paths children)).
    { induction IH as [|child rest Hchild Hrest IHrest]; intros c0.
      - simpl. rewrite andb_true_r. repeat split. apply incl_refl.
      - destruct child as [q backlinks st|q st cs].
        + rewrite visit_children_file. cbn [forallb flat_map].
          cbn [removable used_paths file_paths].
          destruct (still_used backlinks removedNotePath) eqn:Eu.
          * specialize (IHrest false).
            destruct (visit_children _ _ _ rest false) as [c kept].
            destruct IHrest as (-> & Hu & Hi). cbn [flat_map used_paths].
            cbn [file_paths]. rewrite Eu, Hu. repeat split.
            -- rewrite andb_false_r. reflexivity.
            -- simpl. apply incl_cons; [left; reflexivity|].
               apply incl_tl, Hi.
          * destruct st.
            -- specialize (IHrest false).
               destruct (visit_children _ _ _ rest false) as [c kept].
               destruct IHrest as (-> & Hu & Hi). cbn [flat_map used_paths].
               cbn [file_paths]. rewrite Eu, Hu. repeat split.
               ++ rewrite andb_false_r. reflexivity.
               ++ simpl. apply incl_cons; [left; reflexivity|].
                  apply incl_tl, Hi.
            -- specialize (IHrest c0).
               destruct (visit_children _ _ _ rest c0) as [c kept].
               destruct IHrest as (-> & Hu & Hi). repeat split.
               ++ exact Hu.
               ++ simpl. apply incl_tl, Hi.
        + rewrite visit_children_folder. cbn [forallb flat_map].
          destruct Hchild as (Hnone & Hfst & Hused & Hincl).
          destruct c0.
          * destruct (removeFolder NewArray removedNotePath (TFolder q st cs))
              as [ok [residue|]] eqn:Er; cbn [fst snd residue_list] in *.
            -- specialize (IHrest ok).
               destruct (visit_children _ _ _ rest ok) as [c kept].
               destruct IHrest as (-> & Hu & Hi). cbn [flat_map] in *.
               rewrite app_nil_r in Hused, Hincl.
               rewrite Hu, Hused, Hfst. repeat split.
               apply incl_app; [apply incl_appl, Hincl|apply incl_appr, Hi].
            -- specialize (IHrest ok).
               destruct (visit_children _ _ _ rest ok) as [c kept].
               destruct IHrest as (-> & Hu & Hi). cbn [flat_map] in *.
               rewrite Hu, <- Hused, Hfst. repeat split.
               apply incl_appr, Hi.
          * specialize (IHrest false).
            destruct (visit_children _ _ _ rest false) as [c kept].
            destruct IHrest as (-> & Hu & Hi). cbn [flat_map].
            rewrite Hu. repeat split.
            apply incl_app; [apply incl_appl, incl_refl|apply incl_appr, Hi]. }
    subst result. rewrite removeFolder_folder, removable_folder.
    rewrite used_paths_folder, file_paths_folder.
    specialize (Hv true).
    destruct (visit_children _ _ _ children true) as [c kept].
    destruct Hv as (-> & Hu & Hi). cbn [andb].
    destruct (forallb (removable removedNotePath) children) eqn:Ef.
    + destruct stuck; cbn [fst snd residue_list flat_map negb andb].
      * rewrite used_paths_folder, file_paths_folder, !app_nil_r.
        repeat split; try discriminate; assumption.
      * repeat split; try reflexivity.
        -- symmetry.
           apply (removable_nothing_used removedNotePath
                    (TFolder p false children)).
           rewrite removable_folder, Ef. reflexivity.
        -- apply incl_nil_l.
    + rewrite andb_false_r. cbn [fst snd residue_list flat_map].
      rewrite used_paths_folder, file_paths_folder, !app_nil_r.
      repeat split; try discriminate; assumption.
Qed.

Lemma used_paths_are_file_paths removedNotePath :
  forall node, incl (used_paths removedNotePath node) (file_paths node).
Proof.
  induction node as [p backlinks stuck|p stuck children IH]
    using TAbstractFile_induction.
  - simpl. destruct (still_used backlinks removedNotePath);
      [apply incl_refl|apply incl_nil_l].
  - rewrite used_paths_folder, file_paths_folder.
    induction IH as [|child rest Hchild Hrest IHrest]; [apply incl_refl|].
    simpl. apply incl_app; [apply incl_appl, Hchild|apply incl_appr, IHrest].
Qed.

(** X9: the answer of removeFolderSafe.  Whichever way the vault takes a
    deleted entry out of folder.children, the folder is gone exactly when
    the answer is true, and at a path that holds a file, or nothing, the
    answer is false and nothing changes.  When the array the loop reads
    stays as it was, the answer on a folder is true exactly when nothing in
    the folder has to stay: no file below it is still used by a note other
    than the removed one, and no deletion below it or of the folder itself
    fails.  When the vault edits that array in place, the answer can be true
    with something below that has to stay: in a folder that holds a file
    nothing uses and, after it, any entry at all, the entry is passed over,
    the answer is true and the folder is deleted with the entry in it. *)
Theorem removeFolderSafe_answer :
  forall removedNotePath,
    (forall vault path stuck children,
        let result :=
          removeFolderSafe vault (Some (TFolder path stuck children))
            removedNotePath in
        snd result = None <-> fst result = true)
    /\ (forall vault path backlinks stuck,
           removeFolderSafe vault (Some (TFile path backlinks stuck))
             removedNotePath
           = (false, Some (TFile path backlinks stuck)))
    /\ (forall vault, removeFolderSafe vault None removedNotePath = (false, None))
    /\ (forall path stuck children,
           fst (removeFolderSafe NewArray (Some (TFolder path stuck children))
                  removedNotePath)
           = removable removedNotePath (TFolder path stuck children))
    /\ (forall path file backlinks entry,
           still_used backlinks removedNotePath = false ->
           removeFolderSafe InPlace
             (Some (TFolder path false [TFile file backlinks false; entry]))
             removedNotePath
           = (true, None)).
Proof.
  intros removedNotePath. split; [|split; [|split; [|split]]].
  - intros vault path stuck children result. apply removeFolder_gone.
  - reflexivity.
  - reflexivity.
  - intros path stuck children.
    destruct (removeFolder_described removedNotePath
                (TFolder path stuck children)) as (_ & Hfst & _).
    exact Hfst.
  - intros path file backlinks entry H. unfold removeFolderSafe.
    rewrite removeFolder_folder. cbn [visit_children]. rewrite H.
    reflexivity.
Qed.

Lemma removeFolderSafe_answer_witness :
  let used := TFile (js "img/a.png") [js "other.md"] false in
  let free := TFile (js "img/c.png") [] false in
  removeFolderSafe InPlace (Some (TFolder (js "img") false [free; used])) None
  = (true, None)
  /\ removable None (TFolder (js "img") false [free; used]) = false
  /\ removeFolderSafe NewArray (Some (TFolder (js "img") false [free; used]))
       None
     = (false, Some (TFolder (js "img") false [used])).
Proof.
  intros used free. split; [|split; reflexivity].
  apply (proj2 (proj2 (proj2 (proj2 (removeFolderSafe_answer None))))).
  reflexivity.
Defined.

(** X10: when the array the loop reads stays as it was, a file that another
    note still uses outlives the call, wherever it lies below the folder:
    the call answers false, the folder is still there, the files still used
    are the same as before, in the same order, and no file is below the
    folder that was not there before.  When the vault edits that array in
    place this fails: a file still used that comes after a file nothing
    uses is passed over and deleted with the folder. *)
Theorem used_attachments_survive :
  forall removedNotePath,
    (forall node path,
        In path (used_paths removedNotePath node) ->
        exists residue,
          removeFolderSafe NewArray (Some node) removedNotePath
          = (false, Some residue)
          /\ In path (file_paths residue)
          /\ used_paths removedNotePath residue
             = used_paths removedNotePath node
          /\ incl (file_paths residue) (file_paths node))
    /\ (forall folder file used backlinks,
           still_used backlinks removedNotePath = true ->
           let node :=
             TFolder folder false
               [TFile file [] false; TFile used backlinks false] in
           In used (used_paths removedNotePath node)
           /\ removeFolderSafe InPlace (Some node) removedNotePath
              = (true, None)).
Proof.
  intros removedNotePath. split.
  - intros node path Hin.
    destruct (removeFolder_described removedNotePath node)
      as (Hnone & _ & Hused & Hincl).
    unfold removeFolderSafe.
    destruct (removeFolder NewArray removedNotePath node)
      as [ok [residue|]]; cbn [fst snd residue_list flat_map] in *.
    + rewrite app_nil_r in Hused, Hincl. exists residue.
      destruct ok;
        [destruct Hnone as [_ Hnone]; discriminate Hnone; reflexivity|].
      repeat split; try assumption.
      apply (used_paths_are_file_paths removedNotePath). rewrite Hused.
      exact Hin.
    + rewrite <- Hused in Hin. destruct Hin.
  - intros folder file used backlinks H node. split.
    + unfold node. rewrite used_paths_folder. simpl.
      assert (E : still_used [] removedNotePath = false)
        by (destruct removedNotePath as [[|c p]|]; reflexivity).
      rewrite E, H. left. reflexivity.
    + unfold node, removeFolderSafe. rewrite removeFolder_folder.
      cbn [visit_children].
      assert (E : still_used [] removedNotePath = false)
        by (destruct removedNotePath as [[|c p]|]; reflexivity).
      rewrite E. reflexivity.
Qed.

Lemma used_attachments_survive_witness :
  let used := TFile (js "img/sub/a.png") [js "other.md"; js "gone.md"] false in
  let free := TFile (js "img/b.png") [js "gone.md"] false in
  let node :=
    TFolder (js "img") false [free; TFolder (js "img/sub") false [used]] in
  (exists residue,
      removeFolderSafe NewArray (Some node) (Some (js "gone.md"))
      = (false, Some residue)
      /\ In (js "img/sub/a.png") (file_paths residue)
      /\ used_paths (Some (js "gone.md")) residue
         = used_paths (Some (js "gone.md")) node
      /\ incl (file_paths residue) (file_paths node))
  /\ removeFolderSafe InPlace
       (Some (TFolder (js "img") false
                [TFile (js "img/b.png") [] false;
                 TFile (js "img/a.png") [js "other.md"] false]))
       (Some (js "gone.md"))
     = (true, None).
Proof.
  intros used free node. split.
  - apply (proj1 (used_attachments_survive (Some (js "gone.md"))) node
             (js "img/sub/a.png")).
    vm_compute. left. reflexivity.
  - apply (proj2 (used_attachments_survive (Some (js "gone.md")))
             (js "img") (js "img/b.png") (js "img/a.png") [js "other.md"]).
    reflexivity.
Defined.

(** ** removeEmptyFolderHierarchy *)

Lemma climb_not_empty vault parents path stuck child others :
  climb vault parents path stuck (child :: others) = [].
Proof. destruct parents; reflexivity. Qed.

Lemma climb_chain vault :
  forall parents f,
    climb vault parents (ancestor_path f) (ancestor_stuck f)
      (ancestor_others f)
    = map ancestor_path (take_while empty_and_deletable (f :: parents)).
Proof.
  induction parents as [|parent up IH]; intros [path stuck others];
    unfold empty_and_deletable at 1; cbn [take_while ancestor_path
      ancestor_stuck ancestor_others].
  - destruct others as [|child others]; [|reflexivity].
    destruct stuck; reflexivity.
  - destruct others as [|child others]; [|reflexivity].
    destruct stuck.
    + cbn. apply climb_not_empty.
    + change (climb vault (parent :: up) path false [])
        with ([path] ++ climb vault up (ancestor_path parent)
                          (ancestor_stuck parent) (ancestor_others parent)).
      rewrite IH. reflexivity.
Qed.

(** X11: removeEmptyFolderHierarchy deletes the folders of the chain from
    the given folder upwards for as long as each one holds nothing else and
    its deletion succeeds, and stops at the first folder that holds
    something or cannot be deleted: a folder with a child is never deleted,
    and nothing above the first folder left in place is touched. *)
Theorem removeEmptyFolderHierarchy_stops_at_first_kept :
  forall vault folder parents,
    removeEmptyFolderHierarchy vault folder parents
    = match folder with
      | None => []
      | Some f =>
          map ancestor_path (take_while empty_and_deletable (f :: parents))
      end.
Proof.
  intros vault [f|] parents; [|reflexivity]. apply climb_chain.
Qed.

(** ** The registry of formatters *)

Lemma formatters_get_none key m :
  formatters_get key m = None <-> ~ In key (map fst m).
Proof.
  induction m as [|[k f] m IH]; simpl.
  - split; auto.
  - destruct (jsstring_eqb k key) eqn:E.
    + apply jsstring_eqb_eq in E. split; [discriminate|]. intros H.
      exfalso. apply H. left. exact E.
    + rewrite IH. split.
      * intros H [Hk|Hin]; [|contradiction].
        subst k. rewrite jsstring_eqb_refl in E. discriminate.
      * intros H Hin. apply H. right. exact Hin.
Qed.

Lemma formatters_keys : map fst formatters = rev registered_names.
Proof. vm_compute. reflexivity. Qed.

(** X12: the registry holds the twelve names of the static block, in lower
    case, and nothing else: a token is registered exactly when its name in
    lower case is one of them, so that a token and any other casing of it
    are registered alike. *)
Theorem isRegisteredToken_names :
  forall token,
    (isRegisteredToken token = true
     <-> In (toLowerCase token) registered_names)
    /\ isRegisteredToken (toLowerCase token) = isRegisteredToken token
    /\ (forall other,
           toLowerCase other = toLowerCase token ->
           isRegisteredToken other = isRegisteredToken token).
Proof.
  intros token. split; [|split].
  - unfold isRegisteredToken.
    destruct (formatters_get (toLowerCase token) formatters) as [f|] eqn:E.
    + apply formatters_get_In in E. rewrite formatters_keys in E.
      apply in_rev in E. split; auto.
    + apply formatters_get_none in E. rewrite formatters_keys in E.
      split; [discriminate|]. intros H. exfalso. apply E.
      apply in_rev. rewrite rev_involutive. exact H.
  - unfold isRegisteredToken. rewrite toLowerCase_idempotent. reflexivity.
  - intros other H. unfold isRegisteredToken. rewrite H. reflexivity.
Qed.

Lemma formatters_get_filter key other m :
  key <> other ->
  formatters_get key
    (filter (fun entry => negb (jsstring_eqb (fst entry) other)) m)
  = formatters_get key m.
Proof.
  intros Hne. induction m as [|[k f] m IH]; simpl; [reflexivity|].
  destruct (jsstring_eqb k other) eqn:Eo; simpl.
  - apply jsstring_eqb_eq in Eo. subst k.
    destruct (jsstring_eqb other key) eqn:Ek; [|exact IH].
    apply jsstring_eqb_eq in Ek. congruence.
  - rewrite IH. reflexivity.
Qed.

Lemma filter_keys_NoDup other (m : list (jsstring * Formatter)) :
  NoDup (map fst m) ->
  NoDup (map fst
           (filter (fun entry => negb (jsstring_eqb (fst entry) other)) m))
  /\ ~ In other
       (map fst
          (filter (fun entry => negb (jsstring_eqb (fst entry) other)) m)).
Proof.
  induction m as [|[k f] m IH]; simpl; intros H.
  - split; [constructor|auto].
  - apply NoDup_cons_iff in H. destruct H as [Hk Hm].
    destruct (IH Hm) as [Hn Ho].
    destruct (jsstring_eqb k other) eqn:E; simpl; [auto|]. split.
    + constructor; [|exact Hn]. intros Hin. apply Hk.
      apply in_map_iff in Hin. destruct Hin as (entry & He & Hf).
      apply filter_In in Hf. apply in_map_iff. exists entry. tauto.
    + intros [Hko|Hin]; [|contradiction].
      subst k. rewrite jsstring_eqb_refl in E. discriminate.
Qed.

(** X13: what registerFormatter stores is found again under any casing of
    the token, the formatters of the other keys are the ones there were,
    and a registry in which every key occurs once stays so: registering a
    token a second time replaces its formatter. *)
Theorem registerFormatter_then_get :
  forall token formatter registry,
    (forall other,
        toLowerCase other = toLowerCase token ->
        formatters_get (toLowerCase other)
          (registerFormatter token formatter registry)
        = Some formatter)
    /\ (forall key,
           key <> toLowerCase token ->
           formatters_get key (registerFormatter token formatter registry)
           = formatters_get key registry)
    /\ (NoDup (map fst registry) ->
        NoDup (map fst (registerFormatter token formatter registry)))
    /\ (forall later,
           formatters_get (toLowerCase token)
             (registerFormatter token later
                (registerFormatter token formatter registry))
           = Some later).
Proof.
  intros token formatter registry. repeat split.
  - intros other H. unfold registerFormatter. simpl.
    rewrite H, jsstring_eqb_refl. reflexivity.
  - intros key Hne. unfold registerFormatter. simpl.
    destruct (jsstring_eqb (toLowerCase token) key) eqn:E.
    + apply jsstring_eqb_eq in E. congruence.
    + apply formatters_get_filter, Hne.
  - intros H. unfold registerFormatter. simpl.
    destruct (filter_keys_NoDup (toLowerCase token) registry H) as [Hn Ho].
    constructor; assumption.
  - intros later. unfold registerFormatter at 1. simpl.
    rewrite jsstring_eqb_refl. reflexivity.
Qed.

Lemma isRegisteredToken_names_witness :
  isRegisteredToken (js "FILENAME") = isRegisteredToken (js "fileName")
  /\ isRegisteredToken (js "fileName") = true.
Proof.
  destruct (isRegisteredToken_names (js "fileName")) as (Hin & _ & Hother).
  split.
  - apply Hother. reflexivity.
  - apply Hin. vm_compute. right. left. reflexivity.
Defined.

Lemma registerFormatter_then_get_witness :
  let formatter : Formatter := fun _ _ _ => Fulfilled (js "today") in
  formatters_get (toLowerCase (js "DATE"))
    (registerFormatter (js "Date") formatter formatters)
  = Some formatter.
Proof.
  intros formatter.
  apply (proj1 (registerFormatter_then_get (js "Date") formatter formatters)).
  reflexivity.
Defined.

(** ** The scan of a string for tokens *)

Lemma tokenize_source (s : jsstring) : source_text (tokenize s) = s.
Proof.
  induction s as [|c s He IH|s n f rest He IH] using tokenize_ind.
  - reflexivity.
  - rewrite (tokenize_literal _ _ He). unfold source_text in *. simpl.
    rewrite IH. reflexivity.
  - rewrite (tokenize_token _ _ _ _ He). unfold source_text in *.
    cbn [flat_map]. rewrite IH.
    rewrite (exec_token_shape _ _ _ _ He) at 1. unfold token_text.
    simpl. rewrite <- !app_assoc. reflexivity.
Qed.

Lemma removeTokenFormatting_length (s : jsstring) :
  List.length s
  = (List.length (removeTokenFormatting s) + format_length (tokenize s))%nat.
Proof.
  induction s as [|c s He IH|s n f rest He IH] using tokenize_ind.
  - reflexivity.
  - rewrite (tokenize_literal _ _ He), (removeTokenFormatting_literal _ _ He).
    simpl. rewrite IH. reflexivity.
  - rewrite (tokenize_token _ _ _ _ He), (removeTokenFormatting_token _ _ _ _ He).
    pose proof (f_equal (@List.length ascii) (exec_token_shape _ _ _ _ He))
      as Hs.
    rewrite Hs. unfold bare_token. cbn [format_length].
    rewrite !length_app. cbn [List.length]. rewrite !length_app.
    cbn [List.length]. destruct f as [f|]; simpl; lia.
Qed.

Lemma removeTokenFormatting_no_format (s : jsstring) :
  format_length (tokenize s) = O -> removeTokenFormatting s = s.
Proof.
  induction s as [|c s He IH|s n f rest He IH] using tokenize_ind.
  - reflexivity.
  - rewrite (tokenize_literal _ _ He), (removeTokenFormatting_literal _ _ He).
    simpl. intros H. rewrite (IH H). reflexivity.
  - rewrite (tokenize_token _ _ _ _ He), (removeTokenFormatting_token _ _ _ _ He).
    destruct f as [f|]; [discriminate|]. simpl. intros H.
    rewrite (IH H). rewrite (exec_token_shape _ _ _ _ He) at 1.
    unfold bare_token. simpl. rewrite <- !app_assoc. reflexivity.
Qed.

(** X14: removeTokenFormatting takes away the colon and the format of every
    match that has one, and nothing else: the string is shorter by exactly
    these characters, it comes back unchanged exactly when no match has a
    format, and what it gives has no format left.  The matches and the
    characters between them make up the string that was scanned. *)
Theorem removeTokenFormatting_takes_formats_away :
  forall s,
    List.length s
    = (List.length (removeTokenFormatting s) + format_length (tokenize s))%nat
    /\ (removeTokenFormatting s = s <-> format_length (tokenize s) = O)
    /\ format_length (tokenize (removeTokenFormatting s)) = O
    /\ source_text (tokenize s) = s.
Proof.
  intros s. pose proof (removeTokenFormatting_length s) as Hl.
  split; [exact Hl|]. split; [|split].
  - split.
    + intros H. rewrite H in Hl. lia.
    + apply removeTokenFormatting_no_format.
  - pose proof (removeTokenFormatting_length (removeTokenFormatting s)) as H.
    rewrite removeTokenFormatting_idempotent in H. lia.
  - apply tokenize_source.
Qed.

Lemma no_token_literals (s : jsstring) :
  has_token s = false -> tokenize s = map Literal s.
Proof.
  unfold has_token.
  induction s as [|c s He IH|s n f rest He IH] using tokenize_ind.
  - reflexivity.
  - rewrite (tokenize_literal _ _ He). simpl. intros H. rewrite (IH H).
    reflexivity.
  - rewrite (tokenize_token _ _ _ _ He). discriminate.
Qed.

Lemma splice_literals (s : jsstring) : splice (map Literal s) [] = s.
Proof. induction s as [|c s IH]; simpl; [|rewrite IH]; reflexivity. Qed.

Lemma call_replacers_literals substitutions app i (s : jsstring) :
  call_replacers substitutions app i (map Literal s) = [].
Proof. induction s as [|c s IH]; simpl; [reflexivity|exact IH]. Qed.

Lemma first_unregistered_literals (s : jsstring) :
  first_unregistered (map Literal s) = None.
Proof. induction s as [|c s IH]; simpl; [reflexivity|exact IH]. Qed.

Lemma replace_literals replacer (s : jsstring) :
  has_token s = false -> replace_tokens replacer s = s.
Proof.
  intros H. unfold replace_tokens. rewrite (no_token_literals _ H).
  induction s as [|c s IH]; simpl; [reflexivity|].
  f_equal. apply IH. unfold has_token in *.
  destruct (exec_token (c :: s)) as [[[n f] rest]|] eqn:He.
  - rewrite (tokenize_token _ _ _ _ He) in H. discriminate.
  - rewrite (tokenize_literal _ _ He) in H. exact H.
Qed.

(** X15: a string in which the regular expression finds no token goes
    through untouched: fillTemplate returns it, whatever the host would
    answer, removeTokenFormatting returns it, validateTokens finds nothing
    to report, and validateFilename judges it by the rules for names alone,
    the same with tokens allowed and with tokens refused. *)
Theorem string_without_token :
  forall substitutions app s,
    has_token s = false ->
    fillTemplate substitutions app s = inr s
    /\ removeTokenFormatting s = s
    /\ validateTokens s = None
    /\ validateFilename s true = validate_name s
    /\ validateFilename s false = validate_name s.
Proof.
  intros substitutions app s H.
  assert (Hr : removeTokenFormatting s = s)
    by (apply replace_literals, H).
  assert (Hv : validateTokens s = None).
  { unfold validateTokens. rewrite (no_token_literals _ H).
    apply first_unregistered_literals. }
  repeat split.
  - unfold fillTemplate. rewrite (no_token_literals _ H).
    rewrite call_replacers_literals. unfold replaceAllAsync. simpl.
    rewrite splice_literals. reflexivity.
  - exact Hr.
  - exact Hv.
  - unfold validateFilename. rewrite Hr, Hv. reflexivity.
  - unfold validateFilename. rewrite H. reflexivity.
Qed.

Lemma string_without_token_witness :
  let substitutions := mkSubstitutions [] [] [] [] [] [] in
  let app := fun _ : nat => mkApp (fun _ => []) (fun _ => O) [] (fun _ => None) in
  fillTemplate substitutions app (js "notes/a$b{c}/${") = inr (js "notes/a$b{c}/${")
  /\ validateFilename (js "plain name.txt") true
     = validateFilename (js "plain name.txt") false.
Proof.
  intros substitutions app. split.
  - apply (string_without_token substitutions app (js "notes/a$b{c}/${")).
    reflexivity.
  - destruct (string_without_token substitutions app (js "plain name.txt")
                eq_refl) as (_ & _ & _ & Ht & Hf).
    rewrite Ht, Hf. reflexivity.
Defined.

(** ** fillTemplate and the validators *)

Lemma registerFormatter_Forall (P : jsstring * Formatter -> Prop)
  token formatter registry :
  P (toLowerCase token, formatter) ->
  Forall P registry ->
  Forall P (registerFormatter token formatter registry).
Proof.
  intros Hp Hr. unfold registerFormatter. constructor; [exact Hp|].
  rewrite Forall_forall in *. intros entry Hin. apply filter_In in Hin.
  apply Hr, Hin.
Qed.

Lemma formatters_get_Forall (P : jsstring * Formatter -> Prop) key m f :
  Forall P m -> formatters_get key m = Some f -> P (key, f).
Proof.
  induction 1 as [|[k g] m Hk Hm IH]; simpl; [discriminate|].
  destruct (jsstring_eqb k key) eqn:E; [|exact IH].
  apply jsstring_eqb_eq in E. intros H. injection H as <-. subst k. exact Hk.
Qed.

(** What the formatters of the registry answer: a text, unless the
    formatter is the one of [prompt] and the user cancels. *)
Lemma formatters_outcomes :
  Forall (fun entry : jsstring * Formatter =>
            forall substitutions app format,
              (exists text,
                  snd entry substitutions app format = Fulfilled text)
              \/ (fst entry = js "prompt"
                  /\ snd entry substitutions app format
                     = Rejected PromptCancelled
                  /\ prompt_modal app (originalCopiedFileName substitutions)
                     = None))
    formatters.
Proof.
  unfold formatters.
  repeat (apply registerFormatter_Forall;
          [intros substitutions app format; cbn [fst snd];
           try (left; eexists; reflexivity)|]);
    [|constructor].
  unfold prompt.
  destruct (prompt_modal app (originalCopiedFileName substitutions)) eqn:E;
    [left; eexists; reflexivity|right; repeat split].
Qed.

Lemma first_unregistered_split pieces token :
  first_unregistered pieces = Some token ->
  exists before format after,
    pieces = before ++ Token token format :: after
    /\ (forall name f,
           In (Token name f) before -> isRegisteredToken name = true)
    /\ isRegisteredToken token = false.
Proof.
  induction pieces as [|[c|n f] pieces IH]; simpl; [discriminate| |].
  - intros H. destruct (IH H) as (before & format & after & -> & Hb & Hu).
    exists (Literal c :: before), format, after. repeat split; [|exact Hu].
    intros name f' [E|Hin]; [discriminate|eauto].
  - destruct (isRegisteredToken n) eqn:En.
    + intros H. destruct (IH H) as (before & format & after & -> & Hb & Hu).
      exists (Token n f :: before), format, after. repeat split; [|exact Hu].
      intros name f' [E|Hin]; [injection E as <- _; exact En|eauto].
    + intros H. injection H as <-. exists [], f, pieces.
      repeat split; [|exact En]. intros name f' [].
Qed.

Lemma registered_replacers substitutions app pieces :
  first_unregistered pieces = None ->
  forall i,
    first_rejected_at_once (call_replacers substitutions app i pieces) = None
    /\ ((exists texts,
            await_all (call_replacers substitutions app i pieces) = inr texts)
        \/ (await_all (call_replacers substitutions app i pieces)
            = inl PromptCancelled
            /\ exists j name format,
                In (Token name format) pieces
                /\ toLowerCase name = js "prompt"
                /\ prompt_modal (app j) (originalCopiedFileName substitutions)
                   = None)).
Proof.
  induction pieces as [|[c|n f] pieces IH]; cbn [first_unregistered];
    intros H i.
  - simpl. split; [reflexivity|]. left. eexists. reflexivity.
  - destruct (IH H i) as [Hr [Ha|(Ha & j & name & format & Hin & Hn & Hp)]].
    + split; [exact Hr|]. left. exact Ha.
    + split; [exact Hr|]. right. split; [exact Ha|].
      exists j, name, format. repeat split; try assumption. right. exact Hin.
  - destruct (isRegisteredToken n) eqn:En; [|discriminate].
    destruct (isRegisteredToken_got _ En) as [formatter Hf].
    pose proof (formatters_get_Forall _ _ _ _ formatters_outcomes Hf
                  substitutions (app i) f) as Ho.
    cbn [fst snd] in Ho. cbn [call_replacers]. unfold replacer.
    rewrite Hf. cbn [first_rejected_at_once await_all].
    destruct (IH H (S i))
      as [Hr [[texts Ha]|(Ha & j & name & format & Hin & Hn & Hp)]].
    + split; [exact Hr|].
      destruct Ho as [[text ->]|(Hk & -> & Hp)].
      * left. rewrite Ha. eexists. reflexivity.
      * right. split; [reflexivity|]. exists i, n, f.
        repeat split; try assumption. left. reflexivity.
    + split; [exact Hr|]. right.
      destruct Ho as [[text ->]|(Hk & -> & Hp')].
      * rewrite Ha. split; [reflexivity|]. exists j, name, format.
        repeat split; try assumption. right. exact Hin.
      * split; [reflexivity|]. exists i, n, f.
        repeat split; try assumption. left. reflexivity.
Qed.

Lemma fillTemplate_outcome substitutions app template :
  match validateTokens template with
  | Some token =>
      fillTemplate substitutions app template = inl (InvalidToken token)
  | None =>
      (exists out, fillTemplate substitutions app template = inr out)
      \/ (fillTemplate substitutions app template = inl PromptCancelled
          /\ exists j name format,
              In (Token name format) (tokenize template)
              /\ toLowerCase name = js "prompt"
              /\ prompt_modal (app j) (originalCopiedFileName substitutions)
                 = None)
  end.
Proof.
  unfold validateTokens, fillTemplate.
  destruct (first_unregistered (tokenize template)) as [token|] eqn:E.
  - destruct (first_unregistered_split _ _ E)
      as (before & format & after & Ht & Hb & Hu).
    unfold replaceAllAsync, promise_all. rewrite Ht.
    rewrite (leftmost_unknown_rejects _ _ _ _ _ _ _ Hb Hu). reflexivity.
  - destruct (registered_replacers substitutions app _ E O)
      as [Hr [[texts Ha]|(Ha & Hex)]];
      unfold replaceAllAsync, promise_all; rewrite Hr, Ha.
    + left. eexists. reflexivity.
    + right. split; [reflexivity|exact Hex].
Qed.

(** X16: validateTokens foretells how fillTemplate ends.  When it reports a
    token, fillTemplate fails with the invalid-token error of that very
    token.  When it reports none, fillTemplate returns a string, unless the
    template holds a prompt token and the user cancels the prompt, the only
    other way to fail. *)
Theorem validateTokens_foretells_fillTemplate :
  forall substitutions app template,
    match validateTokens template with
    | Some token =>
        fillTemplate substitutions app template = inl (InvalidToken token)
    | None =>
        (exists out, fillTemplate substitutions app template = inr out)
        \/ (fillTemplate substitutions app template = inl PromptCancelled
            /\ exists j name format,
                In (Token name format) (tokenize template)
                /\ toLowerCase name = js "prompt"
                /\ prompt_modal (app j) (originalCopiedFileName substitutions)
                   = None)
    end.
Proof.
  intros substitutions app template.
  apply fillTemplate_outcome.
Qed.

Lemma first_unregistered_strip pieces :
  first_unregistered (map strip_format pieces) = first_unregistered pieces.
Proof.
  induction pieces as [|[c|n f] pieces IH]; simpl; [reflexivity|exact IH|].
  rewrite IH. reflexivity.
Qed.

Lemma validateTokens_removeTokenFormatting s :
  validateTokens (removeTokenFormatting s) = validateTokens s.
Proof.
  unfold validateTokens. rewrite tokenize_removeTokenFormatting.
  apply first_unregistered_strip.
Qed.

Lemma validators_report_unknown_token s token :
  validateTokens s = Some token ->
  validateFilename s true = unknown_token_message token
  /\ validatePath s = unknown_token_message token.
Proof.
  intros H. destruct (validateTokens_named _ _ H) as (c & rest & ->).
  unfold validateFilename, validatePath.
  rewrite validateTokens_removeTokenFormatting, H. split; reflexivity.
Qed.

(** X17: the validators and fillTemplate agree about unknown tokens.  A
    template that validateFilename (tokens allowed) or validatePath accepts
    is never refused by fillTemplate for an invalid token, and a template
    that fillTemplate refuses for an invalid token is answered by both
    validators with the unknown-token message of that token. *)
Theorem accepted_template_has_no_invalid_token :
  forall substitutions app template,
    (validateFilename template true = [] \/ validatePath template = [] ->
     forall token,
       fillTemplate substitutions app template <> inl (InvalidToken token))
    /\ (forall token,
           fillTemplate substitutions app template = inl (InvalidToken token) ->
           validateFilename template true = unknown_token_message token
           /\ validatePath template = unknown_token_message token).
Proof.
  intros substitutions app template.
  pose proof (fillTemplate_outcome substitutions app
                template) as Hf.
  destruct (validateTokens template) as [unknown|] eqn:Ev.
  - destruct (validators_report_unknown_token _ _ Ev) as [Hn Hp]. split.
    + intros [H|H] token; [rewrite Hn in H|rewrite Hp in H]; discriminate.
    + intros token H. rewrite Hf in H. injection H as <-. auto.
  - split.
    + intros _ token H.
      destruct Hf as [[out Ho]|[Hc _]]; rewrite H in *; discriminate.
    + intros token H.
      destruct Hf as [[out Ho]|[Hc _]]; rewrite H in *; discriminate.
Qed.

Lemma accepted_template_has_no_invalid_token_witness :
  let substitutions := mkSubstitutions [] [] [] [] [] [] in
  let app := fun _ : nat => mkApp (fun _ => []) (fun _ => O) [] (fun _ => None) in
  validatePath (js "img/${date:YYYY}/${fileName}") = []
  /\ fillTemplate substitutions app (js "img/${date:YYYY}/${fileName}")
     <> inl (InvalidToken (js "date")).
Proof.
  intros substitutions app.
  assert (H : validatePath (js "img/${date:YYYY}/${fileName}") = [])
    by (vm_compute; reflexivity).
  split; [exact H|].
  apply (proj1 (accepted_template_has_no_invalid_token substitutions app
                  (js "img/${date:YYYY}/${fileName}"))).
  right. exact H.
Defined.

Lemma formatters_ignore_format :
  Forall (fun entry : jsstring * Formatter =>
            fst entry <> js "date" ->
            forall substitutions app format,
              snd entry substitutions app format
              = snd entry substitutions app None)
    formatters.
Proof.
  unfold formatters.
  repeat (apply registerFormatter_Forall;
          [cbn [fst snd]; intros Hkey substitutions app format;
           try reflexivity|]);
    [|constructor].
  exfalso. apply Hkey. reflexivity.
Qed.

Lemma splice_strip pieces :
  forall replacements,
    splice (map strip_format pieces) replacements = splice pieces replacements.
Proof.
  induction pieces as [|[c|n f] pieces IH]; intros replacements; simpl.
  - reflexivity.
  - rewrite IH. reflexivity.
  - destruct replacements; rewrite IH; reflexivity.
Qed.

Lemma call_replacers_strip substitutions app pieces :
  (forall name format,
      In (Token name format) pieces -> toLowerCase name <> js "date") ->
  forall i,
    call_replacers substitutions app i (map strip_format pieces)
    = call_replacers substitutions app i pieces.
Proof.
  induction pieces as [|[c|n f] pieces IH]; intros H i; simpl.
  - reflexivity.
  - apply IH. intros name format Hin. apply (H name format). right. exact Hin.
  - rewrite IH
      by (intros name format Hin; apply (H name format); right; exact Hin).
    f_equal. unfold replacer.
    destruct (formatters_get (toLowerCase n) formatters) as [formatter|] eqn:E;
      [|reflexivity].
    pose proof (formatters_get_Forall _ _ _ _ formatters_ignore_format E) as Hi.
    cbn [fst snd] in Hi.
    rewrite (Hi (H n f (or_introl eq_refl)) substitutions (app i) f).
    reflexivity.
Qed.

(** X18: the format of a token matters to the date alone.  For a template
    none of whose tokens is the date token, fillTemplate gives the same
    outcome on the template and on the template with its formats removed,
    with the same host: the other formatters never look at the format. *)
Theorem format_matters_to_date_only :
  forall substitutions app template,
    (forall name format,
        In (Token name format) (tokenize template) ->
        toLowerCase name <> js "date") ->
    fillTemplate substitutions app (removeTokenFormatting template)
    = fillTemplate substitutions app template.
Proof.
  intros substitutions app template H. unfold fillTemplate.
  rewrite tokenize_removeTokenFormatting.
  rewrite (call_replacers_strip _ _ _ H). unfold replaceAllAsync.
  destruct (promise_all _) as [e|replacements]; [reflexivity|].
  rewrite splice_strip. reflexivity.
Qed.

Lemma format_matters_to_date_only_witness :
  let substitutions :=
    mkSubstitutions (js "notes") (js "diary") (js "notes/diary.md")
      (js "notes") [] [] in
  let app := fun _ : nat => mkApp (fun _ => []) (fun _ => 3%nat) [] (fun _ => None) in
  fillTemplate substitutions app (js "${fileName}-${randomDigit}")
  = fillTemplate substitutions app (js "${fileName:x}-${randomDigit:0/0}")
  /\ fillTemplate substitutions app (js "${fileName:x}-${randomDigit:0/0}")
     = inr (js "diary-3").
Proof.
  intros substitutions app. split; [|reflexivity].
  apply (format_matters_to_date_only substitutions app
           (js "${fileName:x}-${randomDigit:0/0}")).
  intros name format Hin. vm_compute in Hin.
  destruct Hin as [E|[E|[E|E]]]; try discriminate E;
    try (injection E as <- _; vm_compute; discriminate).
  destruct E.
Defined.

(** ** The random symbols *)

Lemma generateRandomSymbol_drawn app symbols :
  (random_index app (List.length symbols) < List.length symbols)%nat ->
  exists c,
    generateRandomSymbol app symbols = [c]
    /\ nth_error symbols (random_index app (List.length symbols)) = Some c
    /\ In c symbols.
Proof.
  intros H. unfold generateRandomSymbol.
  destruct (nth_error symbols _) as [c|] eqn:E.
  - exists c. repeat split. apply (nth_error_In _ _ E).
  - apply nth_error_None in E. lia.
Qed.

Lemma generateRandomSymbol_passes (test : ascii -> bool) app symbols :
  forallb test symbols = true ->
  (random_index app (List.length symbols) < List.length symbols)%nat ->
  exists c, generateRandomSymbol app symbols = [c] /\ test c = true.
Proof.
  intros Ht H. destruct (generateRandomSymbol_drawn app symbols H)
    as (c & Hc & _ & Hin).
  exists c. split; [exact Hc|]. rewrite forallb_forall in Ht. apply Ht, Hin.
Qed.

(** X19: generateRandomSymbol gives at most one character and never a
    character that is not in the alphabet, and the empty string when the
    alphabet is empty.  When the index drawn lies in the alphabet, as
    [Math.floor(Math.random() * symbols.length)] does for an alphabet that is
    not empty, it gives exactly one character, the one at that index: a
    random digit is then one decimal digit, a random letter one capital
    letter, and a random digit or letter one of the two. *)
Theorem generateRandomSymbol_in_alphabet :
  forall app,
    (forall symbols,
        (List.length (generateRandomSymbol app symbols) <= 1)%nat
        /\ Forall (fun c => In c symbols) (generateRandomSymbol app symbols)
        /\ ((random_index app (List.length symbols) < List.length symbols)%nat ->
            exists c,
              generateRandomSymbol app symbols = [c]
              /\ nth_error symbols (random_index app (List.length symbols))
                 = Some c
              /\ In c symbols))
    /\ generateRandomSymbol app [] = []
    /\ ((random_index app 10 < 10)%nat ->
        exists c,
          generateRandomDigit app = [c]
          /\ (48 <= nat_of_ascii c <= 57)%nat)
    /\ ((random_index app 26 < 26)%nat ->
        exists c,
          generateRandomLetter app = [c]
          /\ (65 <= nat_of_ascii c <= 90)%nat)
    /\ ((random_index app 36 < 36)%nat ->
        exists c,
          generateRandomDigitOrLetter app = [c]
          /\ ((48 <= nat_of_ascii c <= 57)%nat
              \/ (65 <= nat_of_ascii c <= 90)%nat)).
Proof.
  intros app. split; [|split; [|split; [|split]]].
  - intros symbols. split; [|split].
    + unfold generateRandomSymbol. destruct (nth_error symbols _); simpl; lia.
    + unfold generateRandomSymbol.
      destruct (nth_error symbols _) as [c|] eqn:E; constructor;
        [|constructor]. apply (nth_error_In _ _ E).
    + apply generateRandomSymbol_drawn.
  - unfold generateRandomSymbol. simpl.
    destruct (random_index app 0); reflexivity.
  - intros H.
    destruct (generateRandomSymbol_passes
                (fun c => (48 <=? nat_of_ascii c)%nat
                          && (nat_of_ascii c <=? 57)%nat)
                app (js "0123456789") eq_refl H) as (c & Hc & Ht).
    exists c. split; [exact Hc|].
    apply andb_true_iff in Ht. destruct Ht as [H1 H2].
    apply Nat.leb_le in H1. apply Nat.leb_le in H2. lia.
  - intros H.
    destruct (generateRandomSymbol_passes
                (fun c => (65 <=? nat_of_ascii c)%nat
                          && (nat_of_ascii c <=? 90)%nat)
                app (js "ABCDEFGHIJKLMNOPQRSTUVWXYZ") eq_refl H)
      as (c & Hc & Ht).
    exists c. split; [exact Hc|].
    apply andb_true_iff in Ht. destruct Ht as [H1 H2].
    apply Nat.leb_le in H1. apply Nat.leb_le in H2. lia.
  - intros H.
    destruct (generateRandomSymbol_passes
                (fun c => (48 <=? nat_of_ascii c)%nat
                          && (nat_of_ascii c <=? 57)%nat
                          || (65 <=? nat_of_ascii c)%nat
                             && (nat_of_ascii c <=? 90)%nat)
                app (js "0123456789ABCDEFGHIJKLMNOPQRSTUVWXYZ") eq_refl H)
      as (c & Hc & Ht).
    exists c. split; [exact Hc|].
    apply orb_true_iff in Ht.
    destruct Ht as [Ht|Ht]; apply andb_true_iff in Ht; destruct Ht as [H1 H2];
      apply Nat.leb_le in H1; apply Nat.leb_le in H2; [left|right]; lia.
Qed.

Lemma generateRandomSymbol_in_alphabet_witness :
  let app := mkApp (fun _ => []) (fun n => (n - 1)%nat) [] (fun _ => None) in
  (exists c,
      generateRandomDigit app = [c] /\ (48 <= nat_of_ascii c <= 57)%nat)
  /\ generateRandomDigit app = js "9"
  /\ (exists c,
         generateRandomLetter app = [c] /\ (65 <= nat_of_ascii c <= 90)%nat)
  /\ generateRandomLetter app = js "Z".
Proof.
  intros app.
  destruct (generateRandomSymbol_in_alphabet app)
    as (_ & _ & Hdigit & Hletter & _).
  split; [apply Hdigit; vm_compute; reflexivity|].
  split; [reflexivity|].
  split; [apply Hletter; vm_compute; reflexivity|reflexivity].
Defined.

(** ** The rules for names *)





(** ** The shape of the matches *)

Lemma format_tail_group s :
  forall f rest,
    format_tail s = Some (f, rest) ->
    no_line_terminator f /\ ~ In rbrace f.
Proof.
  induction s as [|c s IH]; simpl; intros f rest H; [discriminate|].
  destruct (Ascii.eqb c rbrace) eqn:Eb.
  - injection H as <- <-. split; [reflexivity|auto].
  - destruct (is_line_terminator c) eqn:El; [discriminate|].
    destruct (format_tail s) as [[f' rest']|]; [|discriminate].
    injection H as <- <-. destruct (IH f' rest' eq_refl) as [Hl Hb].
    split.
    + unfold no_line_terminator in *. simpl. rewrite El, Hl. reflexivity.
    + intros [E|Hin]; [|contradiction].
      subst c. rewrite Ascii.eqb_refl in Eb. discriminate.
Qed.

Lemma match_format_group s f rest :
  match_format s = Some (f, rest) -> shortest_group f.
Proof.
  destruct s as [|c s]; simpl; [discriminate|].
  destruct (is_line_terminator c) eqn:El; [discriminate|].
  destruct (format_tail s) as [[f' rest']|] eqn:E; [|discriminate].
  intros H. injection H as <- <-.
  destruct (format_tail_group _ _ _ E) as [Hl Hb]. simpl. split; [|exact Hb].
  unfold no_line_terminator in *. simpl. rewrite El, Hl. reflexivity.
Qed.

Lemma name_tail_group s :
  forall n f rest,
    name_tail s = Some (n, f, rest) ->
    no_line_terminator n /\ ~ In rbrace n
    /\ match f with
       | Some f => shortest_group f
       | None => True
       end.
Proof.
  induction s as [|c s IH]; intros n f rest H; [discriminate|].
  assert (Hlonger :
            Ascii.eqb c rbrace = false ->
            (if is_line_terminator c then None
             else match name_tail s with
                  | Some (n, f, rest) => Some (c :: n, f, rest)
                  | None => None
                  end) = Some (n, f, rest) ->
            no_line_terminator n /\ ~ In rbrace n
            /\ match f with
               | Some f => shortest_group f
               | None => True
               end).
  { intros Eb Hl. destruct (is_line_terminator c) eqn:El; [discriminate|].
    destruct (name_tail s) as [[[n' f'] rest']|]; [|discriminate].
    injection Hl as <- <- <-.
    destruct (IH n' f' rest' eq_refl) as (Hn & Hb & Hf). repeat split.
    - unfold no_line_terminator in *. simpl. rewrite El, Hn. reflexivity.
    - intros [E|Hin]; [|contradiction].
      subst c. rewrite Ascii.eqb_refl in Eb. discriminate.
    - exact Hf. }
  cbn [name_tail] in H. destruct (Ascii.eqb c colon) eqn:Ec.
  - apply Ascii.eqb_eq in Ec.
    destruct (match_format s) as [[f' rest']|] eqn:Em.
    + injection H as <- <- <-. repeat split; [auto|].
      apply (match_format_group _ _ _ Em).
    + apply Hlonger; [subst c; reflexivity|exact H].
  - destruct (Ascii.eqb c rbrace) eqn:Eb.
    + injection H as <- <- <-. repeat split. auto.
    + apply Hlonger; [reflexivity|exact H].
Qed.

Lemma exec_token_group s n f rest :
  exec_token s = Some (n, f, rest) -> well_formed_piece (Token n f).
Proof.
  intros H. destruct (exec_token_inv _ _ _ _ H)
    as (c & n' & s' & -> & Hc & Hn & ->).
  destruct (name_tail_group _ _ _ _ Hn) as (Hl & Hb & Hf).
  split; [|exact Hf]. split; [|exact Hb].
  unfold no_line_terminator in *. simpl. rewrite Hc, Hl. reflexivity.
Qed.

(** X21: what the scan finds.  The name of every match has one character at
    least, holds no line terminator and, after its first character, no
    closing brace, and so does the format of a match that has one: a match
    ends at the first closing brace that can end it.  A string holds a match
    exactly when somewhere in it a dollar and an opening brace are followed
    by a character other than a line terminator and, later and before any
    line terminator, by a closing brace. *)
Theorem matches_are_shortest :
  forall s,
    Forall well_formed_piece (tokenize s)
    /\ (has_token s = true
        <-> exists before from_here,
             s = before ++ from_here /\ opens from_here = true).
Proof.
  intros s. split.
  - induction s as [|c s He IH|s n f rest He IH] using tokenize_ind.
    + constructor.
    + rewrite (tokenize_literal _ _ He). constructor; [exact I|exact IH].
    + rewrite (tokenize_token _ _ _ _ He). constructor; [|exact IH].
      apply (exec_token_group _ _ _ _ He).
  - unfold has_token. split.
    + induction s as [|c s He IH|s n f rest He IH] using tokenize_ind.
      * discriminate.
      * rewrite (tokenize_literal _ _ He). simpl. intros H.
        destruct (IH H) as (before & from_here & -> & Ho).
        exists (c :: before), from_here. split; [reflexivity|exact Ho].
      * intros _. exists [], s. split; [reflexivity|].
        pose proof (exec_token_opens s) as Ho. rewrite He in Ho. exact Ho.
    + induction s as [|c s He IH|s n f rest He IH] using tokenize_ind.
      * intros (before & from_here & H & Ho).
        symmetry in H. apply app_eq_nil in H. destruct H as [_ ->].
        discriminate.
      * intros (before & from_here & H & Ho).
        rewrite (tokenize_literal _ _ He). simpl.
        destruct before as [|b before].
        -- simpl in H. subst from_here.
           apply exec_token_none in He. congruence.
        -- injection H as <- ->. apply IH. eauto.
      * intros _. rewrite (tokenize_token _ _ _ _ He). reflexivity.
Qed.

(** ** Calling removeFolderSafe again *)

Lemma visit_children_after_failure recur recur' removedNotePath :
  forall children c kept,
    visit_children recur NewArray removedNotePath children false = (c, kept) ->
    c = false
    /\ visit_children recur' NewArray removedNotePath kept false = (false, kept).
Proof.
  induction children as [|child rest IH]; intros c kept H.
  - injection H as <- <-. split; reflexivity.
  - destruct child as [q backlinks st|q st cs].
    + rewrite visit_children_file in H.
      destruct (still_used backlinks removedNotePath) eqn:Eu;
        [|destruct st eqn:Es].
      * destruct (visit_children recur NewArray removedNotePath rest false)
          as [c1 k1] eqn:E1.
        injection H as <- <-. destruct (IH _ _ eq_refl) as [-> Hk].
        split; [reflexivity|]. rewrite visit_children_file, Eu, Hk.
        reflexivity.
      * destruct (visit_children recur NewArray removedNotePath rest false)
          as [c1 k1] eqn:E1.
        injection H as <- <-. destruct (IH _ _ eq_refl) as [-> Hk].
        split; [reflexivity|]. rewrite visit_children_file, Eu, Hk.
        reflexivity.
      * apply IH, H.
    + rewrite visit_children_folder in H.
      destruct (visit_children recur NewArray removedNotePath rest false)
        as [c1 k1] eqn:E1.
      injection H as <- <-. destruct (IH _ _ eq_refl) as [-> Hk].
      split; [reflexivity|]. rewrite visit_children_folder, Hk. reflexivity.
Qed.

Lemma removeFolder_residue_is_folder removedNotePath path stuck children ok
  residue :
  removeFolder NewArray removedNotePath (TFolder path stuck children)
  = (ok, Some residue) ->
  ok = false /\ exists kept, residue = TFolder path stuck kept.
Proof.
  rewrite removeFolder_folder.
  destruct (visit_children _ _ _ children true) as [c kept].
  destruct c; [destruct stuck|]; intros H; try discriminate;
    injection H as <- <-; eauto.
Qed.

Lemma visit_children_again removedNotePath :
  forall children,
    Forall (fun node =>
              forall ok residue,
                removeFolder NewArray removedNotePath node = (ok, Some residue) ->
                removeFolder NewArray removedNotePath residue = (false, Some residue))
      children ->
    forall c kept,
      visit_children (removeFolder NewArray removedNotePath) NewArray
        removedNotePath
        children true = (c, kept) ->
      (c = true /\ kept = [])
      \/ (c = false
          /\ visit_children (removeFolder NewArray removedNotePath) NewArray
        removedNotePath
               kept true = (false, kept)).
Proof.
  induction 1 as [|child rest Hchild Hrest IH]; intros c kept H.
  - injection H as <- <-. left. split; reflexivity.
  - destruct child as [q backlinks st|q st cs].
    + rewrite visit_children_file in H.
      destruct (still_used backlinks removedNotePath) eqn:Eu;
        [|destruct st eqn:Es].
      * destruct (visit_children _ _ removedNotePath rest false)
          as [c1 k1] eqn:E1.
        injection H as <- <-.
        destruct (visit_children_after_failure _
                    (removeFolder NewArray removedNotePath) _ _ _ _ E1) as [-> Hk].
        right. split; [reflexivity|].
        rewrite visit_children_file, Eu, Hk. reflexivity.
      * destruct (visit_children _ _ removedNotePath rest false)
          as [c1 k1] eqn:E1.
        injection H as <- <-.
        destruct (visit_children_after_failure _
                    (removeFolder NewArray removedNotePath) _ _ _ _ E1) as [-> Hk].
        right. split; [reflexivity|].
        rewrite visit_children_file, Eu, Hk. reflexivity.
      * apply IH, H.
    + rewrite visit_children_folder in H.
      destruct (removeFolder NewArray removedNotePath (TFolder q st cs))
        as [ok [residue|]] eqn:Er.
      * destruct (removeFolder_residue_is_folder _ _ _ _ _ _ Er)
          as [-> [k ->]].
        destruct (visit_children _ _ removedNotePath rest false)
          as [c1 k1] eqn:E1.
        injection H as <- <-.
        destruct (visit_children_after_failure _
                    (removeFolder NewArray removedNotePath) _ _ _ _ E1) as [-> Hk].
        right. split; [reflexivity|].
        rewrite visit_children_folder, (Hchild _ _ eq_refl), Hk. reflexivity.
      * destruct (removeFolder_described removedNotePath (TFolder q st cs))
          as ([Hnone _] & _).
        rewrite Er in Hnone. cbn [fst snd] in Hnone.
        rewrite (Hnone eq_refl) in H. apply IH, H.
Qed.

(** X22: when the array the loop reads stays as it was, calling
    removeFolderSafe again on what a call has left changes nothing more and
    answers false: what is left are the files that are still used or cannot
    be deleted and the folders that hold them or were not visited, and a
    second call leaves the same.  When the vault edits that array in place
    this fails: of two files nothing uses followed by a file still used, the
    first call deletes the first and passes over the second, and the second
    call deletes the second, passes over the file still used, answers true
    and deletes the folder with it. *)
Theorem removeFolderSafe_again :
  forall removedNotePath,
    (forall node ok residue,
        removeFolderSafe NewArray (Some node) removedNotePath
        = (ok, Some residue) ->
        ok = false
        /\ removeFolderSafe NewArray (Some residue) removedNotePath
           = (false, Some residue))
    /\ (forall folder first second used backlinks,
           still_used backlinks removedNotePath = true ->
           let left_once :=
             TFolder folder false
               [TFile second [] false; TFile used backlinks false] in
           removeFolderSafe InPlace
             (Some (TFolder folder false
                      [TFile first [] false; TFile second [] false;
                       TFile used backlinks false]))
             removedNotePath
           = (false, Some left_once)
           /\ removeFolderSafe InPlace (Some left_once) removedNotePath
              = (true, None)).
Proof.
  intros removedNotePath. split.
  - intros node. unfold removeFolderSafe.
    assert (H : forall ok residue,
               removeFolder NewArray removedNotePath node
               = (ok, Some residue) ->
               removeFolder NewArray removedNotePath residue
               = (false, Some residue)).
    { induction node as [p backlinks stuck|p stuck children IH]
        using TAbstractFile_induction; intros ok residue H.
      - injection H as <- <-. reflexivity.
      - rewrite removeFolder_folder in H.
        destruct (visit_children _ _ _ children true) as [c kept] eqn:Ev.
        destruct (visit_children_again _ _ IH _ _ Ev) as [[-> ->]|[-> Hk]].
        + destruct stuck; [|discriminate]. injection H as <- <-. reflexivity.
        + injection H as <- <-. rewrite removeFolder_folder, Hk.
          reflexivity. }
    intros ok residue Hr. split; [|apply (H _ _ Hr)].
    destruct (removeFolder_gone NewArray removedNotePath node) as [_ Hb].
    rewrite Hr in Hb. cbn [fst snd] in Hb.
    destruct ok; [|reflexivity]. discriminate (Hb eq_refl).
  - intros folder first second used backlinks H left_once.
    assert (E : still_used [] removedNotePath = false)
      by (destruct removedNotePath as [[|c p]|]; reflexivity).
    unfold left_once, removeFolderSafe. rewrite !removeFolder_folder.
    cbn [visit_children]. rewrite E, H. split; reflexivity.
Qed.

Lemma removeFolderSafe_again_witness :
  let used := TFile (js "img/a.png") [js "other.md"] false in
  let sub := TFolder (js "img/sub") false [TFile (js "img/sub/b.png") [] false] in
  let free := TFile (js "img/c.png") [] false in
  let other := TFile (js "img/d.png") [] false in
  removeFolderSafe NewArray
    (Some (TFolder (js "img") false [free; used; sub])) None
  = (false, Some (TFolder (js "img") false [used; sub]))
  /\ removeFolderSafe NewArray
       (Some (TFolder (js "img") false [used; sub])) None
     = (false, Some (TFolder (js "img") false [used; sub]))
  /\ removeFolderSafe InPlace
       (Some (TFolder (js "img") false [free; other; used])) None
     = (false, Some (TFolder (js "img") false [other; used]))
  /\ removeFolderSafe InPlace
       (Some (TFolder (js "img") false [other; used])) None
     = (true, None).
Proof.
  intros used sub free other.
  assert (H : removeFolderSafe NewArray
                (Some (TFolder (js "img") false [free; used; sub])) None
              = (false, Some (TFolder (js "img") false [used; sub])))
    by (vm_compute; reflexivity).
  split; [exact H|]. split.
  - apply (proj1 (removeFolderSafe_again None) _ _ _ H).
  - apply (proj2 (removeFolderSafe_again None) (js "img") (js "img/c.png")
             (js "img/d.png") (js "img/a.png") [js "other.md"]).
    reflexivity.
Defined.
